(** * Wordle solver engine: candidate filter, scoring and recommendation

    A shallow embedding of [functions/main.py] (with the sibling prototype
    [docs/references/wordle.py] where it has the same function).

    Conventions of the embedding:
    - a Python [str] is a [list ascii]; a letter and a feedback symbol are
      single characters ([ascii]), as produced by [zip(guess, feedback)];
    - a Python [int] is a [Z]; a length ([len]) is a [nat];
    - a Python [float] is an exact rational ([Q]): rounding, infinities and
      NaN are outside the model, and equality of numbers is [Qeq];
    - a [dict] whose order is never observed is a [gmap]; a [dict] whose
      iteration order is used (the frequency tables, which are sorted) is an
      association list in insertion order; a [set] is a [gset];
    - code that can raise runs in the [result] monad below. *)

From Stdlib Require Import Ascii String QArith Qround Qpower Lqa.
From stdpp Require Import gmap strings list sorting pretty.

Set Warnings "-clear-no-such-hyp".

Local Open Scope Z_scope.
Local Open Scope nat_scope.
Local Open Scope list_scope.
Local Open Scope stdpp_scope.

(** ** Python values and exceptions *)

(** A string literal as a Python [str]. *)
Definition py (s : string) : list ascii := list_ascii_of_string s.

Inductive exn : Type :=
| IndexError
| KeyError
| ValueError (msg : string).

Inductive result (A : Type) : Type :=
| Ok (a : A)
| Raise (e : exn).
Arguments Ok {A} a.
Arguments Raise {A} e.

Global Instance result_ret : MRet result := λ A a, Ok a.
Global Instance result_bind : MBind result := λ A B f m,
  match m with
  | Ok a => f a
  | Raise e => Raise e
  end.
Global Instance result_fmap : FMap result := λ A B f m,
  match m with
  | Ok a => Ok (f a)
  | Raise e => Raise e
  end.

(** [for x in l: st = step(st, x)] where [step] may raise. *)
Fixpoint foldlM {A S : Type} (step : S → A → result S) (st : S) (l : list A)
  : result S :=
  match l with
  | [] => Ok st
  | x :: l' => st' ← step st x; foldlM step st' l'
  end.

(** [[x for x in l if p(x)]] where [p] may raise. *)
Fixpoint filterM {A : Type} (p : A → result bool) (l : list A)
  : result (list A) :=
  match l with
  | [] => Ok []
  | x :: l' =>
      b ← p x;
      rest ← filterM p l';
      Ok (if b : bool then x :: rest else rest)
  end.

(** [d[k]] on a dict. *)
Definition getitem `{Countable K} {V : Type} (d : gmap K V) (k : K) : result V :=
  match d !! k with
  | Some v => Ok v
  | None => Raise KeyError
  end.

(** [word[i]] for [i >= 0]. *)
Definition index (word : list ascii) (i : nat) : result ascii :=
  match word !! i with
  | Some c => Ok c
  | None => Raise IndexError
  end.

(** [word.count(letter)] and [letter in word] for a one-character [letter]. *)
Definition count (word : list ascii) (letter : ascii) : nat :=
  length (filter (λ c, c = letter) word).

Definition contains (word : list ascii) (letter : ascii) : bool :=
  bool_decide (letter ∈ word).

(** [word.startswith(prefix)]. *)
Fixpoint startswith (word prefix : list ascii) : bool :=
  match prefix, word with
  | [], _ => true
  | p :: prefix', c :: word' => bool_decide (c = p) && startswith word' prefix'
  | _ :: _, [] => false
  end.

(** ** Candidate filter: [filter_possible_words] *)

Module Filter.

(** The body of the counting loop over [guess_feedback]. *)
Definition count_step (st : gmap ascii nat * gmap ascii nat)
    (entry : ascii * ascii) : result (gmap ascii nat * gmap ascii nat) :=
  let '(correct_letter_counts, present_letter_counts) := st in
  let '(letter, feedback) := entry in
  let '(correct_letter_counts, present_letter_counts) :=
    if decide (correct_letter_counts !! letter = None)
    then (<[letter := 0]> correct_letter_counts,
          <[letter := 0]> present_letter_counts)
    else (correct_letter_counts, present_letter_counts) in
  if decide (feedback = "g"%char) then
    c ← getitem correct_letter_counts letter;
    Ok (<[letter := c + 1]> correct_letter_counts, present_letter_counts)
  else if decide (feedback = "y"%char) then
    c ← getitem present_letter_counts letter;
    Ok (correct_letter_counts, <[letter := c + 1]> present_letter_counts)
  else Ok (correct_letter_counts, present_letter_counts).

Definition letter_counts (guess_feedback : list (ascii * ascii))
  : result (gmap ascii nat * gmap ascii nat) :=
  foldlM count_step (∅, ∅) guess_feedback.

(** [{letter: word.count(letter) for letter, _ in guess_feedback}] *)
Definition word_letter_counts (word : list ascii)
    (guess_feedback : list (ascii * ascii)) : gmap ascii nat :=
  foldl (λ d entry, <[entry.1 := count word entry.1]> d) ∅ guess_feedback.

Section is_word_possible.
Variables correct_letter_counts present_letter_counts : gmap ascii nat.
Variable word : list ascii.
Variable wlc : gmap ascii nat.

(** The [for i, (letter, feedback) in enumerate(guess_feedback)] loop,
    from position [i] on; [Ok false] is the early [return False]. *)
Fixpoint check_from (i : nat) (guess_feedback : list (ascii * ascii))
  : result bool :=
  match guess_feedback with
  | [] => Ok true
  | (letter, feedback) :: rest =>
      if decide (feedback = "g"%char) then
        wi ← index word i;
        if decide (wi ≠ letter) then Ok false
        else
          wc ← getitem wlc letter;
          cc ← getitem correct_letter_counts letter;
          if decide (wc < cc) then Ok false else check_from (S i) rest
      else if decide (feedback = "y"%char) then
        if negb (contains word letter) then Ok false
        else
          wi ← index word i;
          if decide (wi = letter) then Ok false
          else
            wc ← getitem wlc letter;
            cc ← getitem correct_letter_counts letter;
            if decide (wc ≤ cc) then Ok false else check_from (S i) rest
      else if decide (feedback = "b"%char) then
        if contains word letter then
          wc ← getitem wlc letter;
          cc ← getitem correct_letter_counts letter;
          pc ← getitem present_letter_counts letter;
          if decide (cc + pc < wc) then Ok false else check_from (S i) rest
        else check_from (S i) rest
      else check_from (S i) rest
  end.
End is_word_possible.

Definition is_word_possible
    (correct_letter_counts present_letter_counts : gmap ascii nat)
    (guess_feedback : list (ascii * ascii)) (word : list ascii) : result bool :=
  check_from correct_letter_counts present_letter_counts word
    (word_letter_counts word guess_feedback) 0 guess_feedback.

Definition filter_possible_words (word_list : list (list ascii))
    (guess_feedback : list (ascii * ascii)) : result (list (list ascii)) :=
  match guess_feedback with
  | [] => Ok word_list
  | _ :: _ =>
      counts ← letter_counts guess_feedback;
      filterM (is_word_possible counts.1 counts.2 guess_feedback) word_list
  end.

End Filter.

(** ** Python's stable sort, [sorted(..., reverse=True)] / [list.sort(reverse=True)]

    The result of a stable sort is determined by the order on the keys, so it
    is given here by insertion: an element moves right past the elements
    whose key is strictly greater, and stays left of its ties. *)

Section sort_desc.
Context {A : Type} (lt : A → A → bool).

Fixpoint insert_desc (x : A) (l : list A) : list A :=
  match l with
  | [] => [x]
  | y :: l' => if lt x y then y :: insert_desc x l' else x :: y :: l'
  end.

Definition sort_desc (l : list A) : list A := foldr insert_desc [] l.
End sort_desc.

(** [l[:n]] for a Python [int] [n]. *)
Definition slice_to {A : Type} (l : list A) (n : Z) : list A :=
  if decide (0 ≤ n)%Z then take (Z.to_nat n) l
  else take (length l - Z.to_nat (- n)) l.

(** [key x < key y] on rational keys. *)
Definition Qltb (x y : Q) : bool :=
  match (x ?= y)%Q with
  | Lt => true
  | _ => false
  end.

(** ** Ordered dictionaries keyed by letters *)

Module Dict.
Fixpoint get {V : Type} (d : list (ascii * V)) (k : ascii) : option V :=
  match d with
  | [] => None
  | (k', v) :: d' => if decide (k' = k) then Some v else get d' k
  end.

(** [d.get(k, default)] *)
Definition get_default {V : Type} (d : list (ascii * V)) (k : ascii)
    (default : V) : V :=
  match get d k with
  | Some v => v
  | None => default
  end.

Definition values {V : Type} (d : list (ascii * V)) : list V := d.*2.
End Dict.

(** [Counter(all_letters)]: one entry per letter, in order of first
    occurrence. *)
Fixpoint counter_add (c : ascii) (d : list (ascii * nat)) : list (ascii * nat) :=
  match d with
  | [] => [(c, 1)]
  | (k, n) :: d' =>
      if decide (k = c) then (k, n + 1) :: d' else (k, n) :: counter_add c d'
  end.

Definition Counter (all_letters : list ascii) : list (ascii * nat) :=
  foldl (λ d c, counter_add c d) [] all_letters.

(** [sum(...)] over rationals and over naturals. *)
Definition Qsum (l : list Q) : Q := foldl Qplus 0%Q l.

Definition Q_of_nat (n : nat) : Q := inject_Z (Z.of_nat n).

(** ** Frequency analyzer, normalizer and scorer *)

(** [len(word) == length and (prefix is None or word.startswith(prefix))] *)
Definition matches_length_prefix (len : Z) (prefix : option (list ascii))
    (word : list ascii) : bool :=
  bool_decide (Z.of_nat (length word) = len)
  && match prefix with
     | None => true
     | Some p => startswith word p
     end.

Definition calculate_letter_frequency (word_list : list (list ascii))
    (len : Z) (prefix : option (list ascii)) : list (ascii * Q) :=
  let filtered_words :=
    filter (λ word, matches_length_prefix len prefix word = true) word_list in
  match filtered_words with
  | [] => []
  | _ :: _ =>
      let filtered_words :=
        match prefix with
        | Some (c :: p) => (λ word, drop (length (c :: p)) word) <$> filtered_words
        | _ => filtered_words
        end in
      let all_letters := concat filtered_words in
      let frequency := Counter all_letters in
      let total_letters := sum_list (Dict.values frequency) in
      if decide (total_letters = 0) then []
      else
        let percentage_frequency :=
          (λ item : ascii * nat,
             (item.1, (Q_of_nat item.2 / Q_of_nat total_letters * 100)%Q))
          <$> frequency in
        sort_desc (λ x y : ascii * Q, Qltb x.2 y.2) percentage_frequency
  end.

(** [max(values)] and [min(values)] of a non-empty sequence. *)
Definition Qmaximum (x : Q) (l : list Q) : Q :=
  foldl (λ m v, if Qltb m v then v else m) x l.
Definition Qminimum (x : Q) (l : list Q) : Q :=
  foldl (λ m v, if Qltb v m then v else m) x l.

Definition normalize_letter_frequencies (frequencies : list (ascii * Q))
  : list (ascii * Q) :=
  match Dict.values frequencies with
  | [] => []
  | v0 :: vs =>
      let max_freq := Qmaximum v0 vs in
      let min_freq := Qminimum v0 vs in
      if Qeq_bool max_freq min_freq
      then (λ item : ascii * Q, (item.1, 5%Q)) <$> frequencies
      else
        (λ item : ascii * Q,
           (item.1, ((item.2 - min_freq) / (max_freq - min_freq) * 10)%Q))
        <$> frequencies
  end.

(** The score with its two sums taken exactly: the table values are
    binary64 numbers, hence rationals, and [Qsum] adds them without
    rounding, so that neither the order of the letters nor the order in
    which [set(word)] is iterated shows.  What the floating-point [sum] of
    the interpreter adds to this is the subject of [Rounded] below. *)
Definition calculate_guess_score (word : list ascii)
    (letter_scores : list (ascii * Q)) (guess_count : Z) : Q :=
  let count_duplicates := bool_decide (2 < guess_count)%Z in
  if count_duplicates
  then Qsum ((λ letter, Dict.get_default letter_scores letter 0%Q) <$> word)
  else Qsum ((λ letter, Dict.get_default letter_scores letter 0%Q)
               <$> elements (list_to_set word : gset ascii)).

(** ** Recommender *)

Definition recommend_guesses (word_list : list (list ascii)) (len : Z)
    (prefix : option (list ascii)) (n : Z) (guess_count : Z)
    (score_base_word_list : option (list (list ascii)))
  : list (list ascii * Q) :=
  let filtered_words :=
    filter (λ word, matches_length_prefix len prefix word = true) word_list in
  match filtered_words with
  | [] => []
  | _ :: _ =>
      let base := default word_list score_base_word_list in
      let frequencies := calculate_letter_frequency base len prefix in
      let letter_scores := normalize_letter_frequencies frequencies in
      let scored_words :=
        (λ word, (word, calculate_guess_score word letter_scores guess_count))
        <$> filtered_words in
      slice_to (sort_desc (λ x y : list ascii * Q, Qltb x.2 y.2) scored_words) n
  end.

(** ** Variable positions and filler words *)

(** The two nested loops of [find_variable_letter_positions]:
    [variable_positions[i].add(letter)] raises [KeyError] when the dict has
    no key [i]. *)
Definition add_letter (vp : gmap nat (gset ascii)) (entry : nat * ascii)
  : result (gmap nat (gset ascii)) :=
  letters ← getitem vp entry.1;
  Ok (<[entry.1 := letters ∪ {[entry.2]}]> vp).

Definition add_word (vp : gmap nat (gset ascii)) (word : list ascii)
  : result (gmap nat (gset ascii)) :=
  foldlM add_letter vp (imap (λ i letter, (i, letter)) word).

(** The working dict is keyed by position; the dict returned (built by a
    comprehension over it, in insertion order) is the list of its entries
    with more than one letter, by increasing position. *)
Definition find_variable_letter_positions (word_list : list (list ascii))
  : result (list (nat * gset ascii)) :=
  match word_list with
  | [] => Ok []
  | first :: _ =>
      let word_length := length first in
      let variable_positions : gmap nat (gset ascii) :=
        list_to_map ((λ i, (i, ∅)) <$> seq 0 word_length) in
      variable_positions ← foldlM add_word variable_positions word_list;
      Ok (omap (λ pos,
                  match variable_positions !! pos with
                  | Some letters =>
                      if decide (1 < size letters) then Some (pos, letters)
                      else None
                  | None => None
                  end)
               (seq 0 word_length))
  end.

(** The union of all the sets in [variable_positions.values()]. *)
Definition collect_variable_letters (variable_positions : list (nat * gset ascii))
  : gset ascii :=
  ⋃ variable_positions.*2.

(** The filler block of [calculate_next_move], entered when
    [variable_letters and len(possible_words) > 10]. *)
Definition has_variable_letter (variable_letters : gset ascii)
    (word : list ascii) : bool :=
  existsb (contains word) (elements variable_letters).

Definition filler_score (variable_letters : gset ascii) (word : list ascii)
  : nat :=
  length (filter (λ letter, contains word letter = true)
            (elements variable_letters)).

Definition filler_candidates (dictionary : list (list ascii)) (word_length : Z)
    (variable_letters : gset ascii) : list (list ascii) :=
  filter (λ word, bool_decide (Z.of_nat (length word) = word_length)
                  && has_variable_letter variable_letters word = true)
    dictionary.

Definition scored_fillers (dictionary : list (list ascii)) (word_length : Z)
    (variable_letters : gset ascii) : list (list ascii * nat) :=
  sort_desc (λ x y : list ascii * nat, x.2 <? y.2)
    ((λ word, (word, filler_score variable_letters word))
       <$> filler_candidates dictionary word_length variable_letters).

Definition filler_words (dictionary : list (list ascii)) (word_length : Z)
    (variable_letters : gset ascii) : list (list ascii) :=
  (slice_to (scored_fillers dictionary word_length variable_letters) 9).*1.

Definition filler_suggestions (dictionary possible_words : list (list ascii))
    (word_length : Z) (variable_letters : gset ascii) : list (list ascii) :=
  if bool_decide (variable_letters ≠ ∅) && bool_decide (10 < length possible_words)
  then filler_words dictionary word_length variable_letters
  else [].

(** The prototype's [find_words_with_letters] ([docs/references/wordle.py]);
    [target_word_length] is a module global there, and [letters] a string. *)
Definition find_words_with_letters (target_word_length : Z)
    (word_list : list (list ascii)) (letters : list ascii) (n : Z)
  : list (list ascii) :=
  let filtered_words :=
    filter (λ word, existsb (contains word) letters
                    && bool_decide (Z.of_nat (length word) = target_word_length)
                    = true)
      word_list in
  let scored_words :=
    (λ word,
       (word, length (filter (λ letter, contains word letter = true)
                        (elements (list_to_set letters : gset ascii)))))
    <$> filtered_words in
  slice_to (sort_desc (λ x y : list ascii * nat, x.2 <? y.2) scored_words).*1 n.

(** ** The request handler: [calculate_next_move] *)

(** [str.lower()] on ASCII text. *)
Definition lower_char (c : ascii) : ascii :=
  let n := nat_of_ascii c in
  if decide (65 ≤ n ∧ n ≤ 90) then ascii_of_nat (n + 32) else c.

Definition lower (s : list ascii) : list ascii := lower_char <$> s.

(** [round(score, 2)]: to the nearest hundredth, exact ties to even. *)
Definition round2 (score : Q) : Q :=
  let x := (score * 100)%Q in
  let f := Qfloor x in
  let r := (x - inject_Z f)%Q in
  let k :=
    match (r ?= 1 # 2)%Q with
    | Lt => f
    | Gt => (f + 1)%Z
    | Eq => if Z.even f then f else (f + 1)%Z
    end in
  (inject_Z k / 100)%Q.

(** The value found under ["wordLength"]: a Python [int] or anything else.
    [bool] is a subclass of [int] ([isinstance(True, int)] holds, and [True]
    compares and is equal as 1), so [JInt 1] also stands for [True] and
    [JInt 0] for [False]. *)
Inductive json_value : Type :=
| JInt (z : Z)
| JOther.

Record Config : Type := {
  wordLength : option json_value;
  prefix : option (list ascii);
  dictionary : option string;
}.

Record HistoryEntry : Type := {
  guess : option (list ascii);
  feedback : option (list ascii);
}.

(** A request as a client of the API sends it: every key may be missing,
    and what is present has the type the handler expects (a string for
    [prefix], [dictionary], [guess] and [feedback], a list of objects for
    [history]); only [wordLength] is unconstrained.  A key that is present
    with [null] or with a value of another type makes a method call of the
    handler fail ([TypeError], [AttributeError]), which it answers with
    [INTERNAL_ERROR]; such requests are not values of this type, and
    nothing is stated about them. *)
Record Request : Type := {
  config : option Config;
  history : option (list HistoryEntry);
}.

Record Success : Type := {
  recommendations : list (list ascii * Q);
  remainingWords : list (list ascii);
  remainingCount : nat;
  variablePositions : list (string * list ascii);
  fillerSuggestions : list (list ascii);
  guessCount : nat;
}.

Inductive ErrorKind : Type :=
| INVALID_ARGUMENT
| DICTIONARY_NOT_FOUND
| INTERNAL_ERROR.

Inductive Response : Type :=
| Reply (r : Success)
| Error (kind : ErrorKind) (message : string).

(** One iteration of [for entry in history]. *)
Definition apply_entry (word_length : Z) (possible_words : list (list ascii))
    (entry : HistoryEntry) : result (list (list ascii)) :=
  match guess entry, feedback entry with
  | Some g, Some f =>
      let guess := lower g in
      let feedback := lower f in
      if decide (Z.of_nat (length guess) ≠ word_length
                 ∨ Z.of_nat (length feedback) ≠ word_length)
      then Raise (ValueError "Guess and feedback length mismatch")
      else if negb (forallb (contains (py "gyb")) feedback)
      then Raise (ValueError "Invalid feedback characters")
      else
        let guess_feedback := zip guess feedback in
        Filter.filter_possible_words possible_words guess_feedback
  | _, _ => Raise (ValueError "Invalid history entry format")
  end.

Section calculate_next_move.
(** The dictionary provider is external: [load_dictionary_from_storage]
    returns the word list or raises. *)
Variable load_dictionary_from_storage : string → result (list (list ascii)).

(** The part of the [try] body that follows the load of the dictionary. *)
Definition next_move (dictionary : list (list ascii)) (word_length : Z)
    (prefix : option (list ascii)) (history : list HistoryEntry)
  : result Success :=
  let possible_words :=
    filter (λ word, matches_length_prefix word_length prefix word = true)
      dictionary in
  let guess_count := length history + 1 in
  possible_words ← foldlM (apply_entry word_length) possible_words history;
  let recommendations :=
    recommend_guesses possible_words word_length prefix 9
      (Z.of_nat guess_count) (Some dictionary) in
  variable_positions ← find_variable_letter_positions possible_words;
  let variable_letters := collect_variable_letters variable_positions in
  let filler_suggestions :=
    filler_suggestions dictionary possible_words word_length variable_letters in
  let formatted_variable_positions :=
    (λ item : nat * gset ascii, (pretty item.1, elements item.2))
    <$> variable_positions in
  Ok {| recommendations :=
          (λ item : list ascii * Q, (item.1, round2 item.2)) <$> recommendations;
        remainingWords := take 100 possible_words;
        remainingCount := length possible_words;
        variablePositions := formatted_variable_positions;
        fillerSuggestions := filler_suggestions;
        guessCount := guess_count |}.

Definition calculate_next_move (data : Request) : Response :=
  let body : result Response :=
    match config data with
    | None => Raise (ValueError "Missing config in request")
    | Some config =>
        let history := default [] (history data) in
        let word_length := default (JInt 5) (wordLength config) in
        let prefix := prefix config in
        let dictionary_name := default "english.json"%string (dictionary config) in
        match word_length with
        | JOther => Raise (ValueError "Invalid wordLength")
        | JInt word_length =>
            if decide (word_length < 1)%Z
            then Raise (ValueError "Invalid wordLength")
            else
              match load_dictionary_from_storage dictionary_name with
              | Raise (ValueError msg) => Ok (Error DICTIONARY_NOT_FOUND msg)
              | Raise e => Raise e
              | Ok dictionary =>
                  Reply <$> next_move dictionary word_length prefix history
              end
        end
    end in
  match body with
  | Ok response => response
  | Raise (ValueError msg) => Error INVALID_ARGUMENT msg
  | Raise _ => Error INTERNAL_ERROR "An unexpected error occurred"
  end.
End calculate_next_move.

(** ** The dictionary loader: [load_dictionary_from_storage]

    The module-level [_dictionary_cache] is threaded as state; the bucket is
    read through a function from blob paths to what the storage client and
    [json.loads] produce there. *)

Inductive json_data : Type :=
| JsonList (words : list (list ascii))
| JsonOther.

Inductive blob : Type :=
| BlobMissing                  (* [blob.exists()] is false *)
| BlobFails (msg : string)     (* the client or [json.loads] raises [e], [str(e) = msg] *)
| BlobJson (data : json_data).

(** The body of the [try]: the word list, or the text of the exception. *)
Definition download_dictionary (bucket : string → blob) (dictionary_name : string)
  : string + list (list ascii) :=
  match bucket ("dictionaries/" ++ dictionary_name)%string with
  | BlobMissing => inl ("Dictionary '" ++ dictionary_name ++ "' not found")%string
  | BlobFails msg => inl msg
  | BlobJson JsonOther =>
      inl ("Invalid dictionary format for '" ++ dictionary_name ++ "'")%string
  | BlobJson (JsonList dictionary_data) => inr dictionary_data
  end.

Definition load_dictionary_from_storage (bucket : string → blob)
    (cache : gmap string (list (list ascii))) (dictionary_name : string)
  : result (list (list ascii)) * gmap string (list (list ascii)) :=
  match cache !! dictionary_name with
  | Some cached => (Ok cached, cache)
  | None =>
      match download_dictionary bucket dictionary_name with
      | inr dictionary_data =>
          (Ok dictionary_data, <[dictionary_name := dictionary_data]> cache)
      | inl msg =>
          (Raise (ValueError ("Failed to load dictionary '" ++ dictionary_name
                              ++ "': " ++ msg)%string),
           cache)
      end
  end.

(** The handler as deployed: the loader above, on the current cache. *)
Definition serve (bucket : string → blob)
    (cache : gmap string (list (list ascii))) (data : Request) : Response :=
  calculate_next_move
    (λ dictionary_name,
       (load_dictionary_from_storage bucket cache dictionary_name).1)
    data.

(** ** The prototype: [docs/references/wordle.py]

    The prototype keeps [guess_count] and the default letter scores in module
    globals; they are parameters here.  Its frequency analyzer and normalizer
    have no guards, so the two exceptions they can raise are modelled. *)

Module Proto.

Inductive exn : Type :=
| EmptySequence        (* [ValueError]: [max()] of an empty sequence *)
| ZeroDivisionError.

Inductive outcome (A : Type) : Type :=
| Returns (a : A)
| Throws (e : exn).
Arguments Returns {A} a.
Arguments Throws {A} e.

(** [{k: f(k, v) for k, v in d.items()}] where [f] may raise. *)
Fixpoint comprehension {A B : Type} (f : A → outcome B) (l : list A)
  : outcome (list B) :=
  match l with
  | [] => Returns []
  | x :: l' =>
      match f x with
      | Throws e => Throws e
      | Returns y =>
          match comprehension f l' with
          | Throws e => Throws e
          | Returns ys => Returns (y :: ys)
          end
      end
  end.

Definition calculate_letter_frequency (word_list : list (list ascii))
    (len : Z) (prefix : option (list ascii)) : outcome (list (ascii * Q)) :=
  let filtered_words :=
    filter (λ word, matches_length_prefix len prefix word = true) word_list in
  let filtered_words :=
    match prefix with
    | Some (c :: p) => (λ word, drop (length (c :: p)) word) <$> filtered_words
    | _ => filtered_words
    end in
  let all_letters := concat filtered_words in
  let frequency := Counter all_letters in
  let total_letters := sum_list (Dict.values frequency) in
  match
    comprehension
      (λ item : ascii * nat,
         if decide (total_letters = 0) then Throws ZeroDivisionError
         else Returns
                (item.1, (Q_of_nat item.2 / Q_of_nat total_letters * 100)%Q))
      frequency
  with
  | Throws e => Throws e
  | Returns percentage_frequency =>
      Returns (sort_desc (λ x y : ascii * Q, Qltb x.2 y.2) percentage_frequency)
  end.

Definition normalize_letter_frequencies (frequencies : list (ascii * Q))
  : outcome (list (ascii * Q)) :=
  match Dict.values frequencies with
  | [] => Throws EmptySequence
  | v0 :: vs =>
      let max_freq := Qmaximum v0 vs in
      let min_freq := Qminimum v0 vs in
      comprehension
        (λ item : ascii * Q,
           if Qeq_bool (max_freq - min_freq) 0 then Throws ZeroDivisionError
           else Returns
                  (item.1,
                   ((item.2 - min_freq) / (max_freq - min_freq) * 10)%Q))
        frequencies
  end.

Definition calculate_guess_score (guess_count : Z) (word : list ascii)
    (count_duplicates : bool) (letter_scores : list (ascii * Q)) : Q :=
  let count_duplicates :=
    if bool_decide (2 < guess_count)%Z then true else count_duplicates in
  if count_duplicates
  then Qsum ((λ letter, Dict.get_default letter_scores letter 0%Q) <$> word)
  else Qsum ((λ letter, Dict.get_default letter_scores letter 0%Q)
               <$> elements (list_to_set word : gset ascii)).

(** The default arguments are evaluated once, when the module is loaded:
    [frequencies=calculate_letter_frequency()] on the full dictionary with
    the module's [target_word_length] and [word_prefix], then
    [letter_scores=normalize_letter_frequencies()].  The table is frozen
    from then on; an exception here ends the program. *)
Definition default_letter_scores (all_words : list (list ascii))
    (target_word_length : Z) (word_prefix : option (list ascii))
  : outcome (list (ascii * Q)) :=
  match calculate_letter_frequency all_words target_word_length word_prefix with
  | Throws e => Throws e
  | Returns frequencies => normalize_letter_frequencies frequencies
  end.

(** [letter_scores] is the frozen default argument of
    [calculate_guess_score]; [len] and [prefix] are arguments of the call,
    with the module's [target_word_length] and [word_prefix] as defaults. *)
Definition recommend_guesses (guess_count : Z) (letter_scores : list (ascii * Q))
    (word_list : list (list ascii)) (n : Z) (len : Z)
    (prefix : option (list ascii)) : list (list ascii * Q) :=
  let n := Z.min n (Z.of_nat (length word_list)) in
  let filtered_words :=
    filter (λ word, matches_length_prefix len prefix word = true) word_list in
  let scored_words :=
    (λ word, (word, calculate_guess_score guess_count word false letter_scores))
    <$> filtered_words in
  slice_to (sort_desc (λ x y : list ascii * Q, Qltb x.2 y.2) scored_words) n.

(** [collect_variable_letters]: the letters of all positions, as a string
    in increasing order of character code. *)
Definition collect_variable_letters
    (variable_positions : list (nat * gset ascii)) : list ascii :=
  let unique_variable_letters : gset ascii := ⋃ variable_positions.*2 in
  sort_desc (λ x y : ascii, nat_of_ascii y <? nat_of_ascii x)
    (elements unique_variable_letters).

End Proto.

(** ** The score as the interpreter computes it

    [sum] adds binary64 numbers and rounds, and [set(word)] is iterated in
    an order the language leaves open.  Both are parameters here: [fsum] is
    the summation of the interpreter on a list of table values (binary64
    numbers, taken as the rationals they are), [set_order] the order in
    which the distinct letters of a word come out of [set(word)]. *)

Module Rounded.

Definition calculate_guess_score (fsum : list Q → Q)
    (set_order : list ascii → list ascii) (word : list ascii)
    (letter_scores : list (ascii * Q)) (guess_count : Z) : Q :=
  let count_duplicates := bool_decide (2 < guess_count)%Z in
  if count_duplicates
  then fsum ((λ letter, Dict.get_default letter_scores letter 0%Q) <$> word)
  else fsum ((λ letter, Dict.get_default letter_scores letter 0%Q)
               <$> set_order word).

(** [set(word)] holds the distinct letters of the word, each once. *)
Definition iterates_set (set_order : list ascii → list ascii) : Prop :=
  ∀ word, set_order word ≡ₚ elements (list_to_set word : gset ascii).

(** The summation has relative error at most [e] on up to [N] terms
    between 0 and 10 (the range of a normalized table, where nothing
    overflows).  Left-to-right binary64 addition has
    [e = (1 + 2^-53)^(N-1) - 1]; a compensated summation has less. *)
Definition accurate (fsum : list Q → Q) (e : Q) (N : nat) : Prop :=
  ∀ l, length l ≤ N →
       Forall (λ x, (0 <= x <= 10)%Q) l →
       ((1 - e) * Qsum l <= fsum l <= (1 + e) * Qsum l)%Q.

End Rounded.

(** ** Binary64 addition

    The numbers of the interpreter are binary64: a sum of two of them is
    rounded to the nearest number with a 53-bit significand, ties to the
    even significand.  The exponent range is not modelled (no score comes
    near an overflow, and a sum in the subnormal range is exact).  [sum] is
    the builtin over floats as a plain left-to-right addition from 0, which
    is what CPython does up to 3.11; from 3.12 on [sum] compensates the
    rounding errors and is more accurate than this. *)

Module Binary64.

Definition round_half_even (x : Q) : Z :=
  let f := Qfloor x in
  match (x - inject_Z f ?= 1 # 2)%Q with
  | Lt => f
  | Gt => (f + 1)%Z
  | Eq => if Z.even f then f else (f + 1)%Z
  end.

(** For [x > 0], the exponent [k] of the unit in the last place:
    [2^52 <= x / 2^k < 2^53]. *)
Definition ulp_exponent (x : Q) : Z :=
  let d := (Z.log2 (Qnum x) - Z.log2 (Z.pos (Qden x)))%Z in
  if Qle_bool (2 ^ d) x then (d - 52)%Z else (d - 53)%Z.

Definition round_pos (x : Q) : Q :=
  let k := ulp_exponent x in
  (inject_Z (round_half_even (x / 2 ^ k)) * 2 ^ k)%Q.

Definition round (x : Q) : Q :=
  match Qnum x with
  | Z0 => 0%Q
  | Z.pos _ => round_pos x
  | Z.neg _ => (- round_pos (- x))%Q
  end.

Definition add (x y : Q) : Q := round (x + y).
Definition sub (x y : Q) : Q := round (x - y).
Definition mul (x y : Q) : Q := round (x * y).
Definition div (x y : Q) : Q := round (x / y).

Definition sum (l : list Q) : Q := foldl add 0%Q l.

(** A decimal literal with fifteen digits after the point, as the float it
    denotes. *)
Definition literal (n : Z) : Q := round (n # 1000000000000000).

(** The unit roundoff [2^-53], and the factors by which [n] roundings can
    raise or lower a sum. *)
Definition u : Q := 1 # 9007199254740992.

Fixpoint growth (n : nat) : Q :=
  match n with
  | O => 1%Q
  | S n => ((1 + u) * growth n)%Q
  end.

Fixpoint decay (n : nat) : Q :=
  match n with
  | O => 1%Q
  | S n => ((1 - u) * decay n)%Q
  end.

End Binary64.

(** ** The filter as the specification words it

    Feedback symbols as a closed three-valued type, the two per-letter counts
    taken over the whole feedback sequence, and the retention condition read
    position by position. *)

Inductive Symbol : Type :=
| Correct
| Present
| Absent.

Global Instance Symbol_eq_dec : EqDecision Symbol.
Proof. solve_decision. Defined.

Definition symbol_char (s : Symbol) : ascii :=
  match s with
  | Correct => "g"%char
  | Present => "y"%char
  | Absent => "b"%char
  end.

(** A typed feedback sequence as the list of tuples handed to the code. *)
Definition encode (fb : list (ascii * Symbol)) : list (ascii * ascii) :=
  (λ entry : ascii * Symbol, (entry.1, symbol_char entry.2)) <$> fb.

Definition correctCount (fb : list (ascii * Symbol)) (L : ascii) : nat :=
  length (filter (λ entry, entry = (L, Correct)) fb).

Definition presentCount (fb : list (ascii * Symbol)) (L : ascii) : nat :=
  length (filter (λ entry, entry = (L, Present)) fb).

Definition occurrences (L : ascii) (word : list ascii) : nat := count word L.

Definition retained (fb : list (ascii * Symbol)) (word : list ascii) : Prop :=
  ∀ (i : nat) (L : ascii) (s : Symbol),
    fb !! i = Some (L, s) →
    match s with
    | Correct =>
        word !! i = Some L ∧ correctCount fb L ≤ occurrences L word
    | Present =>
        L ∈ word ∧ word !! i ≠ Some L ∧ correctCount fb L < occurrences L word
    | Absent =>
        L ∈ word → occurrences L word ≤ correctCount fb L + presentCount fb L
    end.

(** ** Notions used in the statements and proofs *)

(** *** Candidate filter *)

(** How many entries of the feedback are the letter [L] with symbol [c]. *)
Definition tally (c : ascii) (gf : list (ascii * ascii)) (L : ascii) : nat :=
  length (filter (λ entry, entry = (L, c)) gf).

Definition counts_inv (cc pc : gmap ascii nat) (seen : list (ascii * ascii))
  : Prop :=
  ∀ K : ascii,
    cc !! K = (if decide (K ∈ seen.*1) then Some (tally "g" seen K) else None)
    ∧ pc !! K = (if decide (K ∈ seen.*1) then Some (tally "y" seen K) else None).

(** What the loop body demands at position [i] of a word, for the entry
    [(L, s)] of the feedback [full]. *)
Definition demand (full : list (ascii * ascii)) (word : list ascii)
    (i : nat) (L s : ascii) : Prop :=
  (s = "g"%char → word !! i = Some L ∧ tally "g" full L ≤ count word L)
  ∧ (s = "y"%char →
     L ∈ word ∧ word !! i ≠ Some L ∧ tally "g" full L < count word L)
  ∧ (s = "b"%char →
     L ∈ word → count word L ≤ tally "g" full L + tally "y" full L).

(** The retention condition is decidable position by position. *)
Definition entry_ok (fb : list (ascii * Symbol)) (word : list ascii)
    (ie : nat * (ascii * Symbol)) : Prop :=
  match ie.2.2 with
  | Correct =>
      word !! ie.1 = Some ie.2.1 ∧ correctCount fb ie.2.1 ≤ occurrences ie.2.1 word
  | Present =>
      ie.2.1 ∈ word ∧ word !! ie.1 ≠ Some ie.2.1
      ∧ correctCount fb ie.2.1 < occurrences ie.2.1 word
  | Absent =>
      ie.2.1 ∈ word →
      occurrences ie.2.1 word ≤ correctCount fb ie.2.1 + presentCount fb ie.2.1
  end.

Global Instance entry_ok_dec fb word ie : Decision (entry_ok fb word ie).
Proof. unfold entry_ok. destruct (ie.2.2); apply _. Defined.

(** *** Frequency analyzer *)

(** The letters that are counted: the filtered words without the prefix. *)
Definition counted_letters (word_list : list (list ascii)) (len : Z)
    (prefix : option (list ascii)) : list ascii :=
  concat ((λ word, drop (length (default [] prefix)) word)
            <$> filter (λ word, matches_length_prefix len prefix word = true)
                  word_list).

(** *** Request handler *)

(** A history entry that passes the checks of the replay loop. *)
Definition well_formed_entry (word_length : Z) (entry : HistoryEntry) : Prop :=
  ∃ g f,
    guess entry = Some g ∧ feedback entry = Some f
    ∧ Z.of_nat (length g) = word_length
    ∧ Z.of_nat (length f) = word_length
    ∧ Forall (λ c, c ∈ py "gyb") (lower f).

(** The message of the [ValueError] that the replay loop raises for an
    entry that is not well formed. *)
Definition malformed_message (word_length : Z) (entry : HistoryEntry) : string :=
  match guess entry, feedback entry with
  | Some g, Some f =>
      if decide (Z.of_nat (length g) = word_length
                 ∧ Z.of_nat (length f) = word_length)
      then "Invalid feedback characters"
      else "Guess and feedback length mismatch"
  | _, _ => "Invalid history entry format"
  end.

(** *** Filler words as the specification words them *)

(** A word of the broad list is eligible when it has the target length and
    contains at least one variable letter. *)
Definition eligible_filler (word_length : Z) (variable_letters : gset ascii)
    (word : list ascii) : Prop :=
  Z.of_nat (length word) = word_length
  ∧ ∃ letter, letter ∈ variable_letters ∧ letter ∈ word.

Global Instance eligible_filler_dec word_length variable_letters word :
  Decision (eligible_filler word_length variable_letters word).
Proof.
  refine (cast_if (decide (Z.of_nat (length word) = word_length
                           ∧ set_Exists (λ letter, letter ∈ word)
                               variable_letters)));
    unfold eligible_filler, set_Exists in *; tauto.
Defined.

(** The number of distinct variable letters that a word contains. *)
Definition distinct_variable_letters (variable_letters : gset ascii)
    (word : list ascii) : nat :=
  size (filter (λ letter, letter ∈ word) variable_letters).

(** The letters seen at a position across a word list. *)
Definition letters_at (pos : nat) (word_list : list (list ascii)) : gset ascii :=
  list_to_set (omap (λ word : list ascii, word !! pos) word_list).

(** *** Feedback as the code reads it *)

(** A word meets a feedback (letters paired with any characters) when it
    meets the loop's demand at every position. *)
Definition possible (gf : list (ascii * ascii)) (word : list ascii) : Prop :=
  ∀ j L s, gf !! j = Some (L, s) → demand gf word j L s.

(** The feedback a history entry stands for. *)
Definition entry_feedback (entry : HistoryEntry) : list (ascii * ascii) :=
  zip (lower (default [] (guess entry))) (lower (default [] (feedback entry))).

(** The same request with another history. *)
Definition with_history (data : Request) (h : list HistoryEntry) : Request :=
  {| config := config data; history := Some h |}.

(** A history entry with its guess and feedback in lower case. *)
Definition lower_entry (entry : HistoryEntry) : HistoryEntry :=
  {| guess := lower <$> guess entry; feedback := lower <$> feedback entry |}.

(** *** Sample data *)

Definition crane_pool : list (list ascii) :=
  [py "crane"; py "slate"; py "place"; py "grape"].

Definition crane_feedback : list (ascii * Symbol) :=
  [("c"%char, Absent); ("r"%char, Absent); ("a"%char, Correct);
   ("n"%char, Absent); ("e"%char, Correct)].

Definition five_words (_ : string) : result (list (list ascii)) :=
  Ok [py "apple"; py "crane"; py "slate"; py "audio"; py "house"].

Definition default_config : Config :=
  {| wordLength := None; prefix := None; dictionary := None |}.

Definition short_feedback_request : Request :=
  {| config := Some default_config;
     history := Some [ {| guess := Some (py "crane");
                          feedback := Some (py "bbgb") |} ] |}.

Definition twelve_words : list (list ascii) :=
  [py "cat"; py "bat"; py "rat"; py "hat"; py "mat"; py "sat"; py "pat";
   py "fat"; py "vat"; py "eat"; py "oat"; py "tab"].

Definition three_letter_request : Request :=
  {| config := Some {| wordLength := Some (JInt 3); prefix := None;
                       dictionary := None |};
     history := Some [ {| guess := Some (py "dig");
                          feedback := Some (py "BBB") |} ] |}.

(** * Properties *)

(** ** The result monad *)

Lemma bind_Ok {A B : Type} (a : A) (f : A → result B) : (Ok a ≫= f) = f a.
Proof. reflexivity. Qed.

Lemma getitem_lookup `{Countable K} {V : Type} (d : gmap K V) (k : K) (v : V) :
  d !! k = Some v → getitem d k = Ok v.
Proof. unfold getitem. by intros ->. Qed.

Lemma filter_all {A : Type} (P : A → Prop) `{!∀ x, Decision (P x)} (l : list A) :
  Forall P l → filter P l = l.
Proof.
  induction 1 as [|x l HP _ IH]; [done|].
  by rewrite filter_cons_True, IH.
Qed.

Lemma filterM_sublist {A : Type} (p : A → result bool) (l out : list A) :
  filterM p l = Ok out → out `sublist_of` l.
Proof.
  revert out. induction l as [|x l IH]; intros out; simpl.
  - by intros [= <-].
  - destruct (p x) as [b|e]; simpl; [|done].
    destruct (filterM p l) as [rest|e]; simpl; [|done].
    intros [= <-]. destruct b.
    + by apply sublist_skip, IH.
    + by apply sublist_cons, IH.
Qed.

Lemma filterM_Raise {A : Type} (p : A → result bool) (l : list A) (e : exn) :
  filterM p l = Raise e → ∃ x, x ∈ l ∧ p x = Raise e.
Proof.
  induction l as [|x l IH]; [done|]. cbn [filterM].
  destruct (p x) as [b|e'] eqn:Hx.
  - rewrite bind_Ok. destruct (filterM p l) as [rest|e'']; [done|].
    intros [= ->]. destruct IH as (y & Hy & Hpy); [done|].
    exists y. split; [by right|done].
  - intros [= ->]. exists x. split; [left|done].
Qed.

Lemma filterM_filter {A : Type} (p : A → result bool) (P : A → Prop)
    `{!∀ x, Decision (P x)} (l : list A) :
  (∀ x, x ∈ l → ∃ b : bool, p x = Ok b ∧ (b = true ↔ P x)) →
  filterM p l = Ok (filter P l).
Proof.
  induction l as [|x l IH]; intros Hp; [done|].
  simpl. destruct (Hp x) as (b & -> & Hb); [left|]. simpl.
  rewrite IH; [|intros y Hy; apply Hp; by right]. simpl.
  rewrite filter_cons. destruct b; case_decide as HP; try done.
  - exfalso. apply HP. by apply Hb.
  - exfalso. by apply Hb in HP.
Qed.

(** ** Candidate filter *)

Module FilterFacts.
Import Filter.

Lemma tally_snoc c seen L K s :
  tally c (seen ++ [(L, s)]) K
  = tally c seen K + (if decide ((L, s) = (K, c)) then 1 else 0).
Proof.
  unfold tally. rewrite filter_app, length_app. f_equal.
  rewrite filter_cons, filter_nil. by case_decide.
Qed.

Lemma tally_fresh c seen K : K ∉ seen.*1 → tally c seen K = 0.
Proof.
  intros HK. unfold tally. induction seen as [|[L s] seen IH]; [done|].
  rewrite filter_cons. case_decide as Heq.
  - exfalso. apply HK. injection Heq as -> ->. left.
  - apply IH. intros ?. apply HK. by right.
Qed.

Lemma count_step_inv cc pc seen L s :
  counts_inv cc pc seen →
  ∃ cc' pc', count_step (cc, pc) (L, s) = Ok (cc', pc')
             ∧ counts_inv cc' pc' (seen ++ [(L, s)]).
Proof.
  intros Hinv. unfold count_step.
  set (st := if decide (cc !! L = None)
             then (<[L:=0]> cc, <[L:=0]> pc) else (cc, pc)).
  assert (Hst : ∀ K,
    st.1 !! K = (if decide (K ∈ (seen ++ [(L, s)]).*1)
                 then Some (tally "g" seen K) else None)
    ∧ st.2 !! K = (if decide (K ∈ (seen ++ [(L, s)]).*1)
                   then Some (tally "y" seen K) else None)).
  { intros K. destruct (Hinv K) as [Hc Hp]. destruct (Hinv L) as [HcL _].
    rewrite fmap_app. subst st. simpl.
    destruct (decide (cc !! L = None)) as [Hnone|Hsome]; simpl.
    - assert (L ∉ seen.*1) as HL.
      { intros HL. rewrite decide_True in HcL by done. congruence. }
      destruct (decide (L = K)) as [->|Hne].
      + rewrite !lookup_insert_eq.
        rewrite !decide_True by set_solver.
        by rewrite !tally_fresh.
      + rewrite !lookup_insert_ne by done. rewrite Hc, Hp.
        destruct (decide (K ∈ seen.*1)).
        * by rewrite !decide_True by set_solver.
        * by rewrite !decide_False by set_solver.
    - assert (L ∈ seen.*1) as HL.
      { destruct (decide (L ∈ seen.*1)); [done|]. by rewrite HcL in Hsome. }
      rewrite Hc, Hp. destruct (decide (K ∈ seen.*1)).
      + by rewrite !decide_True by set_solver.
      + rewrite !decide_False; [done|set_solver..]. }
  clearbody st. destruct st as [cc1 pc1]. simpl in Hst.
  assert (HLin : L ∈ (seen ++ [(L, s)]).*1) by (rewrite fmap_app; set_solver).
  destruct (Hst L) as [HcL HpL]. rewrite decide_True in HcL, HpL by done.
  destruct (decide (s = "g"%char)) as [->|Hg].
  - rewrite (getitem_lookup _ _ _ HcL). simpl. eexists _, _. split; [done|].
    intros K. destruct (Hst K) as [Hc Hp]. rewrite !tally_snoc. split.
    + destruct (decide (L = K)) as [->|Hne].
      * rewrite lookup_insert_eq, decide_True by done.
        by rewrite !decide_True by done.
      * rewrite lookup_insert_ne, Hc by done. case_decide; [|done].
        rewrite !decide_False by congruence. f_equal. lia.
    + rewrite Hp. case_decide; [|done].
      rewrite !decide_False by congruence. f_equal. lia.
  - destruct (decide (s = "y"%char)) as [->|Hy].
    + rewrite (getitem_lookup _ _ _ HpL). simpl. eexists _, _. split; [done|].
      intros K. destruct (Hst K) as [Hc Hp]. rewrite !tally_snoc. split.
      * rewrite Hc. case_decide; [|done].
        rewrite !decide_False by congruence. f_equal. lia.
      * destruct (decide (L = K)) as [->|Hne].
        -- rewrite lookup_insert_eq, decide_True by done.
           by rewrite !decide_True by done.
        -- rewrite lookup_insert_ne, Hp by done. case_decide; [|done].
           rewrite !decide_False by congruence. f_equal. lia.
    + eexists _, _. split; [done|].
      intros K. destruct (Hst K) as [Hc Hp]. rewrite !tally_snoc, Hc, Hp.
      split; (case_decide; [|done]);
        rewrite !decide_False by congruence; f_equal; lia.
Qed.

Lemma foldlM_count_step_inv gf cc pc seen :
  counts_inv cc pc seen →
  ∃ cc' pc', foldlM count_step (cc, pc) gf = Ok (cc', pc')
             ∧ counts_inv cc' pc' (seen ++ gf).
Proof.
  revert cc pc seen. induction gf as [|[L s] gf IH]; intros cc pc seen Hinv.
  - exists cc, pc. by rewrite app_nil_r.
  - destruct (count_step_inv cc pc seen L s Hinv) as (cc1 & pc1 & Hstep & Hinv1).
    destruct (IH _ _ _ Hinv1) as (cc2 & pc2 & Hfold & Hinv2).
    exists cc2, pc2. cbn [foldlM]. rewrite Hstep, bind_Ok.
    split; [done|]. by rewrite <- (assoc_L _ seen [_] gf) in Hinv2.
Qed.

(** The counting loop never raises, and leaves in each dict, for exactly the
    letters of the feedback, the number of their green (yellow) marks. *)
Lemma letter_counts_inv gf :
  ∃ cc pc, letter_counts gf = Ok (cc, pc) ∧ counts_inv cc pc gf.
Proof.
  apply (foldlM_count_step_inv gf ∅ ∅ []).
  intros K. by rewrite !lookup_empty.
Qed.

Lemma word_letter_counts_lookup word gf K :
  word_letter_counts word gf !! K
  = (if decide (K ∈ gf.*1) then Some (count word K) else None).
Proof.
  unfold word_letter_counts.
  enough (∀ d : gmap ascii nat,
    foldl (λ d entry, <[entry.1 := count word entry.1]> d) d gf !! K
    = (if decide (K ∈ gf.*1) then Some (count word K) else d !! K)) as H
    by (rewrite H; by rewrite lookup_empty).
  induction gf as [|[L s] gf IH]; intros d; cbn [foldl].
  - rewrite fmap_nil. by rewrite decide_False by set_solver.
  - rewrite fmap_cons, IH. cbn [fst]. destruct (decide (K ∈ gf.*1)).
    + by rewrite decide_True by set_solver.
    + destruct (decide (L = K)) as [->|Hne].
      * rewrite lookup_insert_eq. by rewrite decide_True by set_solver.
      * rewrite lookup_insert_ne by done. by rewrite decide_False by set_solver.
Qed.

Lemma contains_true word L : contains word L = true ↔ L ∈ word.
Proof. unfold contains. apply bool_decide_eq_true. Qed.

Lemma check_from_demand cc pc full word :
  counts_inv cc pc full →
  ∀ gf pre, full = pre ++ gf → length full ≤ length word →
    ∃ b : bool,
      check_from cc pc word (word_letter_counts word full) (length pre) gf = Ok b
      ∧ (b = true ↔
         ∀ j L s, gf !! j = Some (L, s) → demand full word (length pre + j) L s).
Proof.
  intros Hinv. induction gf as [|[L s] gf IH]; intros pre Hfull Hlen.
  - exists true. split; [done|]. split; [|done]. intros _ j L s. by rewrite lookup_nil.
  - assert (HL : L ∈ full.*1) by (subst full; rewrite fmap_app; set_solver).
    assert (Hwi : ∃ wi, word !! length pre = Some wi).
    { apply lookup_lt_is_Some. subst full. rewrite length_app in Hlen. simpl in Hlen. lia. }
    destruct Hwi as [wi Hwi].
    assert (Hwc := word_letter_counts_lookup word full L).
    destruct (Hinv L) as [Hcc Hpc]. rewrite decide_True in Hwc, Hcc, Hpc by done.
    destruct (IH (pre ++ [(L, s)])) as (b & Hb & Hiff);
      [by rewrite <- (assoc_L _ pre [_] gf)|done|].
    rewrite length_app in Hb, Hiff. simpl in Hb, Hiff.
    replace (length pre + 1) with (S (length pre)) in Hb, Hiff by lia.
    assert (Hrest : (∀ j K c, gf !! j = Some (K, c) →
                              demand full word (length pre + S j) K c)
                    ↔ b = true).
    { rewrite Hiff. split; intros H j K c Hj.
      - replace (S (length pre) + j) with (length pre + S j) by lia. eauto.
      - replace (length pre + S j) with (S (length pre) + j) by lia. eauto. }
    assert (Hhead : ∀ P : Prop,
      (P ↔ demand full word (length pre) L s) →
      ((P ∧ b = true) ↔
       ∀ j K c, ((L, s) :: gf) !! j = Some (K, c) →
                demand full word (length pre + j) K c)).
    { intros P HP. split.
      - intros [Hd Hbt] [|j] K c Hj; simpl in Hj.
        + injection Hj as <- <-. rewrite Nat.add_0_r. by apply HP.
        + by apply Hrest.
      - intros H. split.
        + apply HP. specialize (H 0 L s eq_refl). by rewrite Nat.add_0_r in H.
        + apply Hrest. intros j K c Hj. by apply (H (S j)). }
    cbn [check_from]. unfold index. rewrite Hwi.
    rewrite !(getitem_lookup _ _ _ Hwc), !(getitem_lookup _ _ _ Hcc),
      !(getitem_lookup _ _ _ Hpc). simpl.
    unfold demand in Hhead |- *.
    destruct (decide (s = "g"%char)) as [->|Hg].
    { destruct (decide (wi ≠ L)) as [Hne|Heq%dec_stable]; simpl.
      - exists false. split; [done|]. rewrite <- (Hhead False); [intuition congruence|].
        split; [done|]. intros [[? _] _]; [done|]. congruence.
      - subst wi. destruct (decide (count word L < tally "g" full L)).
        + exists false. split; [done|]. rewrite <- (Hhead False); [intuition congruence|].
          split; [done|]. intros [[_ ?] _]; [done|]. lia.
        + exists b. split; [done|]. rewrite <- (Hhead True); [intuition congruence|].
          split; [|done]. intros _. repeat split; try done; [lia..]. }
    destruct (decide (s = "y"%char)) as [->|Hy].
    { destruct (contains word L) eqn:Hin; simpl.
      - apply contains_true in Hin.
        destruct (decide (wi = L)) as [->|Hne].
        + exists false. split; [done|]. rewrite <- (Hhead False); [intuition congruence|].
          split; [done|]. intros (_ & [_ [? _]] & _); done.
        + destruct (decide (count word L ≤ tally "g" full L)).
          * exists false. split; [done|]. rewrite <- (Hhead False); [intuition congruence|].
            split; [done|]. intros (_ & [_ [_ ?]] & _); [done|]. lia.
          * exists b. split; [done|]. rewrite <- (Hhead True); [intuition congruence|].
            split; [|done]. intros _. repeat split; try done; [congruence|lia].
      - exists false. split; [done|]. rewrite <- (Hhead False); [intuition congruence|].
        split; [done|]. intros (_ & [Hc _] & _); [done|].
        apply contains_true in Hc. congruence. }
    destruct (decide (s = "b"%char)) as [->|Hb'].
    { destruct (contains word L) eqn:Hin; simpl.
      - apply contains_true in Hin.
        destruct (decide (tally "g" full L + tally "y" full L < count word L)).
        + exists false. split; [done|]. rewrite <- (Hhead False); [intuition congruence|].
          split; [done|]. intros (_ & _ & Hc). specialize (Hc eq_refl Hin). lia.
        + exists b. split; [done|]. rewrite <- (Hhead True); [intuition congruence|].
          split; [|done]. intros _. repeat split; try done. intros _ _. lia.
      - exists b. split; [done|]. rewrite <- (Hhead True); [intuition congruence|].
        split; [|done]. intros _. repeat split; try done. intros _ Hc.
        apply contains_true in Hc. congruence. }
    exists b. split; [done|]. rewrite <- (Hhead True); [intuition congruence|].
    split; [|done]. intros _. repeat split; done.
Qed.

(** On any word at all, the only exception the loop can raise is the
    [IndexError] of [word[i]]: the three dicts have every letter asked for. *)
Lemma check_from_exn cc pc full word :
  counts_inv cc pc full →
  ∀ gf pre e, full = pre ++ gf →
    check_from cc pc word (word_letter_counts word full) (length pre) gf = Raise e →
    e = IndexError ∧ length word < length full.
Proof.
  intros Hinv. induction gf as [|[L s] gf IH]; intros pre e Hfull; [done|].
  assert (HL : L ∈ full.*1) by (subst full; rewrite fmap_app; set_solver).
  assert (Hwc := word_letter_counts_lookup word full L).
  destruct (Hinv L) as [Hcc Hpc]. rewrite decide_True in Hwc, Hcc, Hpc by done.
  assert (Hnext : check_from cc pc word (word_letter_counts word full)
                    (S (length pre)) gf = Raise e →
                  e = IndexError ∧ length word < length full).
  { intros H. apply (IH (pre ++ [(L, s)])).
    - by rewrite <- (assoc_L _ pre [_] gf).
    - rewrite length_app. simpl. by rewrite Nat.add_1_r. }
  assert (Hidx : ∀ k : ascii → result bool,
    (∀ wi, k wi = Raise e → e = IndexError ∧ length word < length full) →
    (index word (length pre) ≫= k) = Raise e →
    e = IndexError ∧ length word < length full).
  { intros k Hk. unfold index.
    destruct (word !! length pre) as [wi|] eqn:Hwi; [apply Hk|].
    intros [= <-]. split; [done|]. apply lookup_ge_None in Hwi.
    subst full. rewrite length_app. simpl. lia. }
  cbn [check_from].
  rewrite !(getitem_lookup _ _ _ Hwc), !(getitem_lookup _ _ _ Hcc),
    !(getitem_lookup _ _ _ Hpc), ?bind_Ok.
  repeat first
    [ done
    | exact Hnext
    | apply Hidx; intros wi
    | case_decide
    | match goal with
      | |- context [contains word L] => destruct (contains word L); cbn [negb]
      end ].
Qed.

Lemma is_word_possible_exn gf cc pc word e :
  letter_counts gf = Ok (cc, pc) →
  is_word_possible cc pc gf word = Raise e →
  e = IndexError ∧ length word < length gf.
Proof.
  intros Hcounts.
  destruct (letter_counts_inv gf) as (cc' & pc' & Hcounts' & Hinv).
  rewrite Hcounts in Hcounts'. injection Hcounts' as <- <-.
  apply (check_from_exn cc pc gf word Hinv gf [] e eq_refl).
Qed.

(** The verdict on one word, in terms of the loop's demands. *)
Lemma is_word_possible_demand gf cc pc word :
  letter_counts gf = Ok (cc, pc) →
  length gf ≤ length word →
  ∃ b : bool,
    is_word_possible cc pc gf word = Ok b
    ∧ (b = true ↔ ∀ j L s, gf !! j = Some (L, s) → demand gf word j L s).
Proof.
  intros Hcounts Hlen.
  destruct (letter_counts_inv gf) as (cc' & pc' & Hcounts' & Hinv).
  rewrite Hcounts in Hcounts'. injection Hcounts' as <- <-.
  apply (check_from_demand cc pc gf word Hinv gf [] eq_refl Hlen).
Qed.

(** *** From characters to typed symbols *)

Lemma symbol_char_inj s1 s2 : symbol_char s1 = symbol_char s2 → s1 = s2.
Proof. by destruct s1, s2. Qed.

Lemma tally_encode fb L s :
  tally (symbol_char s) (encode fb) L
  = length (filter (λ entry, entry = (L, s)) fb).
Proof.
  unfold tally, encode. induction fb as [|[K t] fb IH]; [done|].
  rewrite fmap_cons, !filter_cons. cbn [fst snd].
  destruct (decide ((K, t) = (L, s))) as [[= -> ->]|Hne].
  - rewrite decide_True by done. simpl. by rewrite IH.
  - rewrite decide_False; [done|].
    intros [= -> Hs]. apply symbol_char_inj in Hs. congruence.
Qed.

Lemma encode_lookup fb j L c :
  encode fb !! j = Some (L, c) ↔ ∃ s, fb !! j = Some (L, s) ∧ c = symbol_char s.
Proof.
  unfold encode. rewrite list_lookup_fmap. destruct (fb !! j) as [[K t]|]; simpl.
  - split.
    + intros [= -> <-]. by exists t.
    + intros (s & [= -> ->] & ->). done.
  - split; [done|]. by intros (? & ? & _).
Qed.

Lemma demand_encode fb word :
  (∀ j L c, encode fb !! j = Some (L, c) → demand (encode fb) word j L c)
  ↔ retained fb word.
Proof.
  unfold retained, demand, correctCount, presentCount, occurrences. split.
  - intros H i L s Hi.
    destruct (H i L (symbol_char s)) as (Hg & Hy & Hb);
      [apply encode_lookup; eauto|].
    rewrite <- !(tally_encode fb L Correct), <- !(tally_encode fb L Present).
    destruct s; simpl in *; eauto.
  - intros H j L c (s & Hj & ->)%encode_lookup. specialize (H j L s Hj).
    rewrite <- !(tally_encode fb L Correct), <- !(tally_encode fb L Present) in H.
    destruct s; simpl in *; (split; [|split]); intros Hs; done.
Qed.

Lemma retained_Forall fb word :
  retained fb word ↔ Forall (entry_ok fb word) (imap pair fb).
Proof.
  rewrite Forall_lookup. unfold retained, entry_ok. split.
  - intros H i [j [L s]]. rewrite list_lookup_imap.
    destruct (fb !! i) as [[K t]|] eqn:Hi; simpl; [|done].
    intros [= <- <- <-]. by apply (H i K t).
  - intros H i L s Hi. apply (H i (i, (L, s))).
    by rewrite list_lookup_imap, Hi.
Qed.

Global Instance retained_dec fb word : Decision (retained fb word).
Proof.
  refine (cast_if (decide (Forall (entry_ok fb word) (imap pair fb))));
    by rewrite retained_Forall.
Defined.

(** The filter on well-sized input, whatever procedure decides [retained]. *)
Lemma filter_possible_words_filter (word_list : list (list ascii))
    (fb : list (ascii * Symbol)) `{!∀ word, Decision (retained fb word)} :
  Forall (λ word, length fb ≤ length word) word_list →
  filter_possible_words word_list (encode fb)
  = Ok (filter (retained fb) word_list).
Proof.
  intros Hlen. unfold filter_possible_words.
  destruct (encode fb) as [|e gf] eqn:Henc.
  - f_equal. symmetry. apply filter_all, Forall_forall.
    destruct fb; [|done]. intros word _ i L s. by rewrite lookup_nil.
  - rewrite <- Henc.
    destruct (letter_counts_inv (encode fb)) as (cc & pc & Hcounts & _).
    rewrite Hcounts, bind_Ok. cbn [fst snd].
    apply filterM_filter. intros word Hword.
    rewrite Forall_forall in Hlen. specialize (Hlen word Hword).
    destruct (is_word_possible_demand (encode fb) cc pc word Hcounts)
      as (b & Hb & Hiff).
    { unfold encode. by rewrite length_fmap. }
    exists b. split; [done|]. by rewrite Hiff, demand_encode.
Qed.

End FilterFacts.

(** The filter raises only when a word is shorter than the feedback. *)
Lemma filter_possible_words_Raise word_list gf e :
  Filter.filter_possible_words word_list gf = Raise e →
  e = IndexError ∧ ∃ word, word ∈ word_list ∧ length word < length gf.
Proof.
  unfold Filter.filter_possible_words. destruct gf as [|entry gf]; [done|].
  destruct (FilterFacts.letter_counts_inv (entry :: gf)) as (cc & pc & Hcounts & _).
  rewrite Hcounts, bind_Ok. cbn [fst snd].
  intros (word & Hword & Hraise)%filterM_Raise.
  apply (FilterFacts.is_word_possible_exn _ _ _ _ _ Hcounts) in Hraise as [-> Hlt].
  eauto.
Qed.

Lemma filter_possible_words_total word_list gf :
  Forall (λ word, length gf ≤ length word) word_list →
  ∃ out, Filter.filter_possible_words word_list gf = Ok out
         ∧ out `sublist_of` word_list.
Proof.
  intros Hlen.
  destruct (Filter.filter_possible_words word_list gf) as [out|e] eqn:Hf.
  - exists out. split; [done|]. unfold Filter.filter_possible_words in Hf.
    destruct gf; [by injection Hf as ->|].
    destruct (Filter.letter_counts _); [|done].
    rewrite bind_Ok in Hf. by eapply filterM_sublist.
  - apply filter_possible_words_Raise in Hf as (_ & word & Hword & Hlt).
    rewrite Forall_forall in Hlen. specialize (Hlen word Hword). lia.
Qed.

(** C1: on a word list whose words have the length of the feedback, the
    candidate filter returns (without raising) exactly the words that meet,
    at every feedback position, the condition of that position's symbol:
    Correct pins the letter and needs at least [correctCount] occurrences,
    Present needs the letter elsewhere and more than [correctCount]
    occurrences, Absent caps the occurrences at
    [correctCount + presentCount] when the letter occurs. *)
Theorem filter_possible_words_retained (word_list : list (list ascii))
    (fb : list (ascii * Symbol)) :
  Forall (λ word, length word = length fb) word_list →
  ∃ out,
    Filter.filter_possible_words word_list (encode fb) = Ok out
    ∧ out = filter (retained fb) word_list
    ∧ ∀ word, word ∈ out ↔ word ∈ word_list ∧ retained fb word.
Proof.
  intros Hlen. exists (filter (retained fb) word_list). split; [|split; [done|]].
  - apply FilterFacts.filter_possible_words_filter.
    eapply Forall_impl; [exact Hlen|]. intros word Hw. simpl in Hw. lia.
  - intros word. rewrite list_elem_of_filter. tauto.
Qed.

Lemma filter_possible_words_retained_witness :
  Forall (λ word, length word = length crane_feedback) crane_pool
  ∧ ∃ out,
      Filter.filter_possible_words crane_pool (encode crane_feedback) = Ok out
      ∧ out = filter (retained crane_feedback) crane_pool
      ∧ ∀ word, word ∈ out ↔ word ∈ crane_pool ∧ retained crane_feedback word.
Proof.
  assert (H : Forall (λ word, length word = length crane_feedback) crane_pool).
  { repeat constructor. }
  split; [exact H|].
  exact (filter_possible_words_retained crane_pool crane_feedback H).
Defined.

(** Repeated letters: the guess assss against the hidden word sassy is
    marked y,y,g,g,b; sassy is kept, gassy (one s too few for the yellow) and
    asses (a at the yellow position) are dropped. *)
Example filter_possible_words_sassy :
  Filter.filter_possible_words [py "sassy"; py "gassy"; py "asses"]
    (zip (py "assss") (py "yyggb"))
  = Ok [py "sassy"].
Proof. vm_compute. reflexivity. Qed.

(** C2 (as stated, refuted): on the pool crane, slate, place, grape and the
    feedback b,b,g,b,g for the guess crane, the filter does not return
    slate and place. *)
Lemma crane_scenario_not_slate_place :
  Filter.filter_possible_words crane_pool
    (zip (py "crane") (py "bbgbg"))
  ≠ Ok [py "slate"; py "place"].
Proof. vm_compute. discriminate. Qed.

(** C2 (amended): on that pool and feedback the filter returns exactly
    slate; place is dropped because it contains the absent letter c. *)
Theorem crane_scenario_slate :
  Filter.filter_possible_words crane_pool
    (zip (py "crane") (py "bbgbg"))
  = Ok [py "slate"]
  ∧ zip (py "crane") (py "bbgbg") = encode crane_feedback
  ∧ ¬ retained crane_feedback (py "place").
Proof.
  split; [by vm_compute|]. split; [done|].
  intros H. specialize (H 0 "c"%char Absent eq_refl). cbn beta iota in H.
  assert (Hin : "c"%char ∈ py "place") by (apply list_elem_of_In; simpl; tauto).
  specialize (H Hin). vm_compute in H. lia.
Qed.

(** C3 (as stated, refuted): the filter itself validates nothing.  A
    feedback shorter than the word and symbols outside g, y, b are accepted
    and the word is kept; a feedback longer than the word surfaces as the
    [IndexError] of an indexing, not as a validation error. *)
Lemma filter_possible_words_no_validation :
  Filter.filter_possible_words [py "crane"] [("c"%char, "g"%char)]
  = Ok [py "crane"]
  ∧ Filter.filter_possible_words [py "crane"] (zip (py "crane") (py "gxxxx"))
    = Ok [py "crane"]
  ∧ Filter.filter_possible_words [py "cr"] (zip (py "crane") (py "ggggg"))
    = Raise IndexError.
Proof. by vm_compute. Qed.

(** C4: whatever the word list and the feedback, a result of the filter is
    a sublist of the word list (same words, same relative order), hence no
    longer than it; the only other outcome is the [IndexError] raised on a
    word shorter than the feedback. *)
Theorem filter_possible_words_shrinks (word_list : list (list ascii))
    (gf : list (ascii * ascii)) :
  match Filter.filter_possible_words word_list gf with
  | Ok out =>
      out `sublist_of` word_list
      ∧ out ⊆ word_list
      ∧ length out ≤ length word_list
  | Raise e =>
      e = IndexError ∧ ∃ word, word ∈ word_list ∧ length word < length gf
  end.
Proof.
  destruct (Filter.filter_possible_words word_list gf) as [out|e] eqn:Hf.
  - assert (Hsub : out `sublist_of` word_list).
    { unfold Filter.filter_possible_words in Hf.
      destruct gf; [by injection Hf as ->|].
      destruct (Filter.letter_counts _); [|done].
      rewrite bind_Ok in Hf. by eapply filterM_sublist. }
    split; [done|]. split; [by apply sublist_subseteq|by apply sublist_length].
  - by apply filter_possible_words_Raise.
Qed.

(** ** The stable descending sort *)

Section sort_desc_facts.
Context {A : Type} (lt : A → A → bool).

Lemma insert_desc_Permutation (x : A) (l : list A) :
  insert_desc lt x l ≡ₚ x :: l.
Proof.
  induction l as [|y l IH]; [done|]. cbn [insert_desc].
  destruct (lt x y); [|done]. rewrite IH. apply Permutation_swap.
Qed.

Lemma sort_desc_Permutation (l : list A) : sort_desc lt l ≡ₚ l.
Proof.
  induction l as [|x l IH]; [done|]. unfold sort_desc. cbn [foldr].
  rewrite insert_desc_Permutation. by constructor.
Qed.

Lemma sort_desc_length (l : list A) : length (sort_desc lt l) = length l.
Proof. apply Permutation_length, sort_desc_Permutation. Qed.

(** Stability: the elements of any class of pairwise ties come out in the
    order they went in. *)
Lemma insert_desc_filter (P : A → Prop) `{!∀ a, Decision (P a)} (x : A)
    (l : list A) :
  (∀ a b, P a → P b → lt a b = false) →
  filter P (insert_desc lt x l) = filter P (x :: l).
Proof.
  intros Hties. induction l as [|y l IH]; [done|]. cbn [insert_desc].
  destruct (lt x y) eqn:Hxy; [|done].
  rewrite filter_cons, IH, !filter_cons.
  destruct (decide (P y)) as [Hy|Hy], (decide (P x)) as [Hx|Hx]; try done.
  rewrite Hties in Hxy by done. done.
Qed.

Lemma sort_desc_stable (P : A → Prop) `{!∀ a, Decision (P a)} (l : list A) :
  (∀ a b, P a → P b → lt a b = false) →
  filter P (sort_desc lt l) = filter P l.
Proof.
  intros Hties. induction l as [|x l IH]; [done|].
  unfold sort_desc. cbn [foldr]. rewrite insert_desc_filter by done.
  rewrite !filter_cons. fold (sort_desc lt l). by rewrite IH.
Qed.

(** Sortedness, for an order in which "not less" is transitive. *)
Hypothesis lt_asym : ∀ a b, lt a b = true → lt b a = false.
Hypothesis ge_trans : ∀ a b c, lt a b = false → lt b c = false → lt a c = false.

Lemma insert_desc_sorted (x : A) (l : list A) :
  StronglySorted (λ a b, lt a b = false) l →
  StronglySorted (λ a b, lt a b = false) (insert_desc lt x l).
Proof.
  induction 1 as [|y l Hl IH Hy]; cbn [insert_desc].
  - repeat constructor.
  - destruct (lt x y) eqn:Hxy.
    + constructor; [done|].
      rewrite insert_desc_Permutation. constructor; [by apply lt_asym|done].
    + constructor; [by constructor|]. constructor; [done|].
      eapply Forall_impl; [exact Hy|]. intros z Hz. by eapply ge_trans.
Qed.

Lemma sort_desc_sorted (l : list A) :
  StronglySorted (λ a b, lt a b = false) (sort_desc lt l).
Proof.
  induction l as [|x l IH]; [constructor|].
  unfold sort_desc. cbn [foldr]. by apply insert_desc_sorted.
Qed.

End sort_desc_facts.

(** The slice [l[:n]]. *)
Lemma slice_to_prefix {A : Type} (l : list A) (n : Z) : slice_to l n `prefix_of` l.
Proof. unfold slice_to. case_decide; apply prefix_take. Qed.

Lemma slice_to_nil {A : Type} (n : Z) : slice_to (@nil A) n = [].
Proof. unfold slice_to. case_decide; apply take_nil. Qed.

Lemma slice_to_length_any {A : Type} (l : list A) (n : Z) :
  length (slice_to l n)
  = if decide (0 ≤ n)%Z then Z.to_nat n `min` length l
    else length l - Z.to_nat (- n).
Proof. unfold slice_to. case_decide; rewrite length_take; lia. Qed.

Lemma slice_to_length {A : Type} (l : list A) (n : Z) :
  (0 ≤ n)%Z → length (slice_to l n) = Z.to_nat n `min` length l.
Proof. intros Hn. by rewrite slice_to_length_any, decide_True. Qed.

Lemma prefix_filter {A : Type} (P : A → Prop) `{!∀ a, Decision (P a)}
    (l1 l2 : list A) :
  l1 `prefix_of` l2 → filter P l1 `prefix_of` filter P l2.
Proof. intros [k ->]. rewrite filter_app. by apply prefix_app_r. Qed.

Lemma prefix_StronglySorted {A : Type} (R : A → A → Prop) (l1 l2 : list A) :
  l1 `prefix_of` l2 → StronglySorted R l2 → StronglySorted R l1.
Proof.
  intros [k ->]. induction l1 as [|x l1 IH]; [constructor|].
  simpl. intros [Hs Hx]%StronglySorted_inv. constructor; [by apply IH|].
  rewrite Forall_app in Hx. tauto.
Qed.

Lemma StronglySorted_weaken {A : Type} (R1 R2 : A → A → Prop) (l : list A) :
  (∀ a b, R1 a b → R2 a b) → StronglySorted R1 l → StronglySorted R2 l.
Proof.
  intros HR. induction 1 as [|x l _ IH Hx]; constructor; [done|].
  eapply Forall_impl; [exact Hx|]. intros b. apply HR.
Qed.

(** Comparison of rational keys. *)
Lemma Qltb_false (x y : Q) : Qltb x y = false ↔ (y <= x)%Q.
Proof.
  unfold Qltb. destruct (Qcompare_spec x y) as [Heq|Hlt|Hgt].
  - split; [intros _|done]. rewrite Heq. apply Qle_refl.
  - split; [done|]. intros Hle. exfalso. by eapply Qlt_not_le.
  - split; [intros _|done]. by apply Qlt_le_weak.
Qed.

Lemma Qltb_true (x y : Q) : Qltb x y = true ↔ (x < y)%Q.
Proof.
  destruct (Qltb x y) eqn:H.
  - split; [intros _|done]. apply Qnot_le_lt. intros Hle.
    apply Qltb_false in Hle. congruence.
  - split; [done|]. intros Hlt. apply Qltb_false in H.
    exfalso. by eapply Qlt_not_le.
Qed.

Global Instance Qeq_decision (x y : Q) : Decision (x == y)%Q := Qeq_dec x y.

Global Instance Qlt_decision (x y : Q) : Decision (x < y)%Q.
Proof.
  destruct (Qlt_le_dec x y) as [H|H]; [by left|right].
  intros H'. by eapply Qlt_not_le.
Defined.

Lemma Qltb_asym (x y : Q) : Qltb x y = true → Qltb y x = false.
Proof. rewrite Qltb_true, Qltb_false. apply Qlt_le_weak. Qed.

Lemma Qltb_ge_trans (x y z : Q) :
  Qltb x y = false → Qltb y z = false → Qltb x z = false.
Proof. rewrite !Qltb_false. intros H1 H2. by eapply Qle_trans. Qed.

(** What a sort followed by a slice returns, for any key order: a prefix of
    the sorted list, hence sorted, stable on ties, and ahead of everything
    that was cut off. *)
Section sort_slice.
Context {A : Type} (lt : A → A → bool).
Hypothesis lt_asym : ∀ a b, lt a b = true → lt b a = false.
Hypothesis ge_trans : ∀ a b c, lt a b = false → lt b c = false → lt a c = false.

Lemma sort_slice_sorted (l : list A) (n : Z) :
  StronglySorted (λ a b, lt a b = false) (slice_to (sort_desc lt l) n).
Proof.
  eapply prefix_StronglySorted; [apply slice_to_prefix|].
  by apply sort_desc_sorted.
Qed.

Lemma sort_slice_stable (P : A → Prop) `{!∀ a, Decision (P a)} (l : list A)
    (n : Z) :
  (∀ a b, P a → P b → lt a b = false) →
  filter P (slice_to (sort_desc lt l) n) `prefix_of` filter P l.
Proof.
  intros Hties. rewrite <- (sort_desc_stable lt P l Hties).
  apply prefix_filter, slice_to_prefix.
Qed.

Lemma sort_slice_top (l : list A) (n : Z) :
  ∃ rest, slice_to (sort_desc lt l) n ++ rest ≡ₚ l
          ∧ ∀ a b, a ∈ slice_to (sort_desc lt l) n → b ∈ rest → lt a b = false.
Proof.
  destruct (slice_to_prefix (sort_desc lt l) n) as [rest Hrest].
  exists rest. split.
  - rewrite <- Hrest. apply sort_desc_Permutation.
  - intros a b Ha Hb.
    eapply (StronglySorted_app_1_elem_of (λ a b, lt a b = false)); [|done..].
    rewrite <- Hrest. by apply sort_desc_sorted.
Qed.

End sort_slice.

(** ** Recommender *)

(** C7 (as stated, refuted): the bound [min(topN, filteredPoolSize)] fails
    for a negative [topN], where the slice [[:n]] drops from the end: three
    one-letter words and [n = -1] give two recommendations. *)
Lemma recommend_guesses_negative_topN :
  let pool := [py "a"; py "b"; py "c"] in
  let filtered :=
    filter (λ word, matches_length_prefix 1 None word = true) pool in
  let out := recommend_guesses pool 1 None (-1) 1 None in
  length filtered = 3 ∧ length out = 2
  ∧ ¬ (Z.of_nat (length out) ≤ Z.min (-1) (Z.of_nat (length filtered)))%Z.
Proof. vm_compute. split; [done|]. split; [done|]. intros H. by apply H. Qed.

(** C7 (amended): for every pool, length, prefix, scoring basis and [topN],
    [recommend_guesses] returns the empty list when the length/prefix-filtered
    pool is empty; for [topN >= 0] it returns [min(topN, filteredPoolSize)]
    pairs (for a negative [topN], all but the last [-topN]); the pairs are
    filtered words with their scores, in descending order of score, tied
    pairs in the order they had in the filtered pool, and none scoring less
    than a pair that was left out. *)
Theorem recommend_guesses_contract (word_list : list (list ascii)) (len : Z)
    (prefix : option (list ascii)) (n guess_count : Z)
    (score_base_word_list : option (list (list ascii))) :
  let filtered :=
    filter (λ word, matches_length_prefix len prefix word = true) word_list in
  let letter_scores :=
    normalize_letter_frequencies
      (calculate_letter_frequency (default word_list score_base_word_list)
         len prefix) in
  let scored :=
    (λ word, (word, calculate_guess_score word letter_scores guess_count))
    <$> filtered in
  let out :=
    recommend_guesses word_list len prefix n guess_count score_base_word_list in
  (filtered = [] → out = [])
  ∧ length out = (if decide (0 ≤ n)%Z then Z.to_nat n `min` length filtered
                  else length filtered - Z.to_nat (- n))
  ∧ StronglySorted (λ a b : list ascii * Q, (b.2 <= a.2)%Q) out
  ∧ (∀ s : Q, filter (λ e : list ascii * Q, (e.2 == s)%Q) out
              `prefix_of` filter (λ e : list ascii * Q, (e.2 == s)%Q) scored)
  ∧ ∃ rest, out ++ rest ≡ₚ scored
            ∧ ∀ a b, a ∈ out → b ∈ rest → (b.2 <= a.2)%Q.
Proof.
  intros filtered letter_scores scored out.
  set (lt := λ x y : list ascii * Q, Qltb x.2 y.2).
  assert (Hasym : ∀ a b, lt a b = true → lt b a = false)
    by (intros a b; apply Qltb_asym).
  assert (Htrans : ∀ a b c, lt a b = false → lt b c = false → lt a c = false)
    by (intros a b c; apply Qltb_ge_trans).
  assert (Hout : out = slice_to (sort_desc lt scored) n).
  { subst out scored letter_scores. unfold recommend_guesses.
    fold filtered. destruct filtered; [|done].
    simpl. by rewrite slice_to_nil. }
  split; [|split; [|split; [|split]]].
  - intros Hnil. rewrite Hout. subst scored. rewrite Hnil. simpl.
    apply slice_to_nil.
  - rewrite Hout, slice_to_length_any, sort_desc_length.
    subst scored. by rewrite length_fmap.
  - rewrite Hout.
    eapply StronglySorted_weaken; [|by apply (sort_slice_sorted lt)].
    intros a b. apply Qltb_false.
  - intros s. rewrite Hout. apply (sort_slice_stable lt).
    intros a b Ha Hb. apply Qltb_false. rewrite Ha, Hb. apply Qle_refl.
  - rewrite Hout.
    destruct (sort_slice_top lt Hasym Htrans scored n) as (rest & Hperm & Htop).
    exists rest. split; [done|]. intros a b Ha Hb. by apply Qltb_false, Htop.
Qed.

Example recommend_guesses_top3 :
  (recommend_guesses
     [py "apple"; py "crane"; py "slate"; py "to"; py "audio"] 5 None 3 1 None).*1
  = [py "apple"; py "slate"; py "crane"].
Proof. vm_compute. reflexivity. Qed.

Example recommend_guesses_empty_pool :
  recommend_guesses [py "to"; py "be"] 5 None 9 1 None = [].
Proof. reflexivity. Qed.

(** ** Filler words *)

Lemma insert_desc_fmap {A B : Type} (g : A → B) (ltB : B → B → bool) (x : A)
    (l : list A) :
  insert_desc ltB (g x) (g <$> l)
  = g <$> insert_desc (λ a b, ltB (g a) (g b)) x l.
Proof.
  induction l as [|y l IH]; [done|]. cbn [insert_desc fmap list_fmap].
  destruct (ltB (g x) (g y)); [|done]. cbn [fmap list_fmap] in *. by rewrite IH.
Qed.

Lemma sort_desc_fmap {A B : Type} (g : A → B) (ltB : B → B → bool) (l : list A) :
  sort_desc ltB (g <$> l) = g <$> sort_desc (λ a b, ltB (g a) (g b)) l.
Proof.
  induction l as [|x l IH]; [done|]. unfold sort_desc in *.
  cbn [foldr fmap list_fmap] in *. rewrite IH. apply insert_desc_fmap.
Qed.

Lemma slice_to_fmap {A B : Type} (g : A → B) (l : list A) (n : Z) :
  slice_to (g <$> l) n = g <$> slice_to l n.
Proof. unfold slice_to. rewrite length_fmap. case_decide; by rewrite fmap_take. Qed.

Lemma existsb_elem_of {A : Type} (p : A → bool) (l : list A) :
  existsb p l = true ↔ ∃ x, x ∈ l ∧ p x = true.
Proof.
  rewrite existsb_exists. split; intros (x & Hx & Hp); exists x;
    (split; [by apply list_elem_of_In|done]).
Qed.

Lemma has_variable_letter_true variable_letters word :
  has_variable_letter variable_letters word = true
  ↔ ∃ letter, letter ∈ variable_letters ∧ letter ∈ word.
Proof.
  unfold has_variable_letter. rewrite existsb_elem_of.
  split; intros (letter & H1 & H2); exists letter.
  - split; [by apply elem_of_elements|by apply FilterFacts.contains_true].
  - split; [by apply elem_of_elements|by apply FilterFacts.contains_true].
Qed.

(** The score counts the variable letters that occur in the word, each
    once: it is the size of that set of letters. *)
Lemma filler_score_size variable_letters word :
  filler_score variable_letters word
  = size (filter (λ letter, letter ∈ word) variable_letters).
Proof.
  unfold filler_score, size, set_size. simpl.
  apply Permutation_length. apply NoDup_Permutation.
  - apply NoDup_filter, NoDup_elements.
  - apply NoDup_elements.
  - intros letter.
    rewrite list_elem_of_filter, !elem_of_elements, elem_of_filter.
    rewrite FilterFacts.contains_true. tauto.
Qed.

Lemma filler_candidates_elem_of dictionary word_length variable_letters word :
  word ∈ filler_candidates dictionary word_length variable_letters
  ↔ word ∈ dictionary
    ∧ Z.of_nat (length word) = word_length
    ∧ ∃ letter, letter ∈ variable_letters ∧ letter ∈ word.
Proof.
  unfold filler_candidates. rewrite list_elem_of_filter, andb_true_iff.
  rewrite bool_decide_eq_true, has_variable_letter_true. tauto.
Qed.

(** The pairs are only a device: the filler list is the word list sorted
    by score and cut at nine. *)
Lemma filler_words_sort dictionary word_length variable_letters :
  filler_words dictionary word_length variable_letters
  = slice_to
      (sort_desc (λ a b, filler_score variable_letters a
                         <? filler_score variable_letters b)
         (filler_candidates dictionary word_length variable_letters)) 9.
Proof.
  unfold filler_words, scored_fillers.
  rewrite sort_desc_fmap, slice_to_fmap, <- list_fmap_compose.
  cbn [snd]. apply list_fmap_id.
Qed.

Lemma filler_candidates_eligible dictionary word_length variable_letters :
  filler_candidates dictionary word_length variable_letters
  = filter (eligible_filler word_length variable_letters) dictionary.
Proof.
  unfold filler_candidates. apply list_filter_iff. intros word.
  rewrite andb_true_iff, bool_decide_eq_true, has_variable_letter_true. done.
Qed.

(** C9: the filler finder returns the top nine of the eligible words.  The
    eligible words are the words of the broad list that have the target
    length and contain at least one variable letter; a word's score is the
    number of distinct variable letters it contains.  Every returned word is
    an eligible word of the broad list; exactly [min(9, number of eligible
    words)] words are returned; they are in descending order of score, tied
    words in the order of the broad list, and no eligible word left out
    scores more than a word returned.  The handler's suggestions are taken
    from this list. *)
Theorem filler_words_contract (dictionary : list (list ascii))
    (word_length : Z) (variable_letters : gset ascii) :
  let score := distinct_variable_letters variable_letters in
  let eligible :=
    filter (eligible_filler word_length variable_letters) dictionary in
  let out := filler_words dictionary word_length variable_letters in
  (∀ word, word ∈ out →
     word ∈ dictionary
     ∧ Z.of_nat (length word) = word_length
     ∧ ∃ letter, letter ∈ variable_letters ∧ letter ∈ word)
  ∧ (∀ possible_words word,
       word ∈ filler_suggestions dictionary possible_words word_length
                variable_letters →
       word ∈ out)
  ∧ length out = 9 `min` length eligible
  ∧ StronglySorted (λ a b, score b ≤ score a) out
  ∧ (∀ k, filter (λ word, score word = k) out
          `prefix_of` filter (λ word, score word = k) eligible)
  ∧ ∃ rest, out ++ rest ≡ₚ eligible
            ∧ ∀ a b, a ∈ out → b ∈ rest → score b ≤ score a.
Proof.
  intros score eligible out.
  set (lt := λ a b : list ascii,
               filler_score variable_letters a <? filler_score variable_letters b).
  assert (Hscore : ∀ word, filler_score variable_letters word = score word)
    by apply filler_score_size.
  assert (Hasym : ∀ a b, lt a b = true → lt b a = false).
  { intros a b. unfold lt. rewrite Nat.ltb_lt, Nat.ltb_ge. lia. }
  assert (Htrans : ∀ a b c, lt a b = false → lt b c = false → lt a c = false).
  { intros a b c. unfold lt. rewrite !Nat.ltb_ge. lia. }
  assert (Hout : out = slice_to (sort_desc lt eligible) 9).
  { subst out eligible. rewrite filler_words_sort.
    by rewrite filler_candidates_eligible. }
  destruct (sort_slice_top lt Hasym Htrans eligible 9) as (rest & Hperm & Htop).
  rewrite <- Hout in Hperm, Htop.
  split; [|split; [|split; [|split; [|split]]]].
  - intros word Hword.
    assert (Hel : word ∈ eligible).
    { rewrite <- Hperm. apply elem_of_app. by left. }
    apply list_elem_of_filter in Hel as [[Hlen Hletter] Hdict]. done.
  - intros possible_words word. unfold filler_suggestions.
    destruct (_ && _); [done|]. by intros ?%elem_of_nil.
  - rewrite Hout, slice_to_length, sort_desc_length by done. done.
  - rewrite Hout.
    eapply StronglySorted_weaken; [|by apply (sort_slice_sorted lt)].
    intros a b. unfold lt. rewrite Nat.ltb_ge, !Hscore. done.
  - intros k. rewrite Hout.
    rewrite <- (list_filter_iff (λ word, filler_score variable_letters word = k)
                  (λ word, score word = k))
      by (intros word; by rewrite Hscore).
    rewrite <- (list_filter_iff (λ word, filler_score variable_letters word = k)
                  (λ word, score word = k) eligible)
      by (intros word; by rewrite Hscore).
    apply (sort_slice_stable lt).
    intros a b Ha Hb. unfold lt. rewrite Nat.ltb_ge. lia.
  - exists rest. split; [done|]. intros a b Ha Hb.
    specialize (Htop a b Ha Hb). unfold lt in Htop.
    rewrite Nat.ltb_ge, !Hscore in Htop. done.
Qed.

Example filler_words_eligible :
  filler_words [py "cat"; py "dog"; py "bat"; py "rats"; py "tab"; py "eel"] 3
    {["a"%char; "b"%char; "t"%char]}
  = [py "bat"; py "tab"; py "cat"]
  ∧ filter (eligible_filler 3 {["a"%char; "b"%char; "t"%char]})
      [py "cat"; py "dog"; py "bat"; py "rats"; py "tab"; py "eel"]
    = [py "cat"; py "bat"; py "tab"].
Proof. split; vm_compute; reflexivity. Qed.

(** The prototype's [find_words_with_letters], with the letters of the set
    given as a string and the default [n = 9], finds the same words. *)
Lemma find_words_with_letters_filler (target_word_length : Z)
    (word_list : list (list ascii)) (letters : list ascii) :
  find_words_with_letters target_word_length word_list letters 9
  = filler_words word_list target_word_length (list_to_set letters).
Proof.
  unfold find_words_with_letters, filler_words, scored_fillers.
  rewrite <- slice_to_fmap. f_equal. f_equal. f_equal.
  unfold filler_score. f_equal.
  unfold filler_candidates. apply list_filter_iff. intros word.
  rewrite !andb_true_iff, has_variable_letter_true, existsb_elem_of.
  rewrite bool_decide_eq_true.
  split.
  - intros [(letter & H1 & H2) H3]. split; [done|]. exists letter.
    split; [by apply elem_of_list_to_set|by apply FilterFacts.contains_true].
  - intros [H3 (letter & H1 & H2)]. split; [|done]. exists letter.
    rewrite elem_of_list_to_set in H1.
    split; [done|by apply FilterFacts.contains_true].
Qed.

(** ** Sums of rationals *)

Lemma foldl_Qplus (a : Q) (l : list Q) : (foldl Qplus a l == a + Qsum l)%Q.
Proof.
  unfold Qsum. revert a. induction l as [|x l IH]; intros a; cbn [foldl].
  - ring.
  - rewrite (IH (a + x)%Q), (IH (0 + x)%Q). ring.
Qed.

Lemma Qsum_nil : Qsum [] = 0%Q.
Proof. reflexivity. Qed.

Lemma Qsum_cons (x : Q) (l : list Q) : (Qsum (x :: l) == x + Qsum l)%Q.
Proof. unfold Qsum at 1. cbn [foldl]. rewrite foldl_Qplus. ring. Qed.

Lemma Qsum_Permutation (l1 l2 : list Q) : l1 ≡ₚ l2 → (Qsum l1 == Qsum l2)%Q.
Proof.
  induction 1 as [|x l1 l2 _ IH|x y l|l1 l2 l3 _ IH1 _ IH2].
  - reflexivity.
  - by rewrite !Qsum_cons, IH.
  - rewrite !Qsum_cons. ring.
  - by rewrite IH1.
Qed.

Lemma Qsum_ext {A : Type} (f g : A → Q) (l : list A) :
  (∀ x, x ∈ l → (f x == g x)%Q) → (Qsum (f <$> l) == Qsum (g <$> l))%Q.
Proof.
  induction l as [|x l IH]; intros Hfg; [reflexivity|].
  rewrite !fmap_cons, !Qsum_cons, IH.
  - rewrite (Hfg x) by left. reflexivity.
  - intros y Hy. apply Hfg. by right.
Qed.

Lemma Qsum_nonneg (l : list Q) : Forall (λ x, (0 <= x)%Q) l → (0 <= Qsum l)%Q.
Proof.
  induction 1 as [|x l Hx _ IH]; [apply Qle_refl|].
  rewrite Qsum_cons. replace 0%Q with (0 + 0)%Q by reflexivity.
  by apply Qplus_le_compat.
Qed.

Lemma Qsum_pos (l : list Q) (x : Q) :
  Forall (λ x, (0 <= x)%Q) l → x ∈ l → (0 < x)%Q → (0 < Qsum l)%Q.
Proof.
  intros Hl Hx Hpos. induction Hl as [|y l Hy Hl IH]; [by apply elem_of_nil in Hx|].
  rewrite Qsum_cons. apply elem_of_cons in Hx as [<-|Hx].
  - apply Qlt_le_trans with (x + 0)%Q; [by rewrite Qplus_0_r|].
    apply Qplus_le_compat; [apply Qle_refl|by apply Qsum_nonneg].
  - apply Qlt_le_trans with (0 + Qsum l)%Q; [rewrite Qplus_0_l; by apply IH|].
    apply Qplus_le_compat; [done|apply Qle_refl].
Qed.

Lemma Qsum_zero (l : list Q) : Forall (λ x, (x == 0)%Q) l → (Qsum l == 0)%Q.
Proof.
  induction 1 as [|x l Hx _ IH]; [reflexivity|].
  rewrite Qsum_cons, Hx, IH. reflexivity.
Qed.

Lemma Q_of_nat_add (m n : nat) : (Q_of_nat (m + n) == Q_of_nat m + Q_of_nat n)%Q.
Proof. unfold Q_of_nat. by rewrite Nat2Z.inj_add, inject_Z_plus. Qed.

Lemma Q_of_nat_pos (n : nat) : 0 < n → (0 < Q_of_nat n)%Q.
Proof.
  intros Hn. unfold Q_of_nat. change 0%Q with (inject_Z 0).
  rewrite <- Zlt_Qlt. lia.
Qed.

(** ** Frequency analyzer *)

Lemma sum_list_cons (n : nat) (l : list nat) : sum_list (n :: l) = n + sum_list l.
Proof. reflexivity. Qed.

Lemma counter_add_sum (c : ascii) (d : list (ascii * nat)) :
  sum_list (Dict.values (counter_add c d)) = S (sum_list (Dict.values d)).
Proof.
  unfold Dict.values. induction d as [|[k n] d IH]; [done|].
  cbn [counter_add]. case_decide; rewrite !fmap_cons, !sum_list_cons; cbn [snd].
  - lia.
  - rewrite IH. lia.
Qed.

(** The counts of a [Counter] add up to the number of letters counted. *)
Lemma Counter_sum (all_letters : list ascii) :
  sum_list (Dict.values (Counter all_letters)) = length all_letters.
Proof.
  unfold Counter.
  enough (∀ d, sum_list (Dict.values (foldl (λ d c, counter_add c d) d all_letters))
               = sum_list (Dict.values d) + length all_letters) as H
    by (by rewrite H).
  induction all_letters as [|c s IH]; intros d; cbn [foldl length]; [lia|].
  rewrite IH, counter_add_sum. lia.
Qed.

Lemma percentages_sum (counts : list nat) (total : nat) :
  0 < total →
  (Qsum ((λ n, Q_of_nat n / Q_of_nat total * 100) <$> counts)
   == Q_of_nat (sum_list counts) / Q_of_nat total * 100)%Q.
Proof.
  intros Htotal. apply Q_of_nat_pos in Htotal.
  assert (Hne : ¬ (Q_of_nat total == 0)%Q).
  { intros H. rewrite H in Htotal. by apply Qlt_irrefl in Htotal. }
  induction counts as [|n counts IH].
  - simpl. rewrite Qsum_nil. unfold Q_of_nat. simpl. field. done.
  - rewrite fmap_cons, Qsum_cons, IH, sum_list_cons, Q_of_nat_add. field. done.
Qed.

Lemma count_cons (c : ascii) (word : list ascii) (L : ascii) :
  count (c :: word) L = (if decide (c = L) then 1 else 0) + count word L.
Proof. unfold count. rewrite filter_cons. by case_decide. Qed.

Lemma count_pos (word : list ascii) (L : ascii) : L ∈ word ↔ 0 < count word L.
Proof.
  induction word as [|c word IH].
  - split; [by intros ?%elem_of_nil|]. unfold count. simpl. lia.
  - rewrite count_cons, elem_of_cons, IH. case_decide; [|split; [|lia]].
    + split; [lia|]. intros _. by left.
    + intros [->|?]; [done|lia].
Qed.

(** *** The entries of a [Counter] *)

Lemma counter_add_keys (c : ascii) (d : list (ascii * nat)) :
  (counter_add c d).*1 = if decide (c ∈ d.*1) then d.*1 else d.*1 ++ [c].
Proof.
  induction d as [|[k n] d IH]; [done|]. cbn [counter_add].
  rewrite !fmap_cons. cbn [fst]. destruct (decide (k = c)) as [->|Hne].
  - by rewrite decide_True by left.
  - rewrite fmap_cons, IH. cbn [fst]. destruct (decide (c ∈ d.*1)).
    + by rewrite decide_True by (by right).
    + by rewrite decide_False by (intros [?|?]%elem_of_cons; congruence).
Qed.

Lemma counter_add_NoDup (c : ascii) (d : list (ascii * nat)) :
  NoDup d.*1 → NoDup (counter_add c d).*1.
Proof.
  intros Hnd. rewrite counter_add_keys. case_decide; [done|].
  apply NoDup_app. split; [done|]. split; [|apply NoDup_singleton].
  intros x Hx ->%list_elem_of_singleton. done.
Qed.

Lemma counter_add_get (c : ascii) (d : list (ascii * nat)) (k : ascii) :
  Dict.get (counter_add c d) k
  = if decide (k = c) then Some (default 0 (Dict.get d k) + 1) else Dict.get d k.
Proof.
  induction d as [|[k' n] d IH]; cbn [counter_add Dict.get].
  - destruct (decide (c = k)) as [->|Hne].
    + by rewrite decide_True.
    + by rewrite decide_False by congruence.
  - destruct (decide (k' = c)) as [->|Hne]; cbn [Dict.get].
    + destruct (decide (c = k)) as [->|Hck].
      * by rewrite decide_True.
      * by rewrite decide_False by congruence.
    + destruct (decide (k' = k)) as [->|Hk]; [|exact IH].
      by rewrite decide_False.
Qed.

Lemma foldl_counter_add_get (s : list ascii) (d : list (ascii * nat)) (k : ascii) :
  Dict.get (foldl (λ d c, counter_add c d) d s) k
  = if decide (count s k = 0) then Dict.get d k
    else Some (default 0 (Dict.get d k) + count s k).
Proof.
  revert d. induction s as [|c s IH]; intros d; cbn [foldl]; [done|].
  rewrite IH, counter_add_get, count_cons.
  destruct (decide (c = k)) as [->|Hne].
  - rewrite (decide_True (P := k = k)) by done.
    rewrite (decide_False (P := 1 + count s k = 0)) by lia.
    case_decide as Hz; simpl; f_equal; [rewrite Hz|]; lia.
  - rewrite (decide_False (P := k = c)) by congruence. done.
Qed.

Lemma Counter_get (s : list ascii) (k : ascii) :
  Dict.get (Counter s) k = if decide (k ∈ s) then Some (count s k) else None.
Proof.
  unfold Counter. rewrite foldl_counter_add_get. cbn [Dict.get default].
  destruct (decide (k ∈ s)) as [Hin|Hin].
  - apply count_pos in Hin. by rewrite decide_False by lia.
  - rewrite count_pos in Hin. by rewrite decide_True by lia.
Qed.

Lemma Counter_NoDup (s : list ascii) : NoDup (Counter s).*1.
Proof.
  unfold Counter.
  enough (∀ d : list (ascii * nat), NoDup d.*1 →
            NoDup (foldl (λ d c, counter_add c d) d s).*1) as H
    by (apply H; constructor).
  induction s as [|c s IH]; intros d Hd; cbn [foldl]; [done|].
  by apply IH, counter_add_NoDup.
Qed.

Lemma Dict_get_elem_of {V : Type} (d : list (ascii * V)) (k : ascii) (v : V) :
  NoDup d.*1 → Dict.get d k = Some v ↔ (k, v) ∈ d.
Proof.
  induction d as [|[k' v'] d IH]; cbn [Dict.get].
  - intros _. split; [done|]. by intros ?%elem_of_nil.
  - rewrite fmap_cons, NoDup_cons, elem_of_cons. cbn [fst]. intros [Hk' Hnd].
    destruct (decide (k' = k)) as [->|Hne].
    + split; [intros [= ->]; by left|]. intros [[= ->]|Hin]; [done|].
      exfalso. apply Hk'. apply list_elem_of_fmap. by exists (k, v).
    + rewrite IH by done. split; [by right|]. intros [[= ? ?]|?]; [done|done].
Qed.

(** A letter is in the [Counter] exactly when it was counted, with its
    number of occurrences. *)
Lemma Counter_elem_of (s : list ascii) (k : ascii) (n : nat) :
  (k, n) ∈ Counter s ↔ k ∈ s ∧ n = count s k.
Proof.
  rewrite <- Dict_get_elem_of by apply Counter_NoDup. rewrite Counter_get.
  case_decide; [|by split; [|intros []]].
  split; [by intros [= <-]|by intros [_ ->]].
Qed.

Lemma fmap_drop_0 (l : list (list ascii)) : (λ word, drop 0 word) <$> l = l.
Proof. induction l as [|x l IH]; [done|]. by rewrite fmap_cons, IH. Qed.

Lemma calculate_letter_frequency_unfold word_list len prefix :
  calculate_letter_frequency word_list len prefix
  = let frequency := Counter (counted_letters word_list len prefix) in
    let total_letters := sum_list (Dict.values frequency) in
    if decide (total_letters = 0) then []
    else sort_desc (λ x y : ascii * Q, Qltb x.2 y.2)
           ((λ item : ascii * nat,
               (item.1, (Q_of_nat item.2 / Q_of_nat total_letters * 100)%Q))
            <$> frequency).
Proof.
  unfold calculate_letter_frequency, counted_letters.
  destruct (filter _ word_list) as [|w ws] eqn:Hf; [done|].
  destruct prefix as [[|c p]|]; cbn [default]; try done.
  - by rewrite fmap_drop_0.
  - by rewrite fmap_drop_0.
Qed.

(** C8: the frequency table is empty when the length/prefix-filtered basis
    is empty and when the filtered words have no letter left after the
    prefix (no division takes place); otherwise it has one entry per counted
    letter, holding that letter's share of the counted letters as a
    percentage, and the percentages add up to exactly 100. *)
Theorem calculate_letter_frequency_contract (word_list : list (list ascii))
    (len : Z) (prefix : option (list ascii)) :
  let filtered :=
    filter (λ word, matches_length_prefix len prefix word = true) word_list in
  let all_letters := counted_letters word_list len prefix in
  let table := calculate_letter_frequency word_list len prefix in
  (filtered = [] → table = [])
  ∧ (all_letters = [] → table = [])
  ∧ (all_letters ≠ [] →
     (Qsum (Dict.values table) == 100)%Q
     ∧ NoDup table.*1
     ∧ ∀ letter p,
         (letter, p) ∈ table
         ↔ letter ∈ all_letters
           ∧ p = (Q_of_nat (count all_letters letter)
                  / Q_of_nat (length all_letters) * 100)%Q).
Proof.
  intros filtered all_letters table. split; [|split].
  - intros Hnil. subst table. unfold calculate_letter_frequency.
    fold filtered. by rewrite Hnil.
  - intros Hnil. subst table. rewrite calculate_letter_frequency_unfold.
    fold all_letters. by rewrite Hnil.
  - intros Hne. subst table. rewrite calculate_letter_frequency_unfold.
    fold all_letters. cbv zeta. rewrite Counter_sum.
    assert (Hlen : 0 < length all_letters) by (destruct all_letters; [done|simpl; lia]).
    rewrite decide_False by lia.
    set (pf := (λ item : ascii * nat, _) <$> Counter all_letters).
    assert (Hperm := sort_desc_Permutation (λ x y : ascii * Q, Qltb x.2 y.2) pf).
    split; [|split].
    + etransitivity; [apply Qsum_Permutation, fmap_Permutation, Hperm|].
      transitivity (Qsum ((λ n, Q_of_nat n / Q_of_nat (length all_letters) * 100)%Q
                            <$> Dict.values (Counter all_letters))).
      * subst pf. unfold Dict.values. rewrite <- !list_fmap_compose. reflexivity.
      * rewrite percentages_sum, Counter_sum by done. field.
        intros H. apply Q_of_nat_pos in Hlen. rewrite H in Hlen.
        by apply Qlt_irrefl in Hlen.
    + rewrite Hperm. subst pf. rewrite <- list_fmap_compose.
      apply (Counter_NoDup all_letters).
    + intros letter p. rewrite Hperm. subst pf. rewrite list_elem_of_fmap. split.
      * intros ([k n] & [= -> ->] & [Hk ->]%Counter_elem_of). done.
      * intros [Hin ->]. exists (letter, count all_letters letter).
        split; [done|]. by apply Counter_elem_of.
Qed.

Example calculate_letter_frequency_a_b_a :
  calculate_letter_frequency [py "a"; py "b"; py "a"] 1 None
  = [("a"%char, (inject_Z 2 / inject_Z 3 * 100)%Q);
     ("b"%char, (inject_Z 1 / inject_Z 3 * 100)%Q)].
Proof. vm_compute. reflexivity. Qed.

Example calculate_letter_frequency_prefix_only :
  calculate_letter_frequency [py "ab"; py "ab"] 2 (Some (py "ab")) = [].
Proof. vm_compute. reflexivity. Qed.

(** ** Score normalizer *)

Lemma Qmaximum_spec (v0 : Q) (vs : list Q) :
  Qmaximum v0 vs ∈ v0 :: vs ∧ ∀ v, v ∈ v0 :: vs → (v <= Qmaximum v0 vs)%Q.
Proof.
  unfold Qmaximum. revert v0. induction vs as [|x vs IH]; intros v0; cbn [foldl].
  - split; [left|]. intros v ->%list_elem_of_singleton. apply Qle_refl.
  - destruct (IH (if Qltb v0 x then x else v0)) as [Hin Hge]. split.
    + apply elem_of_cons in Hin as [->|Hin].
      * destruct (Qltb v0 x); [right; left|left].
      * by do 2 right.
    + intros v Hv.
      assert (Hm : (v0 <= (if Qltb v0 x then x else v0))%Q
                   ∧ (x <= (if Qltb v0 x then x else v0))%Q).
      { destruct (Qltb v0 x) eqn:Hlt.
        - apply Qltb_true in Hlt. split; [by apply Qlt_le_weak|apply Qle_refl].
        - apply Qltb_false in Hlt. split; [apply Qle_refl|done]. }
      destruct Hm as [Hm0 Hmx].
      apply elem_of_cons in Hv as [->|[->|Hv]%elem_of_cons].
      * eapply Qle_trans; [exact Hm0|]. apply Hge. left.
      * eapply Qle_trans; [exact Hmx|]. apply Hge. left.
      * apply Hge. by right.
Qed.

Lemma Qminimum_spec (v0 : Q) (vs : list Q) :
  Qminimum v0 vs ∈ v0 :: vs ∧ ∀ v, v ∈ v0 :: vs → (Qminimum v0 vs <= v)%Q.
Proof.
  unfold Qminimum. revert v0. induction vs as [|x vs IH]; intros v0; cbn [foldl].
  - split; [left|]. intros v ->%list_elem_of_singleton. apply Qle_refl.
  - destruct (IH (if Qltb x v0 then x else v0)) as [Hin Hle]. split.
    + apply elem_of_cons in Hin as [->|Hin].
      * destruct (Qltb x v0); [right; left|left].
      * by do 2 right.
    + intros v Hv.
      assert (Hm : ((if Qltb x v0 then x else v0) <= v0)%Q
                   ∧ ((if Qltb x v0 then x else v0) <= x)%Q).
      { destruct (Qltb x v0) eqn:Hlt.
        - apply Qltb_true in Hlt. split; [by apply Qlt_le_weak|apply Qle_refl].
        - apply Qltb_false in Hlt. split; [apply Qle_refl|done]. }
      destruct Hm as [Hm0 Hmx].
      apply elem_of_cons in Hv as [->|[->|Hv]%elem_of_cons].
      * eapply Qle_trans; [|exact Hm0]. apply Hle. left.
      * eapply Qle_trans; [|exact Hmx]. apply Hle. left.
      * apply Hle. by right.
Qed.

(** The rescaling of one value between distinct bounds. *)
Lemma rescale_bounds (lo hi v : Q) :
  (lo < hi)%Q → (lo <= v)%Q → (v <= hi)%Q →
  (0 <= (v - lo) / (hi - lo) * 10 <= 10)%Q.
Proof.
  intros Hlt Hlo Hhi.
  assert (Hpos : (0 < hi - lo)%Q) by (rewrite <- (Qlt_minus_iff lo hi); done).
  assert (H0 : (0 <= (v - lo) / (hi - lo))%Q).
  { apply Qle_shift_div_l; [done|]. rewrite Qmult_0_l.
    by rewrite <- (Qle_minus_iff lo v). }
  assert (H1 : ((v - lo) / (hi - lo) <= 1)%Q).
  { apply Qle_shift_div_r; [done|]. rewrite Qmult_1_l.
    apply Qplus_le_compat; [done|apply Qle_refl]. }
  split.
  - apply Qmult_le_0_compat; [done|discriminate].
  - apply Qle_trans with (1 * 10)%Q; [|apply Qle_refl].
    apply Qmult_le_compat_r; [done|discriminate].
Qed.

Lemma rescale_denominator (lo hi : Q) : (lo < hi)%Q → ¬ (hi - lo == 0)%Q.
Proof.
  intros Hlt H.
  assert (Hpos : (0 < hi - lo)%Q) by (rewrite <- (Qlt_minus_iff lo hi); done).
  rewrite H in Hpos. by apply Qlt_irrefl in Hpos.
Qed.

Lemma rescale_hi (lo hi : Q) :
  (lo < hi)%Q → ((hi - lo) / (hi - lo) * 10 == 10)%Q.
Proof. intros Hlt. field. by apply rescale_denominator. Qed.

Lemma rescale_lo (lo hi : Q) :
  (lo < hi)%Q → ((lo - lo) / (hi - lo) * 10 == 0)%Q.
Proof. intros Hlt. field. by apply rescale_denominator. Qed.

Lemma normalize_letter_frequencies_cons (entry : ascii * Q)
    (rest : list (ascii * Q)) :
  let frequencies := entry :: rest in
  let max_freq := Qmaximum entry.2 (Dict.values rest) in
  let min_freq := Qminimum entry.2 (Dict.values rest) in
  normalize_letter_frequencies frequencies
  = if Qeq_bool max_freq min_freq
    then (λ item : ascii * Q, (item.1, 5%Q)) <$> frequencies
    else (λ item : ascii * Q,
            (item.1, ((item.2 - min_freq) / (max_freq - min_freq) * 10)%Q))
         <$> frequencies.
Proof. reflexivity. Qed.

(** C5: the empty table is mapped to the empty table; the letters are kept,
    in order; when all values are equal (minimum = maximum) every letter is
    mapped to 5; otherwise each value [v] is mapped to
    [(v - lo) / (hi - lo) * 10] for the least and greatest values [lo < hi]
    of the table, which lies in [0, 10], is 10 for a greatest value and 0 for
    a least one. *)
Theorem normalize_letter_frequencies_contract (frequencies : list (ascii * Q)) :
  let normalized := normalize_letter_frequencies frequencies in
  let values := Dict.values frequencies in
  normalize_letter_frequencies [] = []
  ∧ normalized.*1 = frequencies.*1
  ∧ ((∀ v w, v ∈ values → w ∈ values → (v == w)%Q) →
     ∀ i letter v, frequencies !! i = Some (letter, v) →
       normalized !! i = Some (letter, 5%Q))
  ∧ (¬ (∀ v w, v ∈ values → w ∈ values → (v == w)%Q) →
     ∃ lo hi,
       lo ∈ values ∧ hi ∈ values ∧ (lo < hi)%Q
       ∧ (∀ w, w ∈ values → (lo <= w <= hi)%Q)
       ∧ ∀ i letter v, frequencies !! i = Some (letter, v) →
           ∃ v', normalized !! i = Some (letter, v')
                 ∧ (v' == (v - lo) / (hi - lo) * 10)%Q
                 ∧ (0 <= v' <= 10)%Q
                 ∧ ((∀ w, w ∈ values → (w <= v)%Q) → (v' == 10)%Q)
                 ∧ ((∀ w, w ∈ values → (v <= w)%Q) → (v' == 0)%Q)).
Proof.
  intros normalized values. split; [done|].
  destruct frequencies as [|entry rest].
  { split; [done|]. split; [by intros _ i letter v|].
    intros H. exfalso. apply H. intros v w Hv. by apply elem_of_nil in Hv. }
  subst normalized. rewrite normalize_letter_frequencies_cons. cbv zeta.
  set (hi := Qmaximum entry.2 (Dict.values rest)).
  set (lo := Qminimum entry.2 (Dict.values rest)).
  destruct (Qmaximum_spec entry.2 (Dict.values rest)) as [Hhi_in Hhi].
  destruct (Qminimum_spec entry.2 (Dict.values rest)) as [Hlo_in Hlo].
  fold hi in Hhi_in, Hhi. fold lo in Hlo_in, Hlo.
  change (entry.2 :: Dict.values rest) with values in *.
  assert (Hle : (lo <= hi)%Q).
  { eapply Qle_trans; [apply (Hlo hi Hhi_in)|apply Qle_refl]. }
  destruct (Qeq_bool hi lo) eqn:Heq.
  - apply Qeq_bool_iff in Heq.
    assert (Hall : ∀ v w, v ∈ values → w ∈ values → (v == w)%Q).
    { intros v w Hv Hw.
      assert (Hv' : (v == lo)%Q).
      { apply Qle_antisym; [|by apply Hlo]. rewrite <- Heq. by apply Hhi. }
      assert (Hw' : (w == lo)%Q).
      { apply Qle_antisym; [|by apply Hlo]. rewrite <- Heq. by apply Hhi. }
      by rewrite Hv', Hw'. }
    split; [by rewrite <- list_fmap_compose|]. split; [|done].
    intros _ i letter v Hi. by rewrite list_lookup_fmap, Hi.
  - assert (Hne : ¬ (hi == lo)%Q).
    { intros H. apply Qeq_bool_iff in H. congruence. }
    assert (Hlt : (lo < hi)%Q).
    { apply Qnot_le_lt. intros H. apply Hne. by apply Qle_antisym. }
    split; [by rewrite <- list_fmap_compose|]. split.
    { intros Hall. exfalso. apply Hne. by apply Hall. }
    intros _. exists lo, hi. split; [done|]. split; [done|]. split; [done|].
    split; [intros w Hw; split; [by apply Hlo|by apply Hhi]|].
    intros i letter v Hi.
    assert (Hv : v ∈ values).
    { apply list_elem_of_fmap. exists (letter, v). split; [done|].
      by eapply list_elem_of_lookup_2. }
    eexists. split; [by rewrite list_lookup_fmap, Hi|]. cbn [fst snd].
    split; [reflexivity|]. split; [|split].
    + apply rescale_bounds; [done|by apply Hlo|by apply Hhi].
    + intros Hmax.
      assert (Hvhi : (v == hi)%Q).
      { apply Qle_antisym; [by apply Hhi|by apply Hmax]. }
      rewrite Hvhi. by apply rescale_hi.
    + intros Hmin.
      assert (Hvlo : (v == lo)%Q).
      { apply Qle_antisym; [by apply Hmin|by apply Hlo]. }
      rewrite Hvlo. by apply rescale_lo.
Qed.

Example normalize_letter_frequencies_20_10_5 :
  Forall2 (λ x y : ascii * Q, x.1 = y.1 ∧ (x.2 == y.2)%Q)
    (normalize_letter_frequencies
       [("a"%char, 20%Q); ("b"%char, 10%Q); ("c"%char, 5%Q)])
    [("a"%char, 10%Q); ("b"%char, (10 # 3)%Q); ("c"%char, 0%Q)].
Proof. repeat constructor. Qed.

Example normalize_letter_frequencies_identical :
  normalize_letter_frequencies
    [("a"%char, 10%Q); ("b"%char, 10%Q); ("c"%char, 10%Q)]
  = [("a"%char, 5%Q); ("b"%char, 5%Q); ("c"%char, 5%Q)].
Proof. reflexivity. Qed.

(** ** Guess scorer *)

Lemma Qlt_double (x : Q) : (0 < x)%Q → (x < 2 * x)%Q.
Proof.
  intros Hx. apply Qlt_le_trans with (x + x)%Q.
  - apply Qle_lt_trans with (x + 0)%Q; [rewrite Qplus_0_r; apply Qle_refl|].
    by apply Qplus_lt_r.
  - apply Qle_lteq. right. ring.
Qed.

Lemma Qsum_plus {A : Type} (g h : A → Q) (l : list A) :
  (Qsum ((λ x, g x + h x) <$> l) == Qsum (g <$> l) + Qsum (h <$> l))%Q.
Proof.
  induction l as [|x l IH]; [reflexivity|].
  rewrite !fmap_cons, !Qsum_cons, IH. ring.
Qed.

Lemma Qsum_le_ext {A : Type} (g h : A → Q) (l : list A) :
  (∀ x, x ∈ l → (g x <= h x)%Q) → (Qsum (g <$> l) <= Qsum (h <$> l))%Q.
Proof.
  induction l as [|x l IH]; intros Hgh; [apply Qle_refl|].
  rewrite !fmap_cons, !Qsum_cons. apply Qplus_le_compat.
  - apply Hgh. left.
  - apply IH. intros y Hy. apply Hgh. by right.
Qed.

Lemma Qsum_lt_ext {A : Type} (g h : A → Q) (l : list A) (x : A) :
  (∀ y, y ∈ l → (g y <= h y)%Q) → x ∈ l → (g x < h x)%Q →
  (Qsum (g <$> l) < Qsum (h <$> l))%Q.
Proof.
  intros Hgh Hx Hlt. induction l as [|y l IH]; [by apply elem_of_nil in Hx|].
  rewrite !fmap_cons, !Qsum_cons. apply elem_of_cons in Hx as [<-|Hx].
  - apply Qplus_lt_le_compat; [done|].
    apply Qsum_le_ext. intros z Hz. apply Hgh. by right.
  - rewrite (Qplus_comm (g y)), (Qplus_comm (h y)).
    apply Qplus_lt_le_compat; [|apply Hgh; left].
    apply IH; [|done]. intros z Hz. apply Hgh. by right.
Qed.

Lemma Qsum_indicator (f : ascii → Q) (c : ascii) (ls : list ascii) :
  NoDup ls →
  (Qsum ((λ L, Q_of_nat (if decide (c = L) then 1 else 0) * f L) <$> ls)
   == if decide (c ∈ ls) then f c else 0)%Q.
Proof.
  induction 1 as [|L ls HL _ IH]; [reflexivity|].
  rewrite fmap_cons, Qsum_cons, IH.
  destruct (decide (c = L)) as [->|Hne].
  - rewrite (decide_False (P := L ∈ ls)) by done.
    rewrite (decide_True (P := L ∈ L :: ls)) by left.
    unfold Q_of_nat. simpl. ring.
  - destruct (decide (c ∈ ls)).
    + rewrite (decide_True (P := c ∈ L :: ls)) by (by right).
      unfold Q_of_nat. simpl. ring.
    + rewrite (decide_False (P := c ∈ L :: ls))
        by (intros [?|?]%elem_of_cons; done).
      unfold Q_of_nat. simpl. ring.
Qed.

(** Summing over the occurrences is summing over the distinct letters,
    each weighted by its number of occurrences. *)
Lemma Qsum_count (f : ascii → Q) (word ls : list ascii) :
  NoDup ls → (∀ c, c ∈ word → c ∈ ls) →
  (Qsum (f <$> word)
   == Qsum ((λ L, Q_of_nat (count word L) * f L) <$> ls))%Q.
Proof.
  intros Hnd. induction word as [|c word IH]; intros Hcover.
  - symmetry. apply Qsum_zero, Forall_fmap, Forall_forall. intros L _.
    unfold compose, count. rewrite filter_nil. unfold Q_of_nat. simpl. ring.
  - rewrite fmap_cons, Qsum_cons, IH by (intros; apply Hcover; by right).
    rewrite (Qsum_ext (λ L, Q_of_nat (count (c :: word) L) * f L)%Q
               (λ L, Q_of_nat (if decide (c = L) then 1 else 0) * f L
                     + Q_of_nat (count word L) * f L)%Q).
    + rewrite Qsum_plus, Qsum_indicator by done.
      rewrite decide_True by (apply Hcover; left). reflexivity.
    + intros L _. rewrite count_cons, Q_of_nat_add. ring.
Qed.

Lemma get_default_nonneg (letter_scores : list (ascii * Q)) (letter : ascii) :
  Forall (λ entry, (0 <= entry.2)%Q) letter_scores →
  (0 <= Dict.get_default letter_scores letter 0)%Q.
Proof.
  unfold Dict.get_default.
  induction 1 as [|[k v] d Hv _ IH]; [apply Qle_refl|].
  cbn [Dict.get]. by case_decide.
Qed.

(** The two scores, as sums over the distinct letters of the word. *)
Lemma calculate_guess_score_distinct letter_scores word :
  calculate_guess_score word letter_scores 2
  = Qsum ((λ L, Dict.get_default letter_scores L 0%Q)
            <$> elements (list_to_set word : gset ascii)).
Proof. reflexivity. Qed.

Lemma calculate_guess_score_all letter_scores word :
  (calculate_guess_score word letter_scores 3
   == Qsum ((λ L, Q_of_nat (count word L) * Dict.get_default letter_scores L 0)
              <$> elements (list_to_set word : gset ascii)))%Q.
Proof.
  unfold calculate_guess_score. rewrite bool_decide_eq_true_2 by lia.
  apply (Qsum_count (λ L, Dict.get_default letter_scores L 0%Q)).
  - apply NoDup_elements.
  - intros c Hc. apply elem_of_elements. by apply elem_of_list_to_set.
Qed.

(** C6 (as stated, refuted): a repeated letter whose score is 0 adds
    nothing.  With the table computed from the basis aa, aa, bb, where b is
    the least frequent letter and is mapped to 0, the word bb scores the
    same at guess 2 and at guess 3. *)
Lemma calculate_guess_score_repeat_zero :
  let table :=
    normalize_letter_frequencies
      (calculate_letter_frequency [py "aa"; py "aa"; py "bb"] 2 None) in
  2 ≤ count (py "bb") "b"
  ∧ ¬ (calculate_guess_score (py "bb") table 2
       < calculate_guess_score (py "bb") table 3)%Q.
Proof.
  split; [vm_compute; lia|]. vm_compute. discriminate.
Qed.

(** The exact sums: for a table without negative values the sum over all
    letters is at least the sum over the distinct letters, and it is greater
    exactly when the word repeats a letter whose value is positive. *)
Lemma exact_sums_repeats (letter_scores : list (ascii * Q))
    (word : list ascii) :
  Forall (λ entry, (0 <= entry.2)%Q) letter_scores →
  (calculate_guess_score word letter_scores 2
   <= calculate_guess_score word letter_scores 3)%Q
  ∧ ((calculate_guess_score word letter_scores 2
      < calculate_guess_score word letter_scores 3)%Q
     ↔ ∃ L, 2 ≤ count word L ∧ (0 < Dict.get_default letter_scores L 0)%Q).
Proof.
  intros Hnonneg.
  rewrite calculate_guess_score_all, calculate_guess_score_distinct.
  set (f := λ L, Dict.get_default letter_scores L 0%Q).
  set (ls := elements (list_to_set word : gset ascii)).
  assert (Hf : ∀ L, (0 <= f L)%Q) by (intros L; by apply get_default_nonneg).
  assert (Hls : ∀ L, L ∈ ls → 1 ≤ count word L).
  { intros L HL. apply elem_of_elements, elem_of_list_to_set in HL.
    apply count_pos in HL. lia. }
  assert (Hterm : ∀ L, L ∈ ls → (f L <= Q_of_nat (count word L) * f L)%Q).
  { intros L HL. apply Hls in HL.
    apply Qle_trans with (1 * f L)%Q; [rewrite Qmult_1_l; apply Qle_refl|].
    apply Qmult_le_compat_r; [|done].
    unfold Q_of_nat. change 1%Q with (inject_Z 1). rewrite <- Zle_Qle. lia. }
  split; [by apply Qsum_le_ext|]. split.
  - intros Hlt.
    destruct (decide (Exists (λ L, 2 ≤ count word L ∧ (0 < f L)%Q) ls))
      as [Hex|Hnex].
    { apply Exists_exists in Hex as (L & _ & HL). by exists L. }
    exfalso. apply (Qlt_irrefl (Qsum (f <$> ls))).
    eapply Qlt_le_trans; [exact Hlt|]. apply Qle_lteq. right.
    apply Qsum_ext. intros L HL.
    rewrite <- Forall_Exists_neg, Forall_forall in Hnex.
    specialize (Hnex L HL). apply Hls in HL.
    change (Dict.get_default letter_scores L 0%Q) with (f L).
    destruct (decide (count word L = 1)) as [->|Hne].
    + unfold Q_of_nat. simpl. ring.
    + assert (Hz : (f L == 0)%Q).
      { apply Qle_antisym; [|done]. apply Qnot_lt_le. intros Hpos.
        apply Hnex. split; [lia|done]. }
      rewrite Hz. ring.
  - intros (L & Hcount & Hpos).
    assert (HL : L ∈ ls).
    { apply elem_of_elements, elem_of_list_to_set, count_pos. lia. }
    apply (Qsum_lt_ext _ _ _ L); [done..|].
    change (Dict.get_default letter_scores L 0%Q) with (f L) in *.
    apply Qlt_le_trans with (2 * f L)%Q; [by apply Qlt_double|].
    + apply Qmult_le_compat_r; [|done].
      unfold Q_of_nat. change 2%Q with (inject_Z 2). rewrite <- Zle_Qle. lia.
Qed.

Example calculate_guess_score_apple :
  calculate_guess_score (py "apple")
    [("a"%char, 10%Q); ("p"%char, 5%Q); ("l"%char, 3%Q); ("e"%char, 8%Q)] 1
  = 26%Q
  ∧ calculate_guess_score (py "apple")
      [("a"%char, 10%Q); ("p"%char, 5%Q); ("l"%char, 3%Q); ("e"%char, 8%Q)] 3
    = 31%Q.
Proof. split; vm_compute; reflexivity. Qed.

(** ** Replaying the history *)

Lemma forallb_Forall {A : Type} (p : A → bool) (l : list A) :
  forallb p l = true ↔ Forall (λ x, p x = true) l.
Proof.
  induction l as [|x l IH]; simpl.
  - split; [constructor|done].
  - rewrite andb_true_iff, IH, Forall_cons. tauto.
Qed.

Lemma lower_length (s : list ascii) : length (lower s) = length s.
Proof. unfold lower. apply length_fmap. Qed.

(** One entry: either it is well formed and the candidates are narrowed, or
    it is rejected with a [ValueError] and no filtering takes place. *)
Lemma apply_entry_cases (word_length : Z) (possible_words : list (list ascii))
    (entry : HistoryEntry) :
  Forall (λ word, Z.of_nat (length word) = word_length) possible_words →
  (well_formed_entry word_length entry
   ∧ ∃ possible_words',
       apply_entry word_length possible_words entry = Ok possible_words'
       ∧ possible_words' `sublist_of` possible_words)
  ∨ (¬ well_formed_entry word_length entry
     ∧ ∃ msg, apply_entry word_length possible_words entry
              = Raise (ValueError msg)).
Proof.
  intros Hlen. unfold apply_entry, well_formed_entry.
  destruct (guess entry) as [g|]; [|right; split; [|by eexists]];
    [|by intros (? & ? & ? & _)].
  destruct (feedback entry) as [f|]; [|right; split; [|by eexists]];
    [|by intros (? & ? & _ & ? & _)].
  rewrite !lower_length. case_decide as Hsize.
  { right. split; [|by eexists].
    intros (g' & f' & [= <-] & [= <-] & Hg & Hf & _). tauto. }
  destruct (forallb (contains (py "gyb")) (lower f)) eqn:Hchars; simpl.
  - left. assert (Hg : Z.of_nat (length g) = word_length).
    { destruct (decide (Z.of_nat (length g) = word_length)); [done|tauto]. }
    assert (Hf : Z.of_nat (length f) = word_length).
    { destruct (decide (Z.of_nat (length f) = word_length)); [done|tauto]. }
    split.
    + exists g, f. repeat split; try done.
      apply forallb_Forall in Hchars. eapply Forall_impl; [exact Hchars|].
      intros c. apply FilterFacts.contains_true.
    + apply filter_possible_words_total.
      eapply Forall_impl; [exact Hlen|]. intros word Hword. simpl in Hword.
      rewrite length_zip, !lower_length. lia.
  - right. split; [|by eexists].
    intros (g' & f' & [= <-] & [= <-] & _ & _ & Hall).
    assert (forallb (contains (py "gyb")) (lower f) = true); [|congruence].
    apply forallb_Forall. eapply Forall_impl; [exact Hall|].
    intros c. apply FilterFacts.contains_true.
Qed.

Lemma Forall_sublist {A : Type} (P : A → Prop) (l1 l2 : list A) :
  l1 `sublist_of` l2 → Forall P l2 → Forall P l1.
Proof.
  intros Hsub. rewrite !Forall_forall. intros H x Hx.
  apply H. by eapply sublist_subseteq.
Qed.

(** A history of well-formed entries is replayed to the end. *)
Lemma replay_well_formed (word_length : Z) (history : list HistoryEntry)
    (possible_words : list (list ascii)) :
  Forall (λ word, Z.of_nat (length word) = word_length) possible_words →
  Forall (well_formed_entry word_length) history →
  ∃ possible_words',
    foldlM (apply_entry word_length) possible_words history = Ok possible_words'
    ∧ possible_words' `sublist_of` possible_words.
Proof.
  revert possible_words.
  induction history as [|entry history IH]; intros possible_words Hlen Hwf.
  - by exists possible_words.
  - apply Forall_cons in Hwf as [Hentry Hwf]. cbn [foldlM].
    destruct (apply_entry_cases word_length possible_words entry Hlen)
      as [(_ & pw1 & -> & Hsub1)|[? _]]; [|done].
    rewrite bind_Ok.
    destruct (IH pw1) as (pw2 & Hfold & Hsub2); [by eapply Forall_sublist|done|].
    exists pw2. split; [done|]. by etrans.
Qed.

(** A history with a malformed entry is rejected with a [ValueError]. *)
Lemma replay_malformed (word_length : Z) (history : list HistoryEntry)
    (possible_words : list (list ascii)) :
  Forall (λ word, Z.of_nat (length word) = word_length) possible_words →
  Exists (λ entry, ¬ well_formed_entry word_length entry) history →
  ∃ msg, foldlM (apply_entry word_length) possible_words history
         = Raise (ValueError msg).
Proof.
  revert possible_words.
  induction history as [|entry history IH]; intros possible_words Hlen Hex.
  - by apply Exists_nil in Hex.
  - cbn [foldlM].
    destruct (apply_entry_cases word_length possible_words entry Hlen)
      as [(Hwf & pw1 & -> & Hsub1)|(_ & msg & ->)]; [|by exists msg].
    rewrite bind_Ok. apply Exists_cons in Hex as [?|Hex]; [done|].
    apply IH; [by eapply Forall_sublist|done].
Qed.

Lemma initial_words_length (dictionary : list (list ascii)) (word_length : Z)
    (prefix : option (list ascii)) :
  Forall (λ word, Z.of_nat (length word) = word_length)
    (filter (λ word, matches_length_prefix word_length prefix word = true)
       dictionary).
Proof.
  apply Forall_forall. intros word [Hm _]%list_elem_of_filter.
  unfold matches_length_prefix in Hm. apply andb_true_iff in Hm as [Hm _].
  by apply bool_decide_eq_true in Hm.
Qed.

(** ** The request handler *)

(** ** Variable positions *)

Lemma omap_ext_elem_of {A B : Type} (f g : A → option B) (l : list A) :
  (∀ x, x ∈ l → f x = g x) → omap f l = omap g l.
Proof.
  intros Hfg. apply list_omap_ext, Forall2_same_length_lookup.
  split; [done|]. intros i x y Hx Hy. rewrite Hx in Hy. injection Hy as <-.
  apply Hfg. by eapply list_elem_of_lookup_2.
Qed.

Lemma letters_at_snoc pos word_list word c :
  word !! pos = Some c →
  letters_at pos (word_list ++ [word]) = letters_at pos word_list ∪ {[c]}.
Proof.
  intros Hc. unfold letters_at. rewrite omap_app, list_to_set_app_L.
  simpl. rewrite Hc. simpl. by rewrite union_empty_r_L.
Qed.

Lemma init_positions_lookup (word_length i : nat) :
  (list_to_map ((λ i, (i, ∅)) <$> seq 0 word_length) : gmap nat (gset ascii)) !! i
  = (if decide (i < word_length) then Some ∅ else None).
Proof.
  assert (Hfst : ((λ i : nat, (i, (∅ : gset ascii))) <$> seq 0 word_length).*1
                 = seq 0 word_length).
  { rewrite <- list_fmap_compose. apply list_fmap_id. }
  case_decide as Hi.
  - apply elem_of_list_to_map_1.
    + rewrite Hfst. apply NoDup_seq.
    + apply list_elem_of_fmap. exists i. split; [done|].
      apply elem_of_seq. lia.
  - apply not_elem_of_list_to_map_1. rewrite Hfst, elem_of_seq. lia.
Qed.

Lemma add_letter_Ok (vp : gmap nat (gset ascii)) (k : nat) (c : ascii)
    (letters : gset ascii) :
  vp !! k = Some letters →
  add_letter vp (k, c) = Ok (<[k := letters ∪ {[c]}]> vp).
Proof. intros Hk. unfold add_letter. cbn [fst snd]. by rewrite (getitem_lookup _ _ _ Hk). Qed.

(** The inner loop over the letters of one word, from position [k] on. *)
Lemma add_letters_from (word : list ascii) (k : nat)
    (vp : gmap nat (gset ascii)) :
  (∀ i, k ≤ i < k + length word → is_Some (vp !! i)) →
  ∃ vp',
    foldlM add_letter vp (imap (λ i letter, (k + i, letter)) word) = Ok vp'
    ∧ ∀ i, vp' !! i
           = if decide (k ≤ i)
             then match word !! (i - k) with
                  | Some c => (λ letters, letters ∪ {[c]}) <$> vp !! i
                  | None => vp !! i
                  end
             else vp !! i.
Proof.
  revert k vp. induction word as [|c word IH]; intros k vp Hdom.
  - exists vp. split; [done|]. intros i. by case_decide.
  - destruct (Hdom k) as [letters Hk]; [simpl; lia|].
    cbn [imap foldlM].
    rewrite Nat.add_0_r, (add_letter_Ok _ _ _ _ Hk), bind_Ok.
    rewrite (imap_ext _ (λ i letter, (S k + i, letter)))
      by (intros i x _; simpl; f_equal; lia).
    destruct (IH (S k) (<[k := letters ∪ {[c]}]> vp)) as (vp' & Hfold & Hvp').
    { intros i Hi. rewrite lookup_insert_ne by lia. apply Hdom. simpl. lia. }
    exists vp'. split; [done|]. intros i. rewrite Hvp'.
    destruct (decide (S k ≤ i)) as [Hi|Hi].
    + rewrite decide_True by lia.
      replace (i - k) with (S (i - S k)) by lia. cbn [lookup list_lookup].
      by rewrite lookup_insert_ne by lia.
    + destruct (decide (k ≤ i)) as [Hki|Hki].
      * assert (i = k) as -> by lia. rewrite Nat.sub_diag. cbn [lookup list_lookup].
        by rewrite lookup_insert_eq, Hk.
      * by rewrite lookup_insert_ne by lia.
Qed.

Lemma add_word_lookup (vp : gmap nat (gset ascii)) (word : list ascii) :
  (∀ i, i < length word → is_Some (vp !! i)) →
  ∃ vp',
    add_word vp word = Ok vp'
    ∧ ∀ i, vp' !! i
           = match word !! i with
             | Some c => (λ letters, letters ∪ {[c]}) <$> vp !! i
             | None => vp !! i
             end.
Proof.
  intros Hdom.
  destruct (add_letters_from word 0 vp) as (vp' & Hfold & Hvp').
  { intros i Hi. apply Hdom. lia. }
  exists vp'. split; [exact Hfold|]. intros i. rewrite Hvp'.
  rewrite decide_True by lia. by rewrite Nat.sub_0_r.
Qed.

(** The outer loop: after the words seen so far, the dict holds, for each
    position below the word length, the letters seen there. *)
Lemma foldlM_add_word (word_length : nat) (word_list seen : list (list ascii))
    (vp : gmap nat (gset ascii)) :
  Forall (λ word, length word = word_length) word_list →
  (∀ i, vp !! i = if decide (i < word_length)
                  then Some (letters_at i seen) else None) →
  ∃ vp',
    foldlM add_word vp word_list = Ok vp'
    ∧ ∀ i, vp' !! i = if decide (i < word_length)
                      then Some (letters_at i (seen ++ word_list)) else None.
Proof.
  revert seen vp. induction word_list as [|word word_list IH];
    intros seen vp Hlen Hvp.
  - exists vp. split; [done|]. by rewrite app_nil_r.
  - apply Forall_cons in Hlen as [Hword Hlen].
    destruct (add_word_lookup vp word) as (vp1 & Hadd & Hvp1).
    { intros i Hi. rewrite Hvp, decide_True by lia. done. }
    destruct (IH (seen ++ [word]) vp1 Hlen) as (vp2 & Hfold & Hvp2).
    { intros i. rewrite Hvp1, Hvp. case_decide as Hi.
      - destruct (lookup_lt_is_Some_2 word i) as [c Hc]; [lia|].
        rewrite Hc. simpl. by rewrite (letters_at_snoc _ _ _ c).
      - by rewrite lookup_ge_None_2 by lia. }
    exists vp2. cbn [foldlM]. rewrite Hadd, bind_Ok. split; [done|].
    intros i. rewrite Hvp2. by rewrite <- (assoc_L _ seen [_] word_list).
Qed.

(** On words of one length the analysis does not raise, and keeps, in
    order, the positions where more than one letter is seen. *)
Lemma find_variable_letter_positions_spec (word_length : nat)
    (word_list : list (list ascii)) :
  Forall (λ word, length word = word_length) word_list →
  find_variable_letter_positions word_list
  = Ok (omap (λ pos,
                if decide (1 < size (letters_at pos word_list))
                then Some (pos, letters_at pos word_list) else None)
          (seq 0 (if word_list is [] then 0 else word_length))).
Proof.
  intros Hlen. destruct word_list as [|first rest]; [done|].
  assert (Hfirst : length first = word_length) by (by apply Forall_cons in Hlen as [? _]).
  unfold find_variable_letter_positions. rewrite Hfirst.
  destruct (foldlM_add_word word_length (first :: rest) []
              (list_to_map ((λ i, (i, ∅)) <$> seq 0 word_length)) Hlen)
    as (vp & Hfold & Hvp).
  { intros i. rewrite init_positions_lookup. by case_decide. }
  rewrite Hfold, bind_Ok. f_equal. apply omap_ext_elem_of.
  intros pos Hpos%elem_of_seq. rewrite Hvp, decide_True by lia. done.
Qed.

Lemma omap_None {A B : Type} (l : list A) : omap (λ _ : A, @None B) l = [].
Proof. by induction l. Qed.

Lemma letters_at_beyond (pos : nat) (word_list : list (list ascii)) :
  Forall (λ word, length word ≤ pos) word_list → letters_at pos word_list = ∅.
Proof.
  intros Hlen. unfold letters_at.
  rewrite (omap_ext_elem_of _ (λ _, None)).
  - by rewrite omap_None.
  - intros word Hword. rewrite Forall_forall in Hlen.
    apply lookup_ge_None_2. by apply Hlen.
Qed.

Lemma collect_variable_letters_subseteq (variable_positions : list (nat * gset ascii))
    (pos : nat) (letters : gset ascii) :
  (pos, letters) ∈ variable_positions →
  letters ⊆ collect_variable_letters variable_positions.
Proof.
  intros Hin letter Hletter. unfold collect_variable_letters.
  apply elem_of_union_list. exists letters. split; [|done].
  apply list_elem_of_fmap. by exists (pos, letters).
Qed.

(** C10: for a valid request (a config, a word length of at least 1, a
    dictionary that loads, well-formed history entries) the handler replies,
    the candidates being the replay of the history over the initial pool;
    [fillerSuggestions] is empty when at most 10 candidates remain or when no
    position shows more than one letter across the candidates, and is the
    filler list for the letters of the varying positions when more than 10
    candidates remain and some position varies. *)
Theorem calculate_next_move_filler
    (load_dictionary_from_storage : string → result (list (list ascii)))
    (data : Request) (cfg : Config) (word_length : Z)
    (words : list (list ascii)) :
  config data = Some cfg →
  default (JInt 5) (wordLength cfg) = JInt word_length →
  (1 ≤ word_length)%Z →
  load_dictionary_from_storage
    (default "english.json"%string (dictionary cfg)) = Ok words →
  Forall (well_formed_entry word_length) (default [] (history data)) →
  ∃ (r : Success) (possible_words : list (list ascii))
    (variable_positions : list (nat * gset ascii)),
    calculate_next_move load_dictionary_from_storage data = Reply r
    ∧ foldlM (apply_entry word_length)
        (filter (λ word, matches_length_prefix word_length (prefix cfg) word
                         = true) words)
        (default [] (history data)) = Ok possible_words
    ∧ remainingCount r = length possible_words
    ∧ find_variable_letter_positions possible_words = Ok variable_positions
    ∧ ((length possible_words ≤ 10
        ∨ ∀ pos, size (letters_at pos possible_words) ≤ 1) →
       fillerSuggestions r = [])
    ∧ ((10 < length possible_words
        ∧ ∃ pos, 1 < size (letters_at pos possible_words)) →
       collect_variable_letters variable_positions ≠ ∅
       ∧ fillerSuggestions r
         = filler_words words word_length
             (collect_variable_letters variable_positions)).
Proof.
  intros Hcfg Hwl Hpos Hload Hwf.
  destruct (replay_well_formed word_length (default [] (history data))
              (filter (λ word, matches_length_prefix word_length (prefix cfg)
                                 word = true) words))
    as (pw & Hreplay & Hsub); [apply initial_words_length|done|].
  assert (Hlen : Forall (λ word, length word = Z.to_nat word_length) pw).
  { eapply Forall_impl;
      [eapply Forall_sublist; [exact Hsub|apply initial_words_length]|].
    intros word Hword. simpl in Hword. lia. }
  pose proof (find_variable_letter_positions_spec _ _ Hlen) as Hvp.
  set (vp := omap _ _) in Hvp.
  unfold calculate_next_move.
  rewrite Hcfg, Hwl, decide_False, Hload by lia.
  unfold next_move. rewrite Hreplay, bind_Ok, Hvp, bind_Ok.
  eexists _, pw, vp. split; [reflexivity|]. split; [done|]. split; [done|].
  split; [done|]. cbn [fillerSuggestions]. unfold filler_suggestions. split.
  - intros [Hfew|Hsame].
    + rewrite (bool_decide_eq_false_2 (10 < length pw)) by lia.
      by rewrite andb_false_r.
    + assert (vp = []) as ->.
      { subst vp. rewrite (omap_ext_elem_of _ (λ _, None)).
        - apply omap_None.
        - intros pos _. rewrite decide_False; [done|]. specialize (Hsame pos). lia. }
      by rewrite bool_decide_eq_false_2 by (intros H; by apply H).
  - intros [Hmany [pos Hvaries]].
    assert (Hne : collect_variable_letters vp ≠ ∅).
    { assert (Hin : (pos, letters_at pos pw) ∈ vp).
      { subst vp. apply list_elem_of_omap. exists pos. split.
        - destruct pw as [|w ws]; [simpl in Hmany; lia|]. apply elem_of_seq.
          destruct (decide (pos < Z.to_nat word_length)); [lia|].
          rewrite letters_at_beyond in Hvaries.
          + rewrite size_empty in Hvaries. lia.
          + eapply Forall_impl; [exact Hlen|]. intros word Hw. simpl in Hw. lia.
        - by rewrite decide_True. }
      apply collect_variable_letters_subseteq in Hin. intros Hempty.
      rewrite Hempty in Hin.
      assert (letters_at pos pw = ∅) as Hz by set_solver.
      rewrite Hz, size_empty in Hvaries. lia. }
    split; [done|].
    by rewrite bool_decide_eq_true_2, bool_decide_eq_true_2.
Qed.

Lemma calculate_next_move_filler_witness :
  Forall (well_formed_entry 3) (default [] (history three_letter_request))
  ∧ ∃ r, calculate_next_move (λ _, Ok twelve_words) three_letter_request
         = Reply r
         ∧ remainingCount r = 12
         ∧ fillerSuggestions r
           = [py "cat"; py "bat"; py "rat"; py "hat"; py "mat"; py "sat";
              py "pat"; py "fat"; py "vat"].
Proof.
  assert (Hwf : Forall (well_formed_entry 3)
                  (default [] (history three_letter_request))).
  { repeat constructor. exists (py "dig"), (py "BBB").
    repeat split; try done. simpl.
    repeat constructor; apply list_elem_of_In; simpl; tauto. }
  split; [exact Hwf|].
  destruct (calculate_next_move_filler (λ _, Ok twelve_words)
              three_letter_request
              {| wordLength := Some (JInt 3); prefix := None; dictionary := None |}
              3 twelve_words eq_refl eq_refl ltac:(lia) eq_refl Hwf)
    as (r & pw & vp & Hreply & _).
  exists r. split; [exact Hreply|].
  vm_compute in Hreply. injection Hreply as <-. split; reflexivity.
Defined.

(** * Further properties of the code *)

(** ** Candidate filter, on feedback of any shape *)

Lemma filterM_Ok_elem_of {A : Type} (p : A → result bool) (l out : list A) (x : A) :
  filterM p l = Ok out → x ∈ out → x ∈ l ∧ p x = Ok true.
Proof.
  revert out. induction l as [|y l IH]; intros out; cbn [filterM].
  - intros [= <-] Hx. by apply elem_of_nil in Hx.
  - destruct (p y) as [b|e] eqn:Hy; [|done]. rewrite bind_Ok.
    destruct (filterM p l) as [rest|e]; [|done]. rewrite bind_Ok.
    intros [= <-] Hx. destruct b.
    + apply elem_of_cons in Hx as [->|Hx].
      * split; [left|done].
      * destruct (IH rest eq_refl Hx). split; [by right|done].
    + destruct (IH rest eq_refl Hx). split; [by right|done].
Qed.

(** A word the loop accepts meets every demand, whatever its length. *)
Lemma check_from_sound cc pc full word :
  counts_inv cc pc full →
  ∀ gf pre, full = pre ++ gf →
    Filter.check_from cc pc word (Filter.word_letter_counts word full)
      (length pre) gf = Ok true →
    ∀ j L s, gf !! j = Some (L, s) → demand full word (length pre + j) L s.
Proof.
  intros Hinv. induction gf as [|[L s] gf IH]; intros pre Hfull Hok j K c Hj;
    [by rewrite lookup_nil in Hj|].
  assert (HL : L ∈ full.*1) by (subst full; rewrite fmap_app; set_solver).
  assert (Hwc := FilterFacts.word_letter_counts_lookup word full L).
  destruct (Hinv L) as [Hcc Hpc]. rewrite decide_True in Hwc, Hcc, Hpc by done.
  assert (Hrest : Filter.check_from cc pc word
                    (Filter.word_letter_counts word full) (S (length pre)) gf
                  = Ok true →
                  ∀ j' K' c', gf !! j' = Some (K', c') →
                    demand full word (length pre + S j') K' c').
  { intros H j' K' c' Hj'.
    replace (length pre + S j') with (length (pre ++ [(L, s)]) + j')
      by (rewrite length_app; simpl; lia).
    apply (IH (pre ++ [(L, s)])); [by rewrite <- (assoc_L _ pre [_] gf)| |done].
    rewrite length_app. simpl. by rewrite Nat.add_1_r. }
  cbn [Filter.check_from] in Hok. unfold index in Hok.
  rewrite ?(getitem_lookup _ _ _ Hwc), ?(getitem_lookup _ _ _ Hcc),
    ?(getitem_lookup _ _ _ Hpc) in Hok.
  destruct j as [|j]; [|cbn [lookup list_lookup] in Hj].
  2:{ apply Hrest; [|done]. revert Hok.
      destruct (word !! length pre) as [wi|]; simpl;
        repeat first
          [ done
          | case_decide
          | match goal with
            | |- context [contains word L] =>
                destruct (contains word L); cbn [negb]
            end ]. }
  injection Hj as <- <-. rewrite Nat.add_0_r. unfold demand.
  destruct (decide (s = "g"%char)) as [->|Hg].
  { destruct (word !! length pre) as [wi|]; simpl in Hok; [|done].
    destruct (decide (wi ≠ L)) as [|Heq%dec_stable]; [done|]. subst wi.
    destruct (decide (count word L < tally "g" full L)); [done|].
    split; [intros _; split; [done|lia]|]. split; [done|done]. }
  destruct (decide (s = "y"%char)) as [->|Hy].
  { destruct (contains word L) eqn:Hin; simpl in Hok; [|done].
    apply FilterFacts.contains_true in Hin.
    destruct (word !! length pre) as [wi|]; simpl in Hok; [|done].
    destruct (decide (wi = L)) as [|Hne]; [done|].
    destruct (decide (count word L ≤ tally "g" full L)); [done|].
    split; [done|]. split; [|done]. intros _.
    split; [done|]. split; [congruence|lia]. }
  destruct (decide (s = "b"%char)) as [->|Hb].
  { split; [done|]. split; [done|]. intros _ Hin.
    apply FilterFacts.contains_true in Hin. rewrite Hin in Hok. simpl in Hok.
    destruct (decide (tally "g" full L + tally "y" full L < count word L));
      [done|lia]. }
  split; [done|]. split; done.
Qed.

Lemma filter_possible_words_sound word_list gf out word :
  Filter.filter_possible_words word_list gf = Ok out →
  word ∈ out → word ∈ word_list ∧ possible gf word.
Proof.
  unfold Filter.filter_possible_words. destruct gf as [|entry gf].
  - intros [= <-] Hin. split; [done|]. intros j L s. by rewrite lookup_nil.
  - destruct (FilterFacts.letter_counts_inv (entry :: gf))
      as (cc & pc & Hcounts & Hinv).
    rewrite Hcounts, bind_Ok. cbn [fst snd]. intros Hf Hin.
    destruct (filterM_Ok_elem_of _ _ _ _ Hf Hin) as [Hword Hok].
    split; [done|]. intros j L s Hj.
    apply (check_from_sound cc pc (entry :: gf) word Hinv (entry :: gf) []
             eq_refl Hok j L s Hj).
Qed.

Lemma tally_none (c : ascii) (gf : list (ascii * ascii)) (L : ascii) :
  (∀ j, gf !! j ≠ Some (L, c)) → tally c gf L = 0.
Proof.
  intros Hno. unfold tally.
  destruct (filter (λ entry, entry = (L, c)) gf) as [|e rest] eqn:Hf; [done|].
  assert (He : e ∈ filter (λ entry, entry = (L, c)) gf) by (rewrite Hf; left).
  apply list_elem_of_filter in He as [-> [j Hj]%list_elem_of_lookup_1].
  by destruct (Hno j).
Qed.

(** X1: a word kept by the filter (whatever the lengths involved) has the
    green letters at their positions, has each yellow letter but not at the
    yellow position, and has no occurrence of a black letter that is marked
    neither green nor yellow anywhere in the feedback. *)
Theorem filter_possible_words_marks (word_list : list (list ascii))
    (gf : list (ascii * ascii)) (out : list (list ascii)) (word : list ascii)
    (i : nat) (L : ascii) :
  Filter.filter_possible_words word_list gf = Ok out →
  word ∈ out →
  (gf !! i = Some (L, "g"%char) → word !! i = Some L)
  ∧ (gf !! i = Some (L, "y"%char) → L ∈ word ∧ word !! i ≠ Some L)
  ∧ (gf !! i = Some (L, "b"%char) →
     (∀ j, gf !! j ≠ Some (L, "g"%char) ∧ gf !! j ≠ Some (L, "y"%char)) →
     L ∉ word).
Proof.
  intros Hf Hin.
  destruct (filter_possible_words_sound _ _ _ _ Hf Hin) as [_ Hposs].
  split; [|split].
  - intros Hi. destruct (Hposs i L _ Hi) as (Hg & _). by apply Hg.
  - intros Hi. destruct (Hposs i L _ Hi) as (_ & Hy & _).
    destruct (Hy eq_refl) as (? & ? & _). done.
  - intros Hi Hno Hword. destruct (Hposs i L _ Hi) as (_ & _ & Hb).
    specialize (Hb eq_refl Hword).
    rewrite !tally_none in Hb by (intros j; by destruct (Hno j)).
    apply count_pos in Hword. lia.
Qed.

Lemma filter_possible_words_marks_witness :
  Filter.filter_possible_words crane_pool (zip (py "crane") (py "bbgbg"))
  = Ok [py "slate"]
  ∧ py "slate" !! 2 = Some "a"%char
  ∧ "c"%char ∉ py "slate".
Proof.
  assert (Hf : Filter.filter_possible_words crane_pool
                 (zip (py "crane") (py "bbgbg")) = Ok [py "slate"]).
  { vm_compute. reflexivity. }
  assert (Hin : py "slate" ∈ [py "slate"]) by left.
  split; [exact Hf|]. split.
  - apply (filter_possible_words_marks _ _ _ _ 2 "a"%char Hf Hin). reflexivity.
  - apply (filter_possible_words_marks _ _ _ _ 0 "c"%char Hf Hin); [reflexivity|].
    intros j. do 6 (destruct j as [|j]; [split; discriminate|]).
    split; discriminate.
Defined.

Global Instance demand_dec full word i L s : Decision (demand full word i L s).
Proof. unfold demand. apply _. Defined.

Lemma possible_Forall gf word :
  possible gf word
  ↔ Forall (λ ie : nat * (ascii * ascii), demand gf word ie.1 ie.2.1 ie.2.2)
      (imap pair gf).
Proof.
  rewrite Forall_lookup. unfold possible. split.
  - intros H i [j [L s]]. rewrite list_lookup_imap.
    destruct (gf !! i) as [[K t]|] eqn:Hi; simpl; [|done].
    intros [= <- <- <-]. by apply H.
  - intros H j L s Hj. apply (H j (j, (L, s))).
    by rewrite list_lookup_imap, Hj.
Qed.

Global Instance possible_dec gf word : Decision (possible gf word).
Proof.
  refine (cast_if (decide (Forall (λ ie : nat * (ascii * ascii),
                                     demand gf word ie.1 ie.2.1 ie.2.2)
                             (imap pair gf))));
    by rewrite possible_Forall.
Defined.

(** On words at least as long as the feedback the filter is the list
    filter of [possible]. *)
Lemma filter_possible_words_possible (word_list : list (list ascii))
    (gf : list (ascii * ascii)) :
  Forall (λ word, length gf ≤ length word) word_list →
  Filter.filter_possible_words word_list gf = Ok (filter (possible gf) word_list).
Proof.
  intros Hlen. unfold Filter.filter_possible_words.
  destruct gf as [|entry gf].
  - f_equal. symmetry. apply filter_all, Forall_forall.
    intros word _ j L s. by rewrite lookup_nil.
  - destruct (FilterFacts.letter_counts_inv (entry :: gf))
      as (cc & pc & Hcounts & _).
    rewrite Hcounts, bind_Ok. cbn [fst snd].
    apply filterM_filter. intros word Hword.
    rewrite Forall_forall in Hlen.
    apply (FilterFacts.is_word_possible_demand _ _ _ _ Hcounts (Hlen word Hword)).
Qed.

Lemma filter_ext_elem_of {A : Type} (P Q : A → Prop) `{!∀ x, Decision (P x)}
    `{!∀ x, Decision (Q x)} (l : list A) :
  (∀ x, x ∈ l → P x ↔ Q x) → filter P l = filter Q l.
Proof.
  induction l as [|x l IH]; intros HPQ; [done|].
  rewrite !filter_cons, IH by (intros y Hy; apply HPQ; by right).
  destruct (decide (P x)) as [HP|HP], (decide (Q x)) as [HQ|HQ]; try done.
  - exfalso. apply HQ, HPQ; [left|done].
  - exfalso. apply HP, HPQ; [left|done].
Qed.

Lemma Forall_filter_keep {A : Type} (P Q : A → Prop) `{!∀ x, Decision (Q x)}
    (l : list A) :
  Forall P l → Forall P (filter Q l).
Proof.
  rewrite !Forall_forall. intros HP x [_ Hx]%list_elem_of_filter. by apply HP.
Qed.

Lemma check_from_unknown_symbols cc pc word wlc (gf : list (ascii * ascii)) :
  Forall (λ entry : ascii * ascii,
            entry.2 ≠ "g"%char ∧ entry.2 ≠ "y"%char ∧ entry.2 ≠ "b"%char) gf →
  ∀ k, Filter.check_from cc pc word wlc k gf = Ok true.
Proof.
  induction 1 as [|[L s] gf (Hg & Hy & Hb) _ IH]; intros k; [done|].
  cbn [snd] in *. cbn [Filter.check_from].
  rewrite !decide_False by done. apply IH.
Qed.

(** X2: symbols other than g, y and b are ignored.  A feedback made only of
    such symbols keeps every word, of any length, and raises nothing. *)
Theorem filter_possible_words_unknown_symbols (word_list : list (list ascii))
    (gf : list (ascii * ascii)) :
  Forall (λ entry : ascii * ascii,
            entry.2 ≠ "g"%char ∧ entry.2 ≠ "y"%char ∧ entry.2 ≠ "b"%char) gf →
  Filter.filter_possible_words word_list gf = Ok word_list.
Proof.
  intros Hsym. unfold Filter.filter_possible_words.
  destruct gf as [|entry gf]; [done|].
  destruct (FilterFacts.letter_counts_inv (entry :: gf)) as (cc & pc & -> & _).
  rewrite bind_Ok. cbn [fst snd].
  rewrite (filterM_filter _ (λ _, True)).
  - f_equal. apply filter_all, Forall_forall. done.
  - intros word _. exists true. split; [|done].
    unfold Filter.is_word_possible. by apply check_from_unknown_symbols.
Qed.

Lemma filter_possible_words_unknown_symbols_witness :
  Filter.filter_possible_words [py "crane"; py "to"; py "elephant"]
    (zip (py "crane") (py "x?GYB"))
  = Ok [py "crane"; py "to"; py "elephant"].
Proof.
  apply filter_possible_words_unknown_symbols.
  repeat constructor; discriminate.
Defined.

(** ** Where malformed feedback is rejected *)

(** An entry that is not well formed is rejected by the replay loop before
    the filter is called: the outcome does not depend on the candidates. *)
Lemma apply_entry_malformed (word_length : Z)
    (possible_words : list (list ascii)) (entry : HistoryEntry) :
  ¬ well_formed_entry word_length entry →
  apply_entry word_length possible_words entry
  = Raise (ValueError (malformed_message word_length entry)).
Proof.
  intros Hnwf. unfold apply_entry, malformed_message.
  destruct (guess entry) as [g|] eqn:Hg; [|done].
  destruct (feedback entry) as [f|] eqn:Hf; [|done].
  rewrite !lower_length.
  destruct (decide (Z.of_nat (length g) = word_length
                    ∧ Z.of_nat (length f) = word_length)) as [[Hlg Hlf]|Hlen].
  - rewrite decide_False by tauto.
    destruct (forallb (contains (py "gyb")) (lower f)) eqn:Hchars; [|done].
    exfalso. apply Hnwf. exists g, f. repeat split; try done.
    apply forallb_Forall in Hchars. eapply Forall_impl; [exact Hchars|].
    intros c. apply FilterFacts.contains_true.
  - rewrite decide_True; [done|].
    destruct (decide (Z.of_nat (length g) = word_length)); [|tauto].
    destruct (decide (Z.of_nat (length f) = word_length)); tauto.
Qed.

(** The replay stops at the first entry that is not well formed. *)
Lemma replay_first_malformed (word_length : Z) (history : list HistoryEntry)
    (possible_words : list (list ascii)) :
  Forall (λ word, Z.of_nat (length word) = word_length) possible_words →
  Exists (λ entry, ¬ well_formed_entry word_length entry) history →
  ∃ h1 entry h2,
    history = h1 ++ entry :: h2
    ∧ Forall (well_formed_entry word_length) h1
    ∧ ¬ well_formed_entry word_length entry
    ∧ foldlM (apply_entry word_length) possible_words history
      = Raise (ValueError (malformed_message word_length entry)).
Proof.
  revert possible_words.
  induction history as [|entry history IH]; intros possible_words Hlen Hex.
  - by apply Exists_nil in Hex.
  - destruct (apply_entry_cases word_length possible_words entry Hlen)
      as [(Hwf & pw1 & Hpw1 & Hsub1)|(Hnwf & _)].
    + apply Exists_cons in Hex as [?|Hex]; [done|].
      destruct (IH pw1) as (h1 & bad & h2 & -> & Hh1 & Hbad & Hfold);
        [by eapply Forall_sublist|done|].
      exists (entry :: h1), bad, h2. split; [done|].
      split; [by constructor|]. split; [done|].
      cbn [foldlM]. by rewrite Hpw1, bind_Ok.
    + exists [], entry, history. split; [done|]. split; [constructor|].
      split; [done|]. cbn [foldlM].
      by rewrite (apply_entry_malformed _ _ _ Hnwf).
Qed.

(** C3 (amended): the validation is the handler's, not the filter's.

    The handler: for a request with a config, a valid word length and a
    dictionary that loads, if some history entry is not well formed (it
    lacks its guess or its feedback, or its guess or feedback does not have
    [wordLength] characters, or its feedback, once put in lower case, has a
    character other than g, y, b), then the replay stops at the first such
    entry and [calculate_next_move] answers [INVALID_ARGUMENT] with that
    entry's message; the entry is rejected whatever the candidates are, so
    the filter plays no part in it.  Upper-case feedback is not malformed.

    The filter: [filter_possible_words] raises only [IndexError], and only
    when a word is shorter than the feedback; on words at least as long as
    the feedback (longer ones included) it returns the words that meet the
    demands of the g, y and b entries, other symbols demanding nothing; a
    feedback without any g, y or b returns the list unchanged. *)
Theorem calculate_next_move_rejects_malformed
    (load_dictionary_from_storage : string → result (list (list ascii)))
    (data : Request) (cfg : Config) (word_length : Z)
    (words : list (list ascii)) :
  config data = Some cfg →
  default (JInt 5) (wordLength cfg) = JInt word_length →
  (1 ≤ word_length)%Z →
  load_dictionary_from_storage
    (default "english.json"%string (dictionary cfg)) = Ok words →
  Exists (λ entry, ¬ well_formed_entry word_length entry)
    (default [] (history data)) →
  (∃ h1 entry h2,
     default [] (history data) = h1 ++ entry :: h2
     ∧ Forall (well_formed_entry word_length) h1
     ∧ ¬ well_formed_entry word_length entry
     ∧ calculate_next_move load_dictionary_from_storage data
       = Error INVALID_ARGUMENT (malformed_message word_length entry)
     ∧ ∀ possible_words,
         apply_entry word_length possible_words entry
         = Raise (ValueError (malformed_message word_length entry)))
  ∧ (∀ word_list gf e,
       Filter.filter_possible_words word_list gf = Raise e →
       e = IndexError ∧ ∃ word, word ∈ word_list ∧ length word < length gf)
  ∧ (∀ word_list gf,
       Forall (λ word, length gf ≤ length word) word_list →
       Filter.filter_possible_words word_list gf
       = Ok (filter (possible gf) word_list))
  ∧ (∀ word_list gf,
       Forall (λ entry : ascii * ascii,
                 entry.2 ≠ "g"%char ∧ entry.2 ≠ "y"%char ∧ entry.2 ≠ "b"%char)
         gf →
       Filter.filter_possible_words word_list gf = Ok word_list).
Proof.
  intros Hcfg Hwl Hpos Hload Hex. split; [|split; [|split]].
  - destruct (replay_first_malformed word_length (default [] (history data))
                (filter (λ word, matches_length_prefix word_length (prefix cfg)
                                   word = true) words))
      as (h1 & entry & h2 & Hsplit & Hh1 & Hbad & Hfold);
      [apply initial_words_length|done|].
    exists h1, entry, h2. split; [done|]. split; [done|]. split; [done|]. split.
    + unfold calculate_next_move.
      rewrite Hcfg, Hwl, decide_False, Hload by lia.
      unfold next_move. by rewrite Hfold.
    + intros possible_words. by apply apply_entry_malformed.
  - intros word_list gf e. apply filter_possible_words_Raise.
  - intros word_list gf. apply filter_possible_words_possible.
  - intros word_list gf Hsym. unfold Filter.filter_possible_words.
    destruct gf as [|entry gf]; [done|].
    destruct (FilterFacts.letter_counts_inv (entry :: gf)) as (cc & pc & -> & _).
    rewrite bind_Ok. cbn [fst snd].
    rewrite (filterM_filter _ (λ _, True)).
    + f_equal. apply filter_all, Forall_forall. done.
    + intros word _. exists true. split; [|done].
      unfold Filter.is_word_possible. by apply check_from_unknown_symbols.
Qed.

Lemma calculate_next_move_rejects_malformed_witness :
  Exists (λ entry, ¬ well_formed_entry 5 entry)
    (default [] (history short_feedback_request))
  ∧ calculate_next_move five_words short_feedback_request
    = Error INVALID_ARGUMENT "Guess and feedback length mismatch".
Proof.
  assert (Hex : Exists (λ entry, ¬ well_formed_entry 5 entry)
                  (default [] (history short_feedback_request))).
  { apply Exists_cons_hd. intros (g & f & _ & [= <-] & _ & Hf & _). done. }
  destruct (calculate_next_move_rejects_malformed five_words
              short_feedback_request default_config 5
              [py "apple"; py "crane"; py "slate"; py "audio"; py "house"]
              eq_refl eq_refl ltac:(lia) eq_refl Hex)
    as [(h1 & entry & h2 & Hsplit & _ & _ & Hresp & _) _].
  split; [exact Hex|]. rewrite Hresp.
  destruct h1 as [|first h1]; [|destruct h1; discriminate].
  injection Hsplit as <- _. reflexivity.
Defined.

(** Feedback in upper case is accepted: the handler lower-cases it before
    it looks at the characters. *)
Example calculate_next_move_accepts_upper_case :
  ∃ r, calculate_next_move (λ _, Ok twelve_words) three_letter_request = Reply r
       ∧ remainingCount r = 12.
Proof. eexists. split; [vm_compute; reflexivity|reflexivity]. Qed.

Lemma filterM_all_true {A : Type} (p : A → result bool) (l : list A) :
  (∀ x, x ∈ l → p x = Ok true) → filterM p l = Ok l.
Proof.
  induction l as [|x l IH]; intros Hp; [done|]. cbn [filterM].
  rewrite (Hp x), bind_Ok, IH by (first [left | intros; apply Hp; by right]).
  done.
Qed.

(** X3: filtering again with the same feedback changes nothing: the second
    pass returns the first result, and raises exactly when the first did. *)
Theorem filter_possible_words_idempotent (word_list : list (list ascii))
    (gf : list (ascii * ascii)) :
  (Filter.filter_possible_words word_list gf
   ≫= λ out, Filter.filter_possible_words out gf)
  = Filter.filter_possible_words word_list gf.
Proof.
  destruct (Filter.filter_possible_words word_list gf) as [out|e] eqn:Hf; [|done].
  rewrite bind_Ok. unfold Filter.filter_possible_words in *.
  destruct gf as [|entry gf]; [done|].
  destruct (Filter.letter_counts (entry :: gf)) as [counts|e]; [|done].
  rewrite bind_Ok in *. apply filterM_all_true.
  intros word Hword. by destruct (filterM_Ok_elem_of _ _ _ _ Hf Hword).
Qed.

(** X4: two feedbacks can be applied in either order: on words at least as
    long as both, each order returns the words that meet both. *)
Theorem filter_possible_words_commute (word_list : list (list ascii))
    (gf1 gf2 : list (ascii * ascii)) :
  Forall (λ word, length gf1 ≤ length word ∧ length gf2 ≤ length word)
    word_list →
  (Filter.filter_possible_words word_list gf1
   ≫= λ out, Filter.filter_possible_words out gf2)
  = Ok (filter (λ word, possible gf1 word ∧ possible gf2 word) word_list)
  ∧ (Filter.filter_possible_words word_list gf2
     ≫= λ out, Filter.filter_possible_words out gf1)
    = Ok (filter (λ word, possible gf1 word ∧ possible gf2 word) word_list).
Proof.
  intros Hlen.
  assert (H1 : Forall (λ word, length gf1 ≤ length word) word_list)
    by (eapply Forall_impl; [exact Hlen|]; by intros ? []).
  assert (H2 : Forall (λ word, length gf2 ≤ length word) word_list)
    by (eapply Forall_impl; [exact Hlen|]; by intros ? []).
  split.
  - rewrite (filter_possible_words_possible _ _ H1), bind_Ok.
    rewrite filter_possible_words_possible by (by apply Forall_filter_keep).
    f_equal. rewrite list_filter_filter. apply list_filter_iff. tauto.
  - rewrite (filter_possible_words_possible _ _ H2), bind_Ok.
    rewrite filter_possible_words_possible by (by apply Forall_filter_keep).
    f_equal. rewrite list_filter_filter. apply list_filter_iff. tauto.
Qed.

Lemma filter_possible_words_commute_witness :
  Forall (λ word, length (zip (py "crane") (py "bbgbg")) ≤ length word
                  ∧ length (zip (py "slate") (py "bybyg")) ≤ length word)
    crane_pool
  ∧ (Filter.filter_possible_words crane_pool (zip (py "crane") (py "bbgbg"))
     ≫= λ out, Filter.filter_possible_words out (zip (py "slate") (py "bybyg")))
    = (Filter.filter_possible_words crane_pool (zip (py "slate") (py "bybyg"))
       ≫= λ out, Filter.filter_possible_words out (zip (py "crane") (py "bbgbg"))).
Proof.
  assert (H : Forall (λ word, length (zip (py "crane") (py "bbgbg")) ≤ length word
                              ∧ length (zip (py "slate") (py "bybyg")) ≤ length word)
                crane_pool).
  { repeat constructor. }
  split; [exact H|].
  destruct (filter_possible_words_commute crane_pool _ _ H) as [-> ->].
  reflexivity.
Defined.

Lemma zip_replicate_r {A B : Type} (l : list A) (b : B) :
  zip l (replicate (length l) b) = (λ a, (a, b)) <$> l.
Proof. induction l as [|a l IH]; [done|]. simpl. by rewrite IH. Qed.

Lemma tally_all_green (guess : list ascii) (L : ascii) :
  tally "g" ((λ c, (c, "g"%char)) <$> guess) L = count guess L.
Proof.
  unfold tally, count. induction guess as [|c guess IH]; [done|].
  rewrite fmap_cons, !filter_cons.
  destruct (decide (c = L)) as [->|Hne].
  - rewrite decide_True by done. simpl. by rewrite IH.
  - rewrite decide_False by congruence. done.
Qed.

(** X5: an all-green feedback keeps exactly the copies of the guess, among
    words of the guess's length. *)
Theorem filter_possible_words_all_green (word_list : list (list ascii))
    (guess : list ascii) :
  Forall (λ word, length word = length guess) word_list →
  Filter.filter_possible_words word_list
    (zip guess (replicate (length guess) "g"%char))
  = Ok (filter (λ word, word = guess) word_list).
Proof.
  intros Hlen. rewrite zip_replicate_r.
  rewrite filter_possible_words_possible.
  2:{ eapply Forall_impl; [exact Hlen|]. intros word Hw. simpl in Hw.
      rewrite length_fmap. lia. }
  f_equal. apply filter_ext_elem_of. intros word Hword.
  rewrite Forall_forall in Hlen. specialize (Hlen word Hword). split.
  - intros Hposs. apply list_eq. intros i.
    destruct (guess !! i) as [c|] eqn:Hi.
    + destruct (Hposs i c "g"%char) as (Hg & _).
      { by rewrite list_lookup_fmap, Hi. }
      by apply Hg.
    + apply lookup_ge_None. apply lookup_ge_None in Hi. lia.
  - intros -> j L s Hj. rewrite list_lookup_fmap in Hj.
    destruct (guess !! j) as [c|] eqn:Hc; [|done]. injection Hj as <- <-.
    unfold demand. rewrite tally_all_green.
    split; [by intros _|]. split; discriminate.
Qed.

Lemma filter_possible_words_all_green_witness :
  Forall (λ word, length word = length (py "slate")) crane_pool
  ∧ Filter.filter_possible_words crane_pool (zip (py "slate") (py "ggggg"))
    = Ok [py "slate"].
Proof.
  assert (H : Forall (λ word, length word = length (py "slate")) crane_pool).
  { repeat constructor. }
  split; [exact H|].
  exact (filter_possible_words_all_green crane_pool (py "slate") H).
Defined.

(** ** Replaying a history *)

(** The words of the dictionary that have the length and the prefix and
    meet the feedback of every history entry. *)
Definition candidates (words : list (list ascii)) (word_length : Z)
    (prefix : option (list ascii)) (h : list HistoryEntry)
  : list (list ascii) :=
  filter (λ word, Forall (λ entry, possible (entry_feedback entry) word) h)
    (filter (λ word, matches_length_prefix word_length prefix word = true)
       words).

Lemma apply_entry_filter (word_length : Z) (possible_words : list (list ascii))
    (entry : HistoryEntry) :
  Forall (λ word, Z.of_nat (length word) = word_length) possible_words →
  well_formed_entry word_length entry →
  apply_entry word_length possible_words entry
  = Ok (filter (possible (entry_feedback entry)) possible_words).
Proof.
  intros Hlen (g & f & Hg & Hf & Hlg & Hlf & Hchars).
  unfold apply_entry, entry_feedback. rewrite Hg, Hf.
  cbn [default from_option]. unfold id.
  rewrite !lower_length, decide_False by tauto.
  assert (forallb (contains (py "gyb")) (lower f) = true) as ->.
  { apply forallb_Forall. eapply Forall_impl; [exact Hchars|].
    intros c. apply FilterFacts.contains_true. }
  cbn [negb]. apply filter_possible_words_possible.
  eapply Forall_impl; [exact Hlen|]. intros word Hword. simpl in Hword.
  rewrite length_zip, !lower_length. lia.
Qed.

(** Replaying a well-formed history is one pass of the list filter. *)
Lemma replay_filter (word_length : Z) (h : list HistoryEntry)
    (possible_words : list (list ascii)) :
  Forall (λ word, Z.of_nat (length word) = word_length) possible_words →
  Forall (well_formed_entry word_length) h →
  foldlM (apply_entry word_length) possible_words h
  = Ok (filter (λ word, Forall (λ entry, possible (entry_feedback entry) word) h)
          possible_words).
Proof.
  revert possible_words. induction h as [|entry h IH]; intros pw Hlen Hwf.
  - cbn [foldlM]. f_equal. symmetry. apply filter_all, Forall_forall.
    intros word _. constructor.
  - apply Forall_cons in Hwf as [Hentry Hwf]. cbn [foldlM].
    rewrite apply_entry_filter, bind_Ok by done.
    rewrite IH by (by try apply Forall_filter_keep).
    f_equal. rewrite list_filter_filter. apply list_filter_iff.
    intros word. rewrite Forall_cons. tauto.
Qed.

(** The reply to a valid request, field by field. *)
Lemma calculate_next_move_valid
    (load : string → result (list (list ascii)))
    (data : Request) (cfg : Config) (word_length : Z)
    (words : list (list ascii)) :
  config data = Some cfg →
  default (JInt 5) (wordLength cfg) = JInt word_length →
  (1 ≤ word_length)%Z →
  load (default "english.json"%string (dictionary cfg)) = Ok words →
  Forall (well_formed_entry word_length) (default [] (history data)) →
  let h := default [] (history data) in
  let possible_words := candidates words word_length (prefix cfg) h in
  ∃ variable_positions,
    find_variable_letter_positions possible_words = Ok variable_positions
    ∧ calculate_next_move load data
      = Reply
          {| recommendations :=
               (λ item : list ascii * Q, (item.1, round2 item.2))
               <$> recommend_guesses possible_words word_length (prefix cfg) 9
                     (Z.of_nat (length h + 1)) (Some words);
             remainingWords := take 100 possible_words;
             remainingCount := length possible_words;
             variablePositions :=
               (λ item : nat * gset ascii, (pretty item.1, elements item.2))
               <$> variable_positions;
             fillerSuggestions :=
               filler_suggestions words possible_words word_length
                 (collect_variable_letters variable_positions);
             guessCount := length h + 1 |}.
Proof.
  intros Hcfg Hwl Hpos Hload Hwf h pw.
  assert (Hreplay := replay_filter word_length h _
                       (initial_words_length words word_length (prefix cfg)) Hwf).
  fold (candidates words word_length (prefix cfg) h) in Hreplay. fold pw in Hreplay.
  assert (Hlen : Forall (λ word, length word = Z.to_nat word_length) pw).
  { subst pw. unfold candidates. apply Forall_filter_keep.
    eapply Forall_impl; [apply initial_words_length|].
    intros word Hword. simpl in Hword. lia. }
  pose proof (find_variable_letter_positions_spec _ _ Hlen) as Hvp.
  eexists. split; [exact Hvp|].
  unfold calculate_next_move.
  rewrite Hcfg, Hwl, decide_False, Hload by lia.
  unfold next_move. fold h. rewrite Hreplay, bind_Ok, Hvp, bind_Ok. done.
Qed.

Lemma Forall_Permutation_iff {A : Type} (P : A → Prop) (l1 l2 : list A) :
  l1 ≡ₚ l2 → Forall P l1 ↔ Forall P l2.
Proof. intros Hperm. by rewrite Hperm. Qed.

(** X6: the order of the history does not matter.  Two well-formed
    histories with the same entries get the same response. *)
Theorem calculate_next_move_history_order
    (load : string → result (list (list ascii)))
    (data : Request) (cfg : Config) (word_length : Z)
    (h1 h2 : list HistoryEntry) :
  config data = Some cfg →
  default (JInt 5) (wordLength cfg) = JInt word_length →
  Forall (well_formed_entry word_length) h1 →
  h1 ≡ₚ h2 →
  calculate_next_move load (with_history data h1)
  = calculate_next_move load (with_history data h2).
Proof.
  intros Hcfg Hwl Hwf1 Hperm.
  assert (Hwf2 : Forall (well_formed_entry word_length) h2) by (by rewrite <- Hperm).
  unfold calculate_next_move, with_history.
  cbn [config history]. rewrite Hcfg, Hwl.
  cbn [default from_option]. unfold id. case_decide; [done|].
  destruct (load _) as [words|e]; [|done].
  unfold next_move.
  rewrite !replay_filter by (first [apply initial_words_length | done]).
  rewrite (Permutation_length Hperm).
  rewrite (list_filter_iff
             (λ word, Forall (λ entry, possible (entry_feedback entry) word) h1)
             (λ word, Forall (λ entry, possible (entry_feedback entry) word) h2)).
  - done.
  - intros word. by apply Forall_Permutation_iff.
Qed.

Definition crane_then_slate : list HistoryEntry :=
  [ {| guess := Some (py "crane"); feedback := Some (py "bbgbb") |};
    {| guess := Some (py "slate"); feedback := Some (py "bbgbb") |} ].

Lemma crane_then_slate_well_formed :
  Forall (well_formed_entry 5) crane_then_slate.
Proof.
  repeat constructor.
  - exists (py "crane"), (py "bbgbb"). repeat split; try done.
    repeat constructor; apply list_elem_of_In; simpl; tauto.
  - exists (py "slate"), (py "bbgbb"). repeat split; try done.
    repeat constructor; apply list_elem_of_In; simpl; tauto.
Qed.

Lemma calculate_next_move_history_order_witness :
  Forall (well_formed_entry 5) crane_then_slate
  ∧ crane_then_slate ≡ₚ reverse crane_then_slate
  ∧ calculate_next_move five_words
      (with_history short_feedback_request crane_then_slate)
    = calculate_next_move five_words
        (with_history short_feedback_request (reverse crane_then_slate)).
Proof.
  assert (Hperm : crane_then_slate ≡ₚ reverse crane_then_slate)
    by (symmetry; apply reverse_Permutation).
  split; [exact crane_then_slate_well_formed|]. split; [exact Hperm|].
  exact (calculate_next_move_history_order five_words short_feedback_request
           default_config 5 _ _ eq_refl eq_refl crane_then_slate_well_formed
           Hperm).
Defined.

(** Whatever the entries, the replay ends with narrowed candidates or with
    a [ValueError]. *)
Lemma replay_cases (word_length : Z) (h : list HistoryEntry)
    (possible_words : list (list ascii)) :
  Forall (λ word, Z.of_nat (length word) = word_length) possible_words →
  (∃ possible_words',
     foldlM (apply_entry word_length) possible_words h = Ok possible_words'
     ∧ possible_words' `sublist_of` possible_words)
  ∨ (∃ msg, foldlM (apply_entry word_length) possible_words h
            = Raise (ValueError msg)).
Proof.
  revert possible_words.
  induction h as [|entry h IH]; intros possible_words Hlen.
  - left. by exists possible_words.
  - cbn [foldlM].
    destruct (apply_entry_cases word_length possible_words entry Hlen)
      as [(_ & pw1 & -> & Hsub1)|(_ & msg & ->)]; [|right; by exists msg].
    rewrite bind_Ok.
    destruct (IH pw1) as [(pw2 & Hfold & Hsub2)|Hraise];
      [by eapply Forall_sublist| |by right].
    left. exists pw2. split; [done|]. by etrans.
Qed.

(** Where the two error kinds other than [INVALID_ARGUMENT] come from. *)
Lemma calculate_next_move_outcome
    (load : string → result (list (list ascii))) (data : Request) :
  match calculate_next_move load data with
  | Error INTERNAL_ERROR _ =>
      ∃ cfg e,
        config data = Some cfg
        ∧ load (default "english.json"%string (dictionary cfg)) = Raise e
        ∧ ∀ msg, e ≠ ValueError msg
  | Error DICTIONARY_NOT_FOUND msg =>
      ∃ cfg word_length,
        config data = Some cfg
        ∧ default (JInt 5) (wordLength cfg) = JInt word_length
        ∧ (1 ≤ word_length)%Z
        ∧ load (default "english.json"%string (dictionary cfg))
          = Raise (ValueError msg)
  | _ => True
  end.
Proof.
  unfold calculate_next_move.
  destruct (config data) as [cfg|]; [|done].
  destruct (default (JInt 5) (wordLength cfg)) as [word_length|] eqn:Hwl; [|done].
  case_decide; [done|].
  destruct (load _) as [words|e] eqn:Hl.
  2:{ destruct e as [| |m]; [exists cfg, IndexError|exists cfg, KeyError|];
        [done|done|].
      exists cfg, word_length. repeat split; [done|lia|done]. }
  unfold next_move.
  destruct (replay_cases word_length (default [] (history data))
              (filter (λ word, matches_length_prefix word_length (prefix cfg)
                                 word = true) words))
    as [(pw & -> & Hsub)|(m & ->)]; [apply initial_words_length| |done].
  rewrite bind_Ok.
  assert (Hlen : Forall (λ word, length word = Z.to_nat word_length) pw).
  { eapply Forall_impl;
      [eapply Forall_sublist; [exact Hsub|apply initial_words_length]|].
    intros word Hword. simpl in Hword. lia. }
  rewrite (find_variable_letter_positions_spec _ _ Hlen). done.
Qed.

Lemma lower_char_idemp (c : ascii) : lower_char (lower_char c) = lower_char c.
Proof. destruct c as [[] [] [] [] [] [] [] []]; reflexivity. Qed.

Lemma lower_idemp (s : list ascii) : lower (lower s) = lower s.
Proof.
  unfold lower. rewrite <- list_fmap_compose. apply list_fmap_ext.
  intros _ c _. apply lower_char_idemp.
Qed.

Lemma apply_entry_lower (word_length : Z) (possible_words : list (list ascii))
    (entry : HistoryEntry) :
  apply_entry word_length possible_words (lower_entry entry)
  = apply_entry word_length possible_words entry.
Proof.
  unfold apply_entry, lower_entry. cbn [guess feedback].
  destruct (guess entry) as [g|], (feedback entry) as [f|]; try done.
  cbn [fmap option_fmap option_map]. by rewrite !lower_idemp.
Qed.

Lemma foldlM_ext_fmap {A S : Type} (step : S → A → result S) (g : A → A)
    (l : list A) (st : S) :
  (∀ st x, step st (g x) = step st x) →
  foldlM step st (g <$> l) = foldlM step st l.
Proof.
  intros Hstep. revert st. induction l as [|x l IH]; intros st; [done|].
  rewrite fmap_cons. cbn [foldlM]. rewrite Hstep.
  destruct (step st x); [|done]. rewrite !bind_Ok. apply IH.
Qed.

(** X8: guesses and feedback are read without regard to case: putting every
    history entry in lower case gives the same response, for every request. *)
Theorem calculate_next_move_case_insensitive
    (load : string → result (list (list ascii)))
    (data : Request) (h : list HistoryEntry) :
  calculate_next_move load (with_history data (lower_entry <$> h))
  = calculate_next_move load (with_history data h).
Proof.
  unfold calculate_next_move, with_history. cbn [config history].
  destruct (config data) as [cfg|]; [|done].
  destruct (default (JInt 5) (wordLength cfg)) as [word_length|]; [|done].
  case_decide; [done|]. destruct (load _) as [words|e]; [|done].
  cbn [default from_option]. unfold id, next_move.
  rewrite (foldlM_ext_fmap _ lower_entry) by apply apply_entry_lower.
  by rewrite length_fmap.
Qed.

Example calculate_next_move_upper_case :
  calculate_next_move five_words
    (with_history short_feedback_request
       [ {| guess := Some (py "CRANE"); feedback := Some (py "BBGBG") |} ])
  = calculate_next_move five_words
      (with_history short_feedback_request
         [ {| guess := Some (py "crane"); feedback := Some (py "bbgbg") |} ]).
Proof. vm_compute. reflexivity. Qed.

(** ** Scores and recommendations *)

Lemma recommend_guesses_slice (word_list : list (list ascii)) (len : Z)
    (prefix : option (list ascii)) (n guess_count : Z)
    (score_base_word_list : option (list (list ascii))) :
  recommend_guesses word_list len prefix n guess_count score_base_word_list
  = slice_to
      (sort_desc (λ x y : list ascii * Q, Qltb x.2 y.2)
         ((λ word,
             (word,
              calculate_guess_score word
                (normalize_letter_frequencies
                   (calculate_letter_frequency
                      (default word_list score_base_word_list) len prefix))
                guess_count))
          <$> filter (λ word, matches_length_prefix len prefix word = true)
                word_list))
      n.
Proof.
  unfold recommend_guesses.
  destruct (filter _ word_list) as [|w ws]; [|done].
  simpl. by rewrite slice_to_nil.
Qed.

Lemma normalize_letter_frequencies_range (frequencies : list (ascii * Q)) :
  Forall (λ entry : ascii * Q, (0 <= entry.2 <= 10)%Q)
    (normalize_letter_frequencies frequencies).
Proof.
  destruct frequencies as [|entry rest]; [constructor|].
  rewrite normalize_letter_frequencies_cons. cbv zeta.
  set (hi := Qmaximum entry.2 (Dict.values rest)).
  set (lo := Qminimum entry.2 (Dict.values rest)).
  destruct (Qmaximum_spec entry.2 (Dict.values rest)) as [Hhi_in Hhi].
  destruct (Qminimum_spec entry.2 (Dict.values rest)) as [Hlo_in Hlo].
  fold hi in Hhi_in, Hhi. fold lo in Hlo_in, Hlo.
  destruct (Qeq_bool hi lo) eqn:Heq.
  - apply Forall_fmap, Forall_forall. intros item _. simpl. split; discriminate.
  - assert (Hne : ¬ (hi == lo)%Q).
    { intros H. apply Qeq_bool_iff in H. congruence. }
    assert (Hlt : (lo < hi)%Q).
    { apply Qnot_le_lt. intros H. apply Hne. apply Qle_antisym; [done|].
      by apply Hlo. }
    apply Forall_fmap, Forall_forall. intros item Hitem. simpl.
    assert (Hv : item.2 ∈ entry.2 :: Dict.values rest).
    { change (entry.2 :: Dict.values rest) with (Dict.values (entry :: rest)).
      unfold Dict.values. apply list_elem_of_fmap. by exists item. }
    apply rescale_bounds; [done|by apply Hlo|by apply Hhi].
Qed.

Lemma get_default_range (letter_scores : list (ascii * Q)) (letter : ascii) :
  Forall (λ entry : ascii * Q, (0 <= entry.2 <= 10)%Q) letter_scores →
  (0 <= Dict.get_default letter_scores letter 0 <= 10)%Q.
Proof.
  unfold Dict.get_default.
  induction 1 as [|[k v] d Hv _ IH]; [split; discriminate|].
  cbn [Dict.get]. by case_decide.
Qed.

Lemma Qsum_range {A : Type} (f : A → Q) (l : list A) :
  (∀ x, (0 <= f x <= 10)%Q) →
  (0 <= Qsum (f <$> l) <= 10 * Q_of_nat (length l))%Q.
Proof.
  intros Hf. induction l as [|x l [IH0 IH1]].
  - split; [apply Qle_refl|]. simpl. rewrite Qsum_nil. discriminate.
  - rewrite fmap_cons, Qsum_cons. destruct (Hf x) as [H0 H1]. split.
    + replace 0%Q with (0 + 0)%Q by reflexivity. by apply Qplus_le_compat.
    + change (length (x :: l)) with (1 + length l). rewrite Q_of_nat_add.
      apply Qle_trans with (10 + 10 * Q_of_nat (length l))%Q.
      * by apply Qplus_le_compat.
      * apply Qle_lteq. right. change (Q_of_nat 1) with 1%Q. ring.
Qed.

Lemma elements_list_to_set_length (word : list ascii) :
  length (elements (list_to_set word : gset ascii)) ≤ length word.
Proof.
  apply submseteq_length, NoDup_submseteq; [apply NoDup_elements|].
  intros c Hc. apply elem_of_elements in Hc. by apply elem_of_list_to_set in Hc.
Qed.

(** *** Repeated letters under rounding *)

Lemma Qmult_le_nonneg_l (c a b : Q) :
  (0 <= c)%Q → (a <= b)%Q → (c * a <= c * b)%Q.
Proof.
  intros Hc Hab. rewrite (Qmult_comm c a), (Qmult_comm c b).
  by apply Qmult_le_compat_r.
Qed.

Lemma Qsum_fmap_range (f : ascii → Q) (l : list ascii) :
  (∀ c, (0 <= f c <= 10)%Q) → Forall (λ x, (0 <= x <= 10)%Q) (f <$> l).
Proof. intros Hf. apply Forall_fmap, Forall_forall. intros c _. apply Hf. Qed.

(** What a summation of relative error [e] returns for the two sums. *)
Lemma rounded_score_accurate (fsum : list Q → Q)
    (set_order : list ascii → list ascii) (e : Q) (N : nat)
    (letter_scores : list (ascii * Q)) (word : list ascii) (guess_count : Z) :
  Rounded.accurate fsum e N →
  Rounded.iterates_set set_order →
  Forall (λ entry : ascii * Q, (0 <= entry.2 <= 10)%Q) letter_scores →
  length word ≤ N →
  ((1 - e) * calculate_guess_score word letter_scores guess_count
   <= Rounded.calculate_guess_score fsum set_order word letter_scores guess_count
   <= (1 + e) * calculate_guess_score word letter_scores guess_count)%Q.
Proof.
  intros Hacc Hset Hrange Hlen.
  set (f := λ letter, Dict.get_default letter_scores letter 0%Q).
  assert (Hf : ∀ c, (0 <= f c <= 10)%Q)
    by (intros c; by apply get_default_range).
  unfold Rounded.calculate_guess_score, calculate_guess_score.
  destruct (bool_decide (2 < guess_count)%Z).
  - apply Hacc; [by rewrite length_fmap|by apply Qsum_fmap_range].
  - assert (Hsum : (Qsum (f <$> elements (list_to_set word : gset ascii))
                    == Qsum (f <$> set_order word))%Q).
    { apply Qsum_Permutation, fmap_Permutation. symmetry. apply Hset. }
    fold f. rewrite Hsum.
    apply Hacc; [|by apply Qsum_fmap_range].
    rewrite length_fmap, (Hset word).
    etrans; [apply elements_list_to_set_length|done].
Qed.

(** C6 (amended): the score counts a repeated letter once up to guess 2 and
    once per occurrence from guess 3 on, and what the code returns is each
    sum as the interpreter's [sum] rounds it.  For a table with values
    between 0 and 10 and a word of at most [N] letters: the exact sum at
    guess 3 is at least the exact sum at guess 2, and greater exactly when
    the word repeats a letter whose value is positive.  With a summation of
    relative error at most [e < 1], and whatever the order in which
    [set(word)] is iterated, the returned scores [s2] and [s3] satisfy
    [(1 - e) * s2 <= (1 + e) * s3], and [s2 < s3] as soon as the scores of
    the repeated occurrences exceed the rounding error:
    [2 * e * E2 < (1 - e) * (E3 - E2)]. *)
Theorem calculate_guess_score_repeats (fsum : list Q → Q)
    (set_order : list ascii → list ascii) (e : Q) (N : nat)
    (letter_scores : list (ascii * Q)) (word : list ascii) :
  Rounded.accurate fsum e N →
  Rounded.iterates_set set_order →
  (0 <= e < 1)%Q →
  Forall (λ entry : ascii * Q, (0 <= entry.2 <= 10)%Q) letter_scores →
  length word ≤ N →
  let E2 := calculate_guess_score word letter_scores 2 in
  let E3 := calculate_guess_score word letter_scores 3 in
  let s2 := Rounded.calculate_guess_score fsum set_order word letter_scores 2 in
  let s3 := Rounded.calculate_guess_score fsum set_order word letter_scores 3 in
  (E2 <= E3)%Q
  ∧ ((E2 < E3)%Q
     ↔ ∃ L, 2 ≤ count word L ∧ (0 < Dict.get_default letter_scores L 0)%Q)
  ∧ ((1 - e) * E2 <= s2 <= (1 + e) * E2)%Q
  ∧ ((1 - e) * E3 <= s3 <= (1 + e) * E3)%Q
  ∧ ((1 - e) * s2 <= (1 + e) * s3)%Q
  ∧ ((2 * e * E2 < (1 - e) * (E3 - E2))%Q → (s2 < s3)%Q).
Proof.
  intros Hacc Hset [He0 He1] Hrange Hlen E2 E3 s2 s3.
  assert (Hnonneg : Forall (λ entry : ascii * Q, (0 <= entry.2)%Q) letter_scores).
  { eapply Forall_impl; [exact Hrange|]. by intros entry [H _]. }
  destruct (exact_sums_repeats letter_scores word Hnonneg) as [Hle Hiff].
  fold E2 E3 in Hle, Hiff.
  pose proof (rounded_score_accurate fsum set_order e N letter_scores word 2
                Hacc Hset Hrange Hlen) as [H2lo H2hi].
  pose proof (rounded_score_accurate fsum set_order e N letter_scores word 3
                Hacc Hset Hrange Hlen) as [H3lo H3hi].
  fold E2 s2 in H2lo, H2hi. fold E3 s3 in H3lo, H3hi.
  assert (He : (0 <= 1 - e)%Q).
  { apply (Qplus_le_l _ _ e). ring_simplify. by apply Qlt_le_weak. }
  assert (He' : (0 <= 1 + e)%Q).
  { apply Qle_trans with 1%Q; [discriminate|].
    apply (Qplus_le_l _ _ (- 1)). ring_simplify. done. }
  split; [done|]. split; [done|]. split; [done|]. split; [done|]. split.
  - apply Qle_trans with ((1 - e) * ((1 + e) * E3))%Q.
    + apply Qmult_le_nonneg_l; [done|].
      apply Qle_trans with ((1 + e) * E2)%Q; [done|].
      by apply Qmult_le_nonneg_l.
    + assert (Hswap : ((1 - e) * ((1 + e) * E3) == (1 + e) * ((1 - e) * E3))%Q)
        by ring.
      rewrite Hswap. by apply Qmult_le_nonneg_l.
  - intros Hgap.
    apply Qle_lt_trans with ((1 + e) * E2)%Q; [done|].
    apply Qlt_le_trans with ((1 - e) * E3)%Q; [|done].
    apply (Qplus_lt_l _ _ (- ((1 - e) * E2))).
    assert (Hl : ((1 + e) * E2 + - ((1 - e) * E2) == 2 * e * E2)%Q) by ring.
    assert (Hr : ((1 - e) * E3 + - ((1 - e) * E2) == (1 - e) * (E3 - E2))%Q)
      by ring.
    rewrite Hl, Hr. done.
Qed.

(** *** Binary64 summation is accurate *)

Lemma round_half_even_spec (x : Q) :
  (x - (1 # 2) <= inject_Z (Binary64.round_half_even x) <= x + (1 # 2))%Q.
Proof.
  unfold Binary64.round_half_even.
  pose proof (Qfloor_le x) as Hlo. pose proof (Qlt_floor x) as Hhi.
  rewrite inject_Z_plus in Hhi. change (inject_Z 1) with 1%Q in Hhi.
  destruct (x - inject_Z (Qfloor x) ?= 1 # 2)%Q eqn:Hcmp.
  - apply Qeq_alt in Hcmp.
    destruct (Z.even (Qfloor x)); [lra|].
    rewrite inject_Z_plus. change (inject_Z 1) with 1%Q. lra.
  - apply Qlt_alt in Hcmp. lra.
  - apply Qgt_alt in Hcmp. rewrite inject_Z_plus.
    change (inject_Z 1) with 1%Q. lra.
Qed.

Lemma pow2_pos (k : Z) : (0 < 2 ^ k)%Q.
Proof. apply Qpower_0_lt. reflexivity. Qed.

Lemma pow2_plus (a b : Z) : (2 ^ (a + b) == 2 ^ a * 2 ^ b)%Q.
Proof. apply Qpower_plus. discriminate. Qed.

(** A positive quotient [a / b] is at least [2^(log2 a - log2 b - 1)]. *)
Lemma log2_quotient (x : Q) :
  (0 < x)%Q →
  (2 ^ (Z.log2 (Qnum x) - Z.log2 (Z.pos (Qden x)) - 1) <= x)%Q.
Proof.
  intros Hx. destruct x as [a b]. cbn [Qnum Qden].
  assert (Ha : (0 < a)%Z).
  { unfold Qlt in Hx. cbn in Hx. lia. }
  pose proof (Z.log2_spec a Ha) as [Hla _].
  pose proof (Z.log2_spec (Z.pos b) ltac:(lia)) as [_ Hlb].
  pose proof (Z.log2_nonneg a) as Hna.
  pose proof (Z.log2_nonneg (Z.pos b)) as Hnb.
  set (la := Z.log2 a) in *. set (lb := Z.log2 (Z.pos b)) in *.
  replace (la - lb - 1)%Z with (la + - (lb + 1))%Z by lia.
  rewrite pow2_plus, Qpower_opp.
  change 2%Q with (inject_Z 2).
  rewrite <- !Zpower_Qpower by lia.
  assert (Hpb : (0 < 2 ^ (lb + 1))%Z) by (apply Z.pow_pos_nonneg; lia).
  assert (Hpa : (0 < 2 ^ la)%Z) by (apply Z.pow_pos_nonneg; lia).
  unfold Qle, Qmult, Qinv, inject_Z. cbn [Qnum Qden].
  destruct (2 ^ (lb + 1))%Z as [|pb|pb] eqn:Hpbe; try lia.
  cbn [Qnum Qden]. nia.
Qed.

(** The significand has at least 53 bits: [2^52 <= x / 2^k]. *)
Lemma ulp_exponent_spec (x : Q) :
  (0 < x)%Q → (2 ^ (Binary64.ulp_exponent x + 52) <= x)%Q.
Proof.
  intros Hx. unfold Binary64.ulp_exponent.
  set (d := (Z.log2 (Qnum x) - Z.log2 (Z.pos (Qden x)))%Z).
  destruct (Qle_bool (2 ^ d) x) eqn:Htest.
  - apply Qle_bool_iff in Htest.
    by replace (d - 52 + 52)%Z with d by lia.
  - replace (d - 53 + 52)%Z with (d - 1)%Z by lia.
    by apply log2_quotient.
Qed.

Lemma round_pos_accurate (x : Q) :
  (0 < x)%Q →
  ((1 - Binary64.u) * x <= Binary64.round_pos x <= (1 + Binary64.u) * x)%Q.
Proof.
  intros Hx. unfold Binary64.round_pos.
  set (k := Binary64.ulp_exponent x).
  pose proof (ulp_exponent_spec x Hx) as Hk. fold k in Hk.
  rewrite pow2_plus in Hk.
  pose proof (pow2_pos k) as Hp.
  set (p := (2 ^ k)%Q) in *.
  pose proof (round_half_even_spec (x / p)) as [Hlo Hhi].
  set (m := inject_Z (Binary64.round_half_even (x / p))) in *.
  assert (Hx' : (x == x / p * p)%Q) by (field; lra).
  assert (H52 : (2 ^ 52 == 4503599627370496)%Q) by reflexivity.
  rewrite H52 in Hk.
  assert (Hu : (Binary64.u * (p * 4503599627370496) == p * (1 # 2))%Q).
  { unfold Binary64.u. field. }
  set (y := (x / p)%Q) in *.
  assert (Hmlo : ((y - (1 # 2)) * p <= m * p)%Q)
    by (apply Qmult_le_compat_r; lra).
  assert (Hmhi : (m * p <= (y + (1 # 2)) * p)%Q)
    by (apply Qmult_le_compat_r; lra).
  assert (Hux : (Binary64.u * (p * 4503599627370496) <= Binary64.u * x)%Q).
  { apply Qmult_le_nonneg_l; [discriminate|done]. }
  nra.
Qed.

Lemma round_accurate (x : Q) :
  (0 <= x)%Q →
  ((1 - Binary64.u) * x <= Binary64.round x <= (1 + Binary64.u) * x)%Q.
Proof.
  intros Hx. unfold Binary64.round.
  destruct x as [[|a|a] b] eqn:Hxe; cbn [Qnum].
  - assert (Hz : (0 # b == 0)%Q) by reflexivity. rewrite Hz. lra.
  - apply round_pos_accurate. reflexivity.
  - exfalso. unfold Qle in Hx. cbn in Hx. lia.
Qed.

Lemma round_nonneg (x : Q) : (0 <= x)%Q → (0 <= Binary64.round x)%Q.
Proof.
  intros Hx. pose proof (round_accurate x Hx) as [Hlo _].
  assert (Hu : (0 <= 1 - Binary64.u)%Q) by discriminate.
  apply Qle_trans with ((1 - Binary64.u) * x)%Q; [|done].
  by apply Qmult_le_0_compat.
Qed.

Lemma growth_decay (n : nat) :
  (0 <= Binary64.decay n <= 1)%Q ∧ (1 <= Binary64.growth n)%Q
  ∧ (2 <= Binary64.decay n + Binary64.growth n)%Q.
Proof.
  assert (Hu : (0 < Binary64.u < 1)%Q) by (split; reflexivity).
  induction n as [|n (Hd & Hg & Hsum)]; cbn [Binary64.decay Binary64.growth].
  - repeat split; lra.
  - repeat split; nra.
Qed.

Lemma growth_mono (n m : nat) :
  n ≤ m → (Binary64.growth n <= Binary64.growth m)%Q.
Proof.
  assert (Hu : (0 < Binary64.u < 1)%Q) by (split; reflexivity).
  induction 1 as [|m _ IH]; [lra|]. cbn [Binary64.growth].
  pose proof (growth_decay m) as (_ & Hg & _). nra.
Qed.

Lemma sum_snoc (l : list Q) (x : Q) :
  Binary64.sum (l ++ [x]) = Binary64.add (Binary64.sum l) x.
Proof. unfold Binary64.sum. by rewrite foldl_app. Qed.

Lemma Qsum_snoc (l : list Q) (x : Q) : (Qsum (l ++ [x]) == Qsum l + x)%Q.
Proof.
  rewrite (Qsum_Permutation (l ++ [x]) (x :: l)).
  - rewrite Qsum_cons. ring.
  - by rewrite Permutation_app_comm.
Qed.

(** Left-to-right summation of [n] non-negative terms. *)
Lemma sum_accurate (l : list Q) :
  Forall (λ x, (0 <= x)%Q) l →
  (Binary64.decay (length l) * Qsum l <= Binary64.sum l
   <= Binary64.growth (length l) * Qsum l)%Q.
Proof.
  assert (Hu : (0 < Binary64.u < 1)%Q) by (split; reflexivity).
  induction l as [|x l IH] using rev_ind; intros Hl.
  - unfold Binary64.sum.
    cbn [foldl length Binary64.decay Binary64.growth]. rewrite Qsum_nil. lra.
  - apply Forall_app in Hl as [Hl Hx]. rewrite Forall_singleton in Hx.
    destruct (IH Hl) as [IHlo IHhi].
    rewrite sum_snoc, Qsum_snoc, length_app. cbn [length].
    replace (length l + 1) with (S (length l)) by lia.
    cbn [Binary64.decay Binary64.growth].
    pose proof (growth_decay (length l)) as ((Hd0 & Hd1) & Hg & _).
    assert (Hsum : (0 <= Qsum l)%Q) by by apply Qsum_nonneg.
    assert (Hs : (0 <= Binary64.sum l)%Q).
    { apply Qle_trans with (Binary64.decay (length l) * Qsum l)%Q; [|done].
      by apply Qmult_le_0_compat. }
    unfold Binary64.add.
    pose proof (round_accurate (Binary64.sum l + x) ltac:(lra)) as [Hlo Hhi].
    set (s := Binary64.sum l) in *. set (r := Binary64.round (s + x)) in *.
    set (d := Binary64.decay (length l)) in *. set (g := Binary64.growth (length l)) in *.
    set (S := Qsum l) in *.
    split.
    + apply Qle_trans with ((1 - Binary64.u) * (s + x))%Q; [|done].
      assert (H1 : (d * (S + x) <= s + x)%Q) by nra.
      assert (H2 : ((1 - Binary64.u) * (d * (S + x))
                    <= (1 - Binary64.u) * (s + x))%Q)
        by (apply Qmult_le_nonneg_l; lra).
      lra.
    + apply Qle_trans with ((1 + Binary64.u) * (s + x))%Q; [done|].
      assert (H1 : (s + x <= g * (S + x))%Q) by nra.
      assert (H2 : ((1 + Binary64.u) * (s + x)
                    <= (1 + Binary64.u) * (g * (S + x)))%Q)
        by (apply Qmult_le_nonneg_l; lra).
      lra.
Qed.

(** Binary64 summation meets the accuracy assumption, with
    [e = (1 + 2^-53)^N - 1]. *)
Lemma binary64_sum_accurate (N : nat) :
  Rounded.accurate Binary64.sum (Binary64.growth N - 1) N.
Proof.
  intros l Hlen Hl.
  assert (Hl' : Forall (λ x, (0 <= x)%Q) l).
  { eapply Forall_impl; [exact Hl|]. by intros x [H _]. }
  destruct (sum_accurate l Hl') as [Hlo Hhi].
  pose proof (growth_decay (length l)) as ((Hd0 & Hd1) & Hg & Hdg).
  pose proof (growth_mono _ _ Hlen) as Hmono.
  assert (Hsum : (0 <= Qsum l)%Q) by by apply Qsum_nonneg.
  set (s := Binary64.sum l) in *.
  set (d := Binary64.decay (length l)) in *. set (g := Binary64.growth (length l)) in *.
  set (G := Binary64.growth N) in *. set (S := Qsum l) in *.
  split; nra.
Qed.

Lemma exact_summation_accurate (e : Q) (N : nat) :
  (0 <= e)%Q → Rounded.accurate Qsum e N.
Proof.
  intros He l _ Hl.
  assert (Hsum : (0 <= Qsum l)%Q).
  { apply Qsum_nonneg. eapply Forall_impl; [exact Hl|]. by intros x [H _]. }
  assert (Hprod : (0 <= e * Qsum l)%Q) by by apply Qmult_le_0_compat.
  assert (Hlo : ((1 - e) * Qsum l + e * Qsum l == Qsum l)%Q) by ring.
  assert (Hhi : ((1 + e) * Qsum l == Qsum l + e * Qsum l)%Q) by ring.
  split.
  - rewrite <- Hlo at 2.
    apply Qle_trans with ((1 - e) * Qsum l + 0)%Q;
      [rewrite Qplus_0_r; apply Qle_refl|].
    by apply Qplus_le_r.
  - rewrite Hhi.
    apply Qle_trans with (Qsum l + 0)%Q; [rewrite Qplus_0_r; apply Qle_refl|].
    by apply Qplus_le_r.
Qed.

Lemma calculate_guess_score_repeats_witness :
  let letter_scores := [("a"%char, 10%Q); ("p"%char, 5%Q); ("l"%char, 3%Q);
                        ("e"%char, 8%Q)] in
  let set_order := λ word, elements (list_to_set word : gset ascii) in
  let e := (Binary64.growth 5 - 1)%Q in
  Rounded.accurate Binary64.sum e 5
  ∧ Rounded.iterates_set set_order
  ∧ Forall (λ entry : ascii * Q, (0 <= entry.2 <= 10)%Q) letter_scores
  ∧ (Rounded.calculate_guess_score Binary64.sum set_order (py "apple")
       letter_scores 2
     < Rounded.calculate_guess_score Binary64.sum set_order (py "apple")
         letter_scores 3)%Q.
Proof.
  intros letter_scores set_order e.
  assert (Hacc : Rounded.accurate Binary64.sum e 5)
    by apply binary64_sum_accurate.
  assert (Hset : Rounded.iterates_set set_order) by (intros word; reflexivity).
  assert (H : Forall (λ entry : ascii * Q, (0 <= entry.2 <= 10)%Q) letter_scores).
  { repeat constructor; discriminate. }
  split; [exact Hacc|]. split; [exact Hset|]. split; [exact H|].
  apply (calculate_guess_score_repeats Binary64.sum set_order e 5 letter_scores
           (py "apple") Hacc Hset);
    [split; vm_compute; [discriminate|reflexivity]|exact H|simpl; lia|].
  vm_compute. reflexivity.
Defined.

(** The order of the additions shows.  The basis adcdd, eaaac gives the
    percentages 40, 30, 20, 10 for a, d, c, e, which the normalizer maps to
    10, 6.666666666666666, 3.333333333333333 and 0.  The word adc, which
    repeats no letter, scores 20 at guess 2 (its letters come out of the
    set in the order c, a, d) and 19.999999999999996 at guess 3; its
    anagram acd scores 20 at guess 3. *)
Example calculate_guess_score_binary64_order :
  let d := Binary64.mul (Binary64.div (Binary64.sub 30 10) (Binary64.sub 40 10))
             10 in
  let c := Binary64.mul (Binary64.div (Binary64.sub 20 10) (Binary64.sub 40 10))
             10 in
  let letter_scores :=
    [("a"%char, 10%Q); ("d"%char, d); ("c"%char, c); ("e"%char, 0%Q)] in
  let set_order := λ word, elements (list_to_set word : gset ascii) in
  (Binary64.mul (Binary64.div 4 10) 100 == 40)%Q
  ∧ (Binary64.mul (Binary64.div 3 10) 100 == 30)%Q
  ∧ (Binary64.mul (Binary64.div 2 10) 100 == 20)%Q
  ∧ (Binary64.mul (Binary64.div 1 10) 100 == 10)%Q
  ∧ (d == Binary64.literal 6666666666666666)%Q
  ∧ (c == Binary64.literal 3333333333333333)%Q
  ∧ (Rounded.calculate_guess_score Binary64.sum set_order (py "adc")
       letter_scores 2 == 20)%Q
  ∧ (Rounded.calculate_guess_score Binary64.sum set_order (py "adc")
       letter_scores 3 == Binary64.literal 19999999999999996)%Q
  ∧ (Rounded.calculate_guess_score Binary64.sum set_order (py "acd")
       letter_scores 3 == 20)%Q
  ∧ (Binary64.literal 19999999999999996 < 20)%Q.
Proof. repeat split; vm_compute; reflexivity. Qed.

(** X9: with letter scores between 0 and 10 a word's score lies between 0
    and ten times its length, at every guess index. *)
Theorem calculate_guess_score_range (word : list ascii)
    (letter_scores : list (ascii * Q)) (guess_count : Z) :
  Forall (λ entry : ascii * Q, (0 <= entry.2 <= 10)%Q) letter_scores →
  (0 <= calculate_guess_score word letter_scores guess_count
   <= 10 * Q_of_nat (length word))%Q.
Proof.
  intros Hrange. unfold calculate_guess_score.
  set (f := λ letter, Dict.get_default letter_scores letter 0%Q).
  assert (Hf : ∀ letter, (0 <= f letter <= 10)%Q)
    by (intros letter; by apply get_default_range).
  destruct (bool_decide _); [by apply Qsum_range|].
  destruct (Qsum_range f (elements (list_to_set word : gset ascii)) Hf)
    as [H0 H1].
  split; [done|]. eapply Qle_trans; [exact H1|].
  apply Qmult_le_l; [reflexivity|].
  unfold Q_of_nat. rewrite <- Zle_Qle.
  apply inj_le, elements_list_to_set_length.
Qed.

Lemma calculate_guess_score_range_witness :
  let letter_scores := [("a"%char, 10%Q); ("p"%char, 5%Q); ("l"%char, 3%Q);
                        ("e"%char, 8%Q)] in
  Forall (λ entry : ascii * Q, (0 <= entry.2 <= 10)%Q) letter_scores
  ∧ (0 <= calculate_guess_score (py "apple") letter_scores 3
     <= 10 * Q_of_nat (length (py "apple")))%Q.
Proof.
  intros letter_scores.
  assert (H : Forall (λ entry : ascii * Q, (0 <= entry.2 <= 10)%Q) letter_scores).
  { repeat constructor; discriminate. }
  split; [exact H|].
  exact (calculate_guess_score_range (py "apple") letter_scores 3 H).
Defined.

Lemma prefix_elem_of {A : Type} (l1 l2 : list A) (x : A) :
  l1 `prefix_of` l2 → x ∈ l1 → x ∈ l2.
Proof. intros [k ->] Hx. apply elem_of_app. by left. Qed.

Lemma recommend_guesses_in_pool (word_list : list (list ascii)) (len : Z)
    (prefix : option (list ascii)) (n guess_count : Z)
    (score_base_word_list : option (list (list ascii)))
    (word : list ascii) (score : Q) :
  (word, score)
    ∈ recommend_guesses word_list len prefix n guess_count score_base_word_list →
  word ∈ filter (λ word, matches_length_prefix len prefix word = true) word_list
  ∧ score = calculate_guess_score word
              (normalize_letter_frequencies
                 (calculate_letter_frequency
                    (default word_list score_base_word_list) len prefix))
              guess_count.
Proof.
  rewrite recommend_guesses_slice. intros Hin.
  apply (prefix_elem_of _ _ _ (slice_to_prefix _ n)) in Hin.
  rewrite sort_desc_Permutation in Hin.
  by apply list_elem_of_fmap in Hin as (w & [= -> ->] & Hw).
Qed.

Lemma exact_sums_anagram (word1 word2 : list ascii)
    (letter_scores : list (ascii * Q)) (guess_count : Z) :
  word1 ≡ₚ word2 →
  (calculate_guess_score word1 letter_scores guess_count
   == calculate_guess_score word2 letter_scores guess_count)%Q.
Proof.
  intros Hperm. unfold calculate_guess_score. destruct (bool_decide _).
  - by apply Qsum_Permutation, fmap_Permutation.
  - assert ((list_to_set word1 : gset ascii) = list_to_set word2) as ->; [|reflexivity].
    apply set_eq. intros c. rewrite !elem_of_list_to_set. by rewrite Hperm.
Qed.

Lemma exact_sums_no_repeat (word : list ascii)
    (letter_scores : list (ascii * Q)) (guess_count1 guess_count2 : Z) :
  NoDup word →
  (calculate_guess_score word letter_scores guess_count1
   == calculate_guess_score word letter_scores guess_count2)%Q.
Proof.
  intros Hnd.
  assert (H : (Qsum ((λ letter, Dict.get_default letter_scores letter 0%Q)
                       <$> elements (list_to_set word : gset ascii))
               == Qsum ((λ letter, Dict.get_default letter_scores letter 0%Q)
                          <$> word))%Q).
  { apply Qsum_Permutation, fmap_Permutation. by apply elements_list_to_set. }
  unfold calculate_guess_score.
  destruct (bool_decide (2 < guess_count1)%Z), (bool_decide (2 < guess_count2)%Z);
    first [reflexivity | exact H | symmetry; exact H].
Qed.

(** Two roundings of the same exact sum differ by at most the factor
    [(1 + e) / (1 - e)]. *)
Lemma rounded_close (e E1 E2 s1 s2 : Q) :
  (0 <= e < 1)%Q → (E1 == E2)%Q →
  (s1 <= (1 + e) * E1)%Q → ((1 - e) * E2 <= s2)%Q →
  ((1 - e) * s1 <= (1 + e) * s2)%Q.
Proof.
  intros [He0 He1] HE H1 H2.
  assert (He : (0 <= 1 - e)%Q).
  { apply (Qplus_le_l _ _ e).
    assert (H : (1 - e + e == 1)%Q) by ring.
    rewrite H, Qplus_0_l. by apply Qlt_le_weak. }
  assert (He' : (0 <= 1 + e)%Q).
  { apply Qle_trans with (0 + e)%Q; [by rewrite Qplus_0_l|].
    apply Qplus_le_l. discriminate. }
  apply Qle_trans with ((1 - e) * ((1 + e) * E1))%Q;
    [by apply Qmult_le_nonneg_l|].
  assert (Hswap : ((1 - e) * ((1 + e) * E1) == (1 + e) * ((1 - e) * E2))%Q)
    by (rewrite HE; ring).
  rewrite Hswap. by apply Qmult_le_nonneg_l.
Qed.

(** X10: anagrams have the same exact sum, but the code's scores need not
    be equal: [sum] adds the letters in the order of the word.  With a
    summation of relative error at most [e] the scores of two anagrams, at
    the same guess index and under a table with values between 0 and 10,
    differ by at most the factor [(1 + e) / (1 - e)], in either direction. *)
Theorem calculate_guess_score_anagram (fsum : list Q → Q)
    (set_order : list ascii → list ascii) (e : Q) (N : nat)
    (word1 word2 : list ascii) (letter_scores : list (ascii * Q))
    (guess_count : Z) :
  Rounded.accurate fsum e N →
  Rounded.iterates_set set_order →
  (0 <= e < 1)%Q →
  Forall (λ entry : ascii * Q, (0 <= entry.2 <= 10)%Q) letter_scores →
  length word1 ≤ N →
  word1 ≡ₚ word2 →
  let s1 := Rounded.calculate_guess_score fsum set_order word1 letter_scores
              guess_count in
  let s2 := Rounded.calculate_guess_score fsum set_order word2 letter_scores
              guess_count in
  (calculate_guess_score word1 letter_scores guess_count
   == calculate_guess_score word2 letter_scores guess_count)%Q
  ∧ ((1 - e) * s1 <= (1 + e) * s2)%Q
  ∧ ((1 - e) * s2 <= (1 + e) * s1)%Q.
Proof.
  intros Hacc Hset He Hrange Hlen Hperm s1 s2.
  assert (Hlen2 : length word2 ≤ N) by by rewrite <- Hperm.
  pose proof (exact_sums_anagram word1 word2 letter_scores guess_count Hperm)
    as HE.
  destruct (rounded_score_accurate fsum set_order e N letter_scores word1
              guess_count Hacc Hset Hrange Hlen) as [H1lo H1hi].
  destruct (rounded_score_accurate fsum set_order e N letter_scores word2
              guess_count Hacc Hset Hrange Hlen2) as [H2lo H2hi].
  split; [done|]. split.
  - by eapply rounded_close.
  - eapply rounded_close; [done|symmetry; exact HE|done..].
Qed.

Lemma calculate_guess_score_anagram_witness :
  let letter_scores := [("e"%char, 10%Q); ("s"%char, 4%Q)] in
  let set_order := λ word, elements (list_to_set word : gset ascii) in
  let e := (Binary64.growth 5 - 1)%Q in
  py "stale" ≡ₚ py "elats"
  ∧ ((1 - e) * Rounded.calculate_guess_score Binary64.sum set_order
                 (py "stale") letter_scores 3
     <= (1 + e) * Rounded.calculate_guess_score Binary64.sum set_order
                    (py "elats") letter_scores 3)%Q.
Proof.
  intros letter_scores set_order e.
  assert (H : py "stale" ≡ₚ py "elats")
    by apply (Permutation_sym (reverse_Permutation (py "stale"))).
  split; [exact H|].
  apply (calculate_guess_score_anagram Binary64.sum set_order e 5 (py "stale")
           (py "elats") letter_scores 3).
  - apply binary64_sum_accurate.
  - intros word. reflexivity.
  - split; vm_compute; [discriminate|reflexivity].
  - repeat constructor; discriminate.
  - simpl. lia.
  - exact H.
Defined.

(** X11: a word without a repeated letter has the same exact sum at every
    guess index, but the code adds its letters in the order of [set(word)]
    up to guess 2 and in the order of the word from guess 3 on, so that the
    two scores can differ by rounding: with a summation of relative error at
    most [e], by at most the factor [(1 + e) / (1 - e)]. *)
Theorem calculate_guess_score_no_repeat (fsum : list Q → Q)
    (set_order : list ascii → list ascii) (e : Q) (N : nat)
    (word : list ascii) (letter_scores : list (ascii * Q))
    (guess_count1 guess_count2 : Z) :
  Rounded.accurate fsum e N →
  Rounded.iterates_set set_order →
  (0 <= e < 1)%Q →
  Forall (λ entry : ascii * Q, (0 <= entry.2 <= 10)%Q) letter_scores →
  length word ≤ N →
  NoDup word →
  let s1 := Rounded.calculate_guess_score fsum set_order word letter_scores
              guess_count1 in
  let s2 := Rounded.calculate_guess_score fsum set_order word letter_scores
              guess_count2 in
  (calculate_guess_score word letter_scores guess_count1
   == calculate_guess_score word letter_scores guess_count2)%Q
  ∧ ((1 - e) * s1 <= (1 + e) * s2)%Q.
Proof.
  intros Hacc Hset He Hrange Hlen Hnd s1 s2.
  pose proof (exact_sums_no_repeat word letter_scores guess_count1 guess_count2
                Hnd) as HE.
  destruct (rounded_score_accurate fsum set_order e N letter_scores word
              guess_count1 Hacc Hset Hrange Hlen) as [H1lo H1hi].
  destruct (rounded_score_accurate fsum set_order e N letter_scores word
              guess_count2 Hacc Hset Hrange Hlen) as [H2lo H2hi].
  split; [done|]. by eapply rounded_close.
Qed.

Lemma calculate_guess_score_no_repeat_witness :
  let letter_scores := [("e"%char, 10%Q); ("c"%char, 4%Q)] in
  let set_order := λ word, elements (list_to_set word : gset ascii) in
  let e := (Binary64.growth 5 - 1)%Q in
  NoDup (py "crane")
  ∧ ((1 - e) * Rounded.calculate_guess_score Binary64.sum set_order
                 (py "crane") letter_scores 1
     <= (1 + e) * Rounded.calculate_guess_score Binary64.sum set_order
                    (py "crane") letter_scores 6)%Q.
Proof.
  intros letter_scores set_order e.
  assert (H : NoDup (py "crane")).
  { apply NoDup_ListNoDup. repeat constructor; simpl; intros Hin;
      repeat (destruct Hin as [Hin|Hin]; [discriminate|]); done. }
  split; [exact H|].
  apply (calculate_guess_score_no_repeat Binary64.sum set_order e 5
           (py "crane") letter_scores 1 6).
  - apply binary64_sum_accurate.
  - intros word. reflexivity.
  - split; vm_compute; [discriminate|reflexivity].
  - repeat constructor; discriminate.
  - simpl. lia.
  - exact H.
Defined.

(** ** The reply of the handler *)

Lemma candidates_elem_of words word_length prefix h word :
  word ∈ candidates words word_length prefix h
  ↔ word ∈ words
    ∧ matches_length_prefix word_length prefix word = true
    ∧ ∀ entry, entry ∈ h → possible (entry_feedback entry) word.
Proof.
  unfold candidates. rewrite !list_elem_of_filter, Forall_forall. tauto.
Qed.

Lemma candidates_matches words word_length prefix h :
  filter (λ word, matches_length_prefix word_length prefix word = true)
    (candidates words word_length prefix h)
  = candidates words word_length prefix h.
Proof.
  apply filter_all, Forall_forall. intros word Hword.
  apply candidates_elem_of in Hword. tauto.
Qed.

Lemma candidates_snoc words word_length prefix h entry :
  candidates words word_length prefix (h ++ [entry])
  = filter (possible (entry_feedback entry))
      (candidates words word_length prefix h).
Proof.
  unfold candidates.
  rewrite (list_filter_filter (possible (entry_feedback entry))).
  apply list_filter_iff.
  intros word. rewrite Forall_app, Forall_singleton. tauto.
Qed.

Lemma filler_suggestions_elem_of words possible_words word_length
    variable_letters word :
  word ∈ filler_suggestions words possible_words word_length variable_letters →
  word ∈ words ∧ Z.of_nat (length word) = word_length.
Proof.
  unfold filler_suggestions. destruct (_ && _); [|by intros ?%elem_of_nil].
  rewrite filler_words_sort. intros Hin.
  apply (prefix_elem_of _ _ _ (slice_to_prefix _ 9)) in Hin.
  rewrite sort_desc_Permutation in Hin.
  apply filler_candidates_elem_of in Hin. tauto.
Qed.

Lemma filler_suggestions_length words possible_words word_length variable_letters :
  length (filler_suggestions words possible_words word_length variable_letters)
  ≤ 9.
Proof.
  unfold filler_suggestions. destruct (_ && _); [|simpl; lia].
  rewrite filler_words_sort, slice_to_length by lia. lia.
Qed.

(** X12: the reply to a valid request.  The candidates are the dictionary
    words of the requested length and prefix that meet every feedback of the
    history; [remainingCount] is their number and [remainingWords] their
    first 100; [guessCount] is the length of the history plus one; there are
    [min(9, remainingCount)] recommendations, all of them candidates; the
    filler suggestions are at most 9 dictionary words of the requested
    length. *)
Theorem calculate_next_move_reply
    (load : string → result (list (list ascii)))
    (data : Request) (cfg : Config) (word_length : Z)
    (words : list (list ascii)) :
  config data = Some cfg →
  default (JInt 5) (wordLength cfg) = JInt word_length →
  (1 ≤ word_length)%Z →
  load (default "english.json"%string (dictionary cfg)) = Ok words →
  Forall (well_formed_entry word_length) (default [] (history data)) →
  let h := default [] (history data) in
  let possible_words := candidates words word_length (prefix cfg) h in
  ∃ r : Success,
    calculate_next_move load data = Reply r
    ∧ remainingCount r = length possible_words
    ∧ remainingWords r = take 100 possible_words
    ∧ guessCount r = length h + 1
    ∧ length (recommendations r) = 9 `min` length possible_words
    ∧ (∀ word score, (word, score) ∈ recommendations r → word ∈ possible_words)
    ∧ length (fillerSuggestions r) ≤ 9
    ∧ (∀ word, word ∈ fillerSuggestions r →
         word ∈ words ∧ Z.of_nat (length word) = word_length).
Proof.
  intros Hcfg Hwl Hpos Hload Hwf h pw.
  destruct (calculate_next_move_valid load data cfg word_length words
              Hcfg Hwl Hpos Hload Hwf) as (vp & _ & ->).
  fold h. fold pw. eexists. split; [reflexivity|].
  cbn [remainingCount remainingWords guessCount recommendations fillerSuggestions].
  split; [done|]. split; [done|]. split; [done|]. split; [|split; [|split]].
  - rewrite length_fmap, recommend_guesses_slice.
    rewrite slice_to_length, sort_desc_length, length_fmap by lia.
    subst pw. by rewrite candidates_matches.
  - intros word score (item & [= -> _] & Hitem)%list_elem_of_fmap.
    destruct item as [w s].
    apply recommend_guesses_in_pool in Hitem as [Hitem _].
    by apply list_elem_of_filter in Hitem as [_ Hitem].
  - apply filler_suggestions_length.
  - intros word. apply filler_suggestions_elem_of.
Qed.

Definition crane_request : Request :=
  {| config := Some default_config;
     history := Some [ {| guess := Some (py "crane");
                          feedback := Some (py "bbgbg") |} ] |}.

Lemma crane_request_well_formed :
  Forall (well_formed_entry 5) (default [] (history crane_request)).
Proof.
  repeat constructor. exists (py "crane"), (py "bbgbg").
  repeat split; try done.
  repeat constructor; apply list_elem_of_In; simpl; tauto.
Qed.

Lemma calculate_next_move_reply_witness :
  Forall (well_formed_entry 5) (default [] (history crane_request))
  ∧ ∃ r, calculate_next_move five_words crane_request = Reply r
         ∧ remainingWords r = [py "slate"]
         ∧ guessCount r = 2.
Proof.
  split; [exact crane_request_well_formed|].
  destruct (calculate_next_move_reply five_words crane_request default_config 5
              [py "apple"; py "crane"; py "slate"; py "audio"; py "house"]
              eq_refl eq_refl ltac:(lia) eq_refl crane_request_well_formed)
    as (r & Hr & _ & Hwords & Hcount & _).
  exists r. split; [exact Hr|]. split; [|exact Hcount].
  rewrite Hwords. vm_compute. reflexivity.
Defined.

(** X13: one more guess never widens the search.  When a history followed
    by one more entry is valid, the reply to the longer history counts at
    most as many candidates as the reply to the shorter one, and its
    guess count is one more. *)
Theorem calculate_next_move_narrows
    (load : string → result (list (list ascii)))
    (data : Request) (cfg : Config) (word_length : Z)
    (words : list (list ascii)) (h : list HistoryEntry) (entry : HistoryEntry) :
  config data = Some cfg →
  default (JInt 5) (wordLength cfg) = JInt word_length →
  (1 ≤ word_length)%Z →
  load (default "english.json"%string (dictionary cfg)) = Ok words →
  Forall (well_formed_entry word_length) (h ++ [entry]) →
  ∃ r r' : Success,
    calculate_next_move load (with_history data h) = Reply r
    ∧ calculate_next_move load (with_history data (h ++ [entry])) = Reply r'
    ∧ remainingCount r' ≤ remainingCount r
    ∧ guessCount r' = guessCount r + 1.
Proof.
  intros Hcfg Hwl Hpos Hload Hwf.
  assert (Hwf' : Forall (well_formed_entry word_length) h)
    by (apply Forall_app in Hwf; tauto).
  destruct (calculate_next_move_valid load (with_history data h) cfg word_length
              words Hcfg Hwl Hpos Hload Hwf') as (vp & _ & ->).
  destruct (calculate_next_move_valid load (with_history data (h ++ [entry])) cfg
              word_length words Hcfg Hwl Hpos Hload Hwf) as (vp' & _ & ->).
  eexists _, _. split; [reflexivity|]. split; [reflexivity|].
  cbn [remainingCount guessCount with_history history default from_option].
  unfold id. rewrite candidates_snoc, length_app. split; [apply length_filter|].
  simpl. lia.
Qed.

Lemma calculate_next_move_narrows_witness :
  Forall (well_formed_entry 5) ([] ++ default [] (history crane_request))
  ∧ ∃ r r',
      calculate_next_move five_words (with_history crane_request []) = Reply r
      ∧ calculate_next_move five_words crane_request = Reply r'
      ∧ remainingCount r' ≤ remainingCount r.
Proof.
  split; [exact crane_request_well_formed|].
  destruct (calculate_next_move_narrows five_words crane_request default_config 5
              [py "apple"; py "crane"; py "slate"; py "audio"; py "house"] []
              {| guess := Some (py "crane"); feedback := Some (py "bbgbg") |}
              eq_refl eq_refl ltac:(lia) eq_refl crane_request_well_formed)
    as (r & r' & Hr & Hr' & Hle & _).
  exists r, r'. split; [exact Hr|]. split; [exact Hr'|exact Hle].
Defined.

(** ** Frequency tables *)

(** The entries of the table: one per counted letter, with its share. *)
Lemma calculate_letter_frequency_elem_of (word_list : list (list ascii))
    (len : Z) (prefix : option (list ascii)) (letter : ascii) (p : Q) :
  let all_letters := counted_letters word_list len prefix in
  (letter, p) ∈ calculate_letter_frequency word_list len prefix
  ↔ letter ∈ all_letters
    ∧ p = (Q_of_nat (count all_letters letter)
           / Q_of_nat (length all_letters) * 100)%Q.
Proof.
  intros all_letters. rewrite calculate_letter_frequency_unfold.
  fold all_letters. cbv zeta. rewrite Counter_sum. case_decide as Hz.
  - apply length_zero_iff_nil in Hz. rewrite Hz. split.
    + by intros ?%elem_of_nil.
    + by intros [?%elem_of_nil _].
  - rewrite sort_desc_Permutation, list_elem_of_fmap. split.
    + intros ([k n] & [= -> ->] & [Hk ->]%Counter_elem_of). done.
    + intros [Hin ->]. exists (letter, count all_letters letter).
      split; [done|]. by apply Counter_elem_of.
Qed.

Lemma count_le_length (word : list ascii) (letter : ascii) :
  count word letter ≤ length word.
Proof. unfold count. apply length_filter. Qed.

Lemma Q_of_nat_le (m n : nat) : m ≤ n → (Q_of_nat m <= Q_of_nat n)%Q.
Proof. intros H. unfold Q_of_nat. rewrite <- Zle_Qle. lia. Qed.

Lemma Q_of_nat_lt (m n : nat) : m < n ↔ (Q_of_nat m < Q_of_nat n)%Q.
Proof. unfold Q_of_nat. rewrite <- Zlt_Qlt. lia. Qed.

Lemma share_lt (m n total : nat) :
  0 < total →
  m < n ↔ (Q_of_nat m / Q_of_nat total * 100 < Q_of_nat n / Q_of_nat total * 100)%Q.
Proof.
  intros Htotal. apply Q_of_nat_pos in Htotal. rewrite Q_of_nat_lt.
  assert (Hinv : (0 < / Q_of_nat total * 100)%Q).
  { apply Qmult_lt_0_compat; [by apply Qinv_lt_0_compat|reflexivity]. }
  unfold Qdiv. rewrite <- !Qmult_assoc.
  symmetry. apply Qmult_lt_r. done.
Qed.

(** X14: the frequency table is in descending order of percentage, and every
    percentage in it is positive and at most 100. *)
Theorem calculate_letter_frequency_sorted (word_list : list (list ascii))
    (len : Z) (prefix : option (list ascii)) :
  let table := calculate_letter_frequency word_list len prefix in
  StronglySorted (λ a b : ascii * Q, (b.2 <= a.2)%Q) table
  ∧ Forall (λ entry : ascii * Q, (0 < entry.2 <= 100)%Q) table.
Proof.
  intros table. split.
  - subst table. rewrite calculate_letter_frequency_unfold. cbv zeta.
    case_decide; [constructor|].
    eapply StronglySorted_weaken;
      [|apply (sort_desc_sorted (λ x y : ascii * Q, Qltb x.2 y.2))].
    + intros a b. apply Qltb_false.
    + intros a b. apply Qltb_asym.
    + intros a b c. apply Qltb_ge_trans.
  - apply Forall_forall. intros [letter p] Hin.
    apply calculate_letter_frequency_elem_of in Hin as [Hletter ->]. cbn [snd].
    set (all_letters := counted_letters word_list len prefix) in *.
    assert (Hc : 0 < count all_letters letter) by (by apply count_pos).
    assert (Hle := count_le_length all_letters letter).
    assert (Htotal : (0 < Q_of_nat (length all_letters))%Q)
      by (apply Q_of_nat_pos; lia).
    split.
    + apply Qmult_lt_0_compat; [|reflexivity].
      apply Qlt_shift_div_l; [done|]. rewrite Qmult_0_l.
      by apply Q_of_nat_pos.
    + apply Qle_trans with (1 * 100)%Q; [|apply Qle_refl].
      apply Qmult_le_compat_r; [|discriminate].
      apply Qle_shift_div_r; [done|]. rewrite Qmult_1_l.
      by apply Q_of_nat_le.
Qed.

(** X15: a letter that is counted more often has a strictly higher
    percentage in the table, and a letter counted equally often the same
    percentage. *)
Theorem calculate_letter_frequency_monotone (word_list : list (list ascii))
    (len : Z) (prefix : option (list ascii)) (l1 l2 : ascii) (p1 p2 : Q) :
  (l1, p1) ∈ calculate_letter_frequency word_list len prefix →
  (l2, p2) ∈ calculate_letter_frequency word_list len prefix →
  let all_letters := counted_letters word_list len prefix in
  (count all_letters l1 < count all_letters l2 ↔ (p1 < p2)%Q)
  ∧ (count all_letters l1 = count all_letters l2 → p1 = p2).
Proof.
  intros [H1 ->]%calculate_letter_frequency_elem_of
         [H2 ->]%calculate_letter_frequency_elem_of all_letters.
  fold all_letters in H1, H2 |- *. split.
  - apply share_lt. apply count_pos in H1.
    pose proof (count_le_length all_letters l1). lia.
  - by intros ->.
Qed.

Lemma calculate_letter_frequency_monotone_witness :
  let table := calculate_letter_frequency [py "a"; py "b"; py "a"] 1 None in
  ("b"%char, (inject_Z 1 / inject_Z 3 * 100)%Q) ∈ table
  ∧ ("a"%char, (inject_Z 2 / inject_Z 3 * 100)%Q) ∈ table
  ∧ (inject_Z 1 / inject_Z 3 * 100 < inject_Z 2 / inject_Z 3 * 100)%Q.
Proof.
  intros table.
  assert (Hb : ("b"%char, (inject_Z 1 / inject_Z 3 * 100)%Q) ∈ table)
    by (vm_compute; right; left).
  assert (Ha : ("a"%char, (inject_Z 2 / inject_Z 3 * 100)%Q) ∈ table)
    by (vm_compute; left).
  split; [exact Hb|]. split; [exact Ha|].
  apply (calculate_letter_frequency_monotone _ _ _ _ _ _ _ Hb Ha).
  vm_compute. lia.
Defined.

(** ** Normalized scores *)

Lemma rescale_monotone (lo hi v w : Q) :
  (lo < hi)%Q → (v <= w)%Q →
  ((v - lo) / (hi - lo) * 10 <= (w - lo) / (hi - lo) * 10)%Q.
Proof.
  intros Hlt Hvw.
  assert (Hpos : (0 < hi - lo)%Q) by (rewrite <- (Qlt_minus_iff lo hi); done).
  apply Qmult_le_compat_r; [|discriminate].
  unfold Qdiv. apply Qmult_le_compat_r.
  - apply Qplus_le_compat; [done|apply Qle_refl].
  - apply Qlt_le_weak. by apply Qinv_lt_0_compat.
Qed.

(** X16: normalization keeps the order of the values: of two entries of a
    table, the one with the smaller frequency gets the smaller (or an equal)
    score. *)
Theorem normalize_letter_frequencies_monotone (frequencies : list (ascii * Q))
    (i j : nat) (l1 l2 : ascii) (v1 v2 : Q) :
  frequencies !! i = Some (l1, v1) →
  frequencies !! j = Some (l2, v2) →
  (v1 <= v2)%Q →
  ∃ s1 s2,
    normalize_letter_frequencies frequencies !! i = Some (l1, s1)
    ∧ normalize_letter_frequencies frequencies !! j = Some (l2, s2)
    ∧ (s1 <= s2)%Q.
Proof.
  intros Hi Hj Hle.
  destruct frequencies as [|entry rest]; [by rewrite lookup_nil in Hi|].
  rewrite normalize_letter_frequencies_cons. cbv zeta.
  set (hi := Qmaximum entry.2 (Dict.values rest)).
  set (lo := Qminimum entry.2 (Dict.values rest)).
  destruct (Qmaximum_spec entry.2 (Dict.values rest)) as [Hhi_in Hhi].
  destruct (Qminimum_spec entry.2 (Dict.values rest)) as [Hlo_in Hlo].
  fold hi in Hhi_in, Hhi. fold lo in Hlo_in, Hlo.
  destruct (Qeq_bool hi lo) eqn:Heq.
  - exists 5%Q, 5%Q. rewrite !list_lookup_fmap, Hi, Hj. by split; [|split].
  - assert (Hlt : (lo < hi)%Q).
    { apply Qnot_le_lt. intros H.
      assert (Hq : (hi == lo)%Q) by (apply Qle_antisym; [done|by apply Hlo]).
      apply Qeq_bool_iff in Hq. congruence. }
    eexists _, _. rewrite !list_lookup_fmap, Hi, Hj.
    split; [reflexivity|]. split; [reflexivity|].
    cbn [fst snd]. by apply rescale_monotone.
Qed.

Lemma normalize_letter_frequencies_monotone_witness :
  let frequencies := [("a"%char, 20%Q); ("b"%char, 10%Q); ("c"%char, 5%Q)] in
  (10 <= 20)%Q
  ∧ ∃ s1 s2,
      normalize_letter_frequencies frequencies !! 1 = Some ("b"%char, s1)
      ∧ normalize_letter_frequencies frequencies !! 0 = Some ("a"%char, s2)
      ∧ (s1 <= s2)%Q.
Proof.
  intros frequencies.
  assert (H : (10 <= 20)%Q) by discriminate.
  split; [exact H|].
  exact (normalize_letter_frequencies_monotone frequencies 1 0 _ _ _ _
           eq_refl eq_refl H).
Defined.

(** ** The prototype against the deployed functions *)

Lemma comprehension_total {A B : Type} (f : A → B) (l : list A) :
  Proto.comprehension (λ x, Proto.Returns (f x)) l = Proto.Returns (f <$> l).
Proof. induction l as [|x l IH]; [done|]. simpl. by rewrite IH. Qed.

Lemma comprehension_ext {A B : Type} (f g : A → Proto.outcome B) (l : list A) :
  (∀ x, f x = g x) → Proto.comprehension f l = Proto.comprehension g l.
Proof.
  intros Hfg. induction l as [|x l IH]; [done|]. simpl. by rewrite Hfg, IH.
Qed.

(** X17: the prototype's frequency analyzer, which has none of the guards
    of the deployed one, never divides by zero and returns the same table,
    for every word list, length and prefix. *)
Theorem proto_calculate_letter_frequency (word_list : list (list ascii))
    (len : Z) (prefix : option (list ascii)) :
  Proto.calculate_letter_frequency word_list len prefix
  = Proto.Returns (calculate_letter_frequency word_list len prefix).
Proof.
  rewrite calculate_letter_frequency_unfold.
  unfold Proto.calculate_letter_frequency, counted_letters. cbv zeta.
  set (filtered := filter _ word_list).
  assert (Hstrip : match prefix with
                   | Some (c :: p) => (λ word, drop (length (c :: p)) word) <$> filtered
                   | _ => filtered
                   end
                   = (λ word, drop (length (default [] prefix)) word) <$> filtered).
  { destruct prefix as [[|c p]|]; cbn [default from_option]; unfold id;
      by rewrite ?fmap_drop_0. }
  rewrite Hstrip. set (all_letters := concat _).
  rewrite Counter_sum. case_decide as Hz.
  - apply length_zero_iff_nil in Hz. by rewrite Hz.
  - by rewrite comprehension_total.
Qed.

Lemma proto_normalize_cons (entry : ascii * Q) (rest : list (ascii * Q)) :
  Proto.normalize_letter_frequencies (entry :: rest)
  = if Qeq_bool (Qmaximum entry.2 (Dict.values rest))
         (Qminimum entry.2 (Dict.values rest))
    then Proto.Throws Proto.ZeroDivisionError
    else Proto.Returns (normalize_letter_frequencies (entry :: rest)).
Proof.
  rewrite normalize_letter_frequencies_cons.
  unfold Proto.normalize_letter_frequencies. cbv zeta.
  change (Dict.values (entry :: rest)) with (entry.2 :: Dict.values rest).
  set (hi := Qmaximum entry.2 (Dict.values rest)).
  set (lo := Qminimum entry.2 (Dict.values rest)).
  assert (Hzero : Qeq_bool (hi - lo) 0 = Qeq_bool hi lo).
  { destruct (Qeq_bool hi lo) eqn:Heq.
    - apply Qeq_bool_iff in Heq. apply Qeq_bool_iff. rewrite Heq. ring.
    - destruct (Qeq_bool (hi - lo) 0) eqn:Hd; [|done].
      apply Qeq_bool_iff in Hd.
      assert (Hq : (hi == lo)%Q).
      { apply (Qplus_inj_r hi lo (- lo)). unfold Qminus in Hd.
        rewrite Hd. ring. }
      apply Qeq_bool_iff in Hq. congruence. }
  destruct (Qeq_bool hi lo) eqn:Heq.
  - cbn [Proto.comprehension]. fold hi lo. by rewrite Hzero.
  - rewrite (comprehension_ext _
               (λ item : ascii * Q,
                  Proto.Returns
                    (item.1, ((item.2 - lo) / (hi - lo) * 10)%Q)))
      by (intros item; cbv beta; fold hi lo; by rewrite Hzero).
    apply comprehension_total.
Qed.

(** X18: the prototype's normalizer raises on the empty table ([max] of an
    empty sequence) and divides by zero when all values are equal; on every
    other table it returns what the deployed normalizer returns. *)
Theorem proto_normalize_letter_frequencies (frequencies : list (ascii * Q)) :
  (frequencies = [] →
   Proto.normalize_letter_frequencies frequencies
   = Proto.Throws Proto.EmptySequence)
  ∧ (frequencies ≠ [] →
     (∀ v w, v ∈ Dict.values frequencies → w ∈ Dict.values frequencies →
             (v == w)%Q) →
     Proto.normalize_letter_frequencies frequencies
     = Proto.Throws Proto.ZeroDivisionError)
  ∧ (¬ (∀ v w, v ∈ Dict.values frequencies → w ∈ Dict.values frequencies →
               (v == w)%Q) →
     Proto.normalize_letter_frequencies frequencies
     = Proto.Returns (normalize_letter_frequencies frequencies)).
Proof.
  split; [by intros ->|].
  destruct frequencies as [|entry rest].
  { split; [done|]. intros H. exfalso. apply H. intros v w Hv.
    by apply elem_of_nil in Hv. }
  rewrite proto_normalize_cons.
  change (Dict.values (entry :: rest)) with (entry.2 :: Dict.values rest).
  set (hi := Qmaximum entry.2 (Dict.values rest)).
  set (lo := Qminimum entry.2 (Dict.values rest)).
  destruct (Qmaximum_spec entry.2 (Dict.values rest)) as [Hhi_in Hhi].
  destruct (Qminimum_spec entry.2 (Dict.values rest)) as [Hlo_in Hlo].
  fold hi in Hhi_in, Hhi. fold lo in Hlo_in, Hlo.
  split.
  - intros _ Hall. assert (Heq : (hi == lo)%Q) by (by apply Hall).
    apply Qeq_bool_iff in Heq. by rewrite Heq.
  - intros Hnot. destruct (Qeq_bool hi lo) eqn:Heq; [|done].
    exfalso. apply Hnot. apply Qeq_bool_iff in Heq. intros v w Hv Hw.
    assert (Hv' : (v == lo)%Q).
    { apply Qle_antisym; [|by apply Hlo]. rewrite <- Heq. by apply Hhi. }
    assert (Hw' : (w == lo)%Q).
    { apply Qle_antisym; [|by apply Hlo]. rewrite <- Heq. by apply Hhi. }
    by rewrite Hv', Hw'.
Qed.

Lemma slice_to_min {A : Type} (l : list A) (n : Z) (m : nat) :
  length l ≤ m → slice_to l (Z.min n (Z.of_nat m)) = slice_to l n.
Proof.
  intros Hlen. destruct (decide (n ≤ Z.of_nat m)%Z) as [Hn|Hn].
  - by rewrite Z.min_l.
  - rewrite Z.min_r by lia. unfold slice_to. rewrite !decide_True by lia.
    rewrite !take_ge by lia. done.
Qed.

Lemma proto_calculate_guess_score_default (guess_count : Z) (word : list ascii)
    (letter_scores : list (ascii * Q)) :
  Proto.calculate_guess_score guess_count word false letter_scores
  = calculate_guess_score word letter_scores guess_count.
Proof.
  unfold Proto.calculate_guess_score, calculate_guess_score.
  by destruct (bool_decide _).
Qed.

(** What the import-time frequency analysis returns. *)
Lemma proto_default_frequencies (all_words : list (list ascii))
    (target_word_length : Z) (word_prefix : option (list ascii)) :
  ∃ frequencies,
    Proto.calculate_letter_frequency all_words target_word_length word_prefix
    = Proto.Returns frequencies
    ∧ frequencies
      = calculate_letter_frequency all_words target_word_length word_prefix.
Proof.
  eexists. split; [|reflexivity].
  rewrite calculate_letter_frequency_unfold.
  unfold Proto.calculate_letter_frequency, counted_letters. cbv zeta.
  set (filtered := filter _ all_words).
  assert (Hstrip : match word_prefix with
                   | Some (c :: p) => (λ word, drop (length (c :: p)) word) <$> filtered
                   | _ => filtered
                   end
                   = (λ word, drop (length (default [] word_prefix)) word)
                     <$> filtered).
  { destruct word_prefix as [[|c p]|]; cbn [default from_option]; unfold id;
      by rewrite ?fmap_drop_0. }
  rewrite Hstrip. set (all_letters := concat _).
  rewrite Counter_sum. case_decide as Hz.
  - apply length_zero_iff_nil in Hz. by rewrite Hz.
  - by rewrite comprehension_total.
Qed.

(** X19: the prototype freezes its letter scores when the module is
    loaded, from the full dictionary and the module's target length and
    prefix.  When that succeeds, the frozen table is the table the deployed
    recommender computes from the same basis, and a call of the prototype's
    [recommend_guesses] with its default length and prefix (the only way the
    prototype calls it) returns, for every pool, [n] and guess count, the
    list of the deployed [recommend_guesses] called with the full dictionary
    as scoring basis; the prototype's clamp [min(n, len(word_list))] changes
    nothing.  Called with another length or prefix the prototype still
    scores with the frozen table. *)
Theorem proto_recommend_guesses (all_words : list (list ascii))
    (target_word_length : Z) (word_prefix : option (list ascii))
    (letter_scores : list (ascii * Q)) :
  Proto.default_letter_scores all_words target_word_length word_prefix
  = Proto.Returns letter_scores →
  letter_scores
  = normalize_letter_frequencies
      (calculate_letter_frequency all_words target_word_length word_prefix)
  ∧ (∀ guess_count word_list n,
       Proto.recommend_guesses guess_count letter_scores word_list n
         target_word_length word_prefix
       = recommend_guesses word_list target_word_length word_prefix n
           guess_count (Some all_words))
  ∧ (∀ guess_count word_list n len prefix,
       Proto.recommend_guesses guess_count letter_scores word_list n len prefix
       = slice_to
           (sort_desc (λ x y : list ascii * Q, Qltb x.2 y.2)
              ((λ word,
                  (word, calculate_guess_score word letter_scores guess_count))
               <$> filter (λ word, matches_length_prefix len prefix word = true)
                     word_list))
           n).
Proof.
  intros Hscores.
  assert (Hls : letter_scores
                = normalize_letter_frequencies
                    (calculate_letter_frequency all_words target_word_length
                       word_prefix)).
  { unfold Proto.default_letter_scores in Hscores.
    destruct (proto_default_frequencies all_words target_word_length word_prefix)
      as (frequencies & Hfreq & ->).
    rewrite Hfreq in Hscores.
    destruct (calculate_letter_frequency all_words target_word_length
                word_prefix) as [|entry rest]; [done|].
    rewrite proto_normalize_cons in Hscores.
    destruct (Qeq_bool _ _); [done|]. by injection Hscores as <-. }
  assert (Hany : ∀ guess_count word_list n len prefix,
             Proto.recommend_guesses guess_count letter_scores word_list n len
               prefix
             = slice_to
                 (sort_desc (λ x y : list ascii * Q, Qltb x.2 y.2)
                    ((λ word,
                        (word,
                         calculate_guess_score word letter_scores guess_count))
                     <$> filter (λ word, matches_length_prefix len prefix word
                                         = true) word_list))
                 n).
  { intros guess_count word_list n len prefix.
    unfold Proto.recommend_guesses. cbv zeta. rewrite slice_to_min.
    - do 2 f_equal. apply list_fmap_ext. intros _ word _. f_equal.
      apply proto_calculate_guess_score_default.
    - rewrite sort_desc_length, length_fmap. apply length_filter. }
  split; [done|]. split; [|done].
  intros guess_count word_list n. rewrite Hany, recommend_guesses_slice.
  cbn [default from_option]. unfold id. by rewrite <- Hls.
Qed.

Lemma proto_recommend_guesses_witness :
  let all_words := [py "apple"; py "crane"; py "slate"; py "to"; py "audio"] in
  ∃ letter_scores,
    Proto.default_letter_scores all_words 5 None = Proto.Returns letter_scores
    ∧ Proto.recommend_guesses 1 letter_scores [py "crane"; py "slate"] 9 5 None
      = recommend_guesses [py "crane"; py "slate"] 5 None 9 1 (Some all_words).
Proof.
  intros all_words.
  destruct (Proto.default_letter_scores all_words 5 None)
    as [letter_scores|e] eqn:H.
  - exists letter_scores. split; [reflexivity|].
    exact (proj1 (proj2 (proto_recommend_guesses all_words 5 None
                           letter_scores H))
             1%Z [py "crane"; py "slate"] 9%Z).
  - exfalso. vm_compute in H. discriminate.
Defined.

(** With scores frozen for length 5, a call for length 2 ranks by the
    letters of the five-letter words; the deployed recommender, which
    computes the table for the length of the call, ranks differently. *)
Example proto_recommend_guesses_other_length :
  let all_words :=
    [py "tatta"; py "attao"; py "at"; py "ta"; py "to"; py "oo"] in
  (λ letter_scores,
     (Proto.recommend_guesses 1 letter_scores all_words 9 2 None).*1)
  <$> (match Proto.default_letter_scores all_words 5 None with
       | Proto.Returns letter_scores => Some letter_scores
       | Proto.Throws _ => None
       end)
  = Some [py "at"; py "ta"; py "to"; py "oo"]
  ∧ (recommend_guesses all_words 2 None 9 1 (Some all_words)).*1
    = [py "to"; py "at"; py "ta"; py "oo"].
Proof. split; vm_compute; reflexivity. Qed.

Lemma StronglySorted_NoDup_strict (l : list ascii) :
  StronglySorted (λ a b, (nat_of_ascii b <? nat_of_ascii a) = false) l →
  NoDup l →
  StronglySorted (λ a b, nat_of_ascii a < nat_of_ascii b) l.
Proof.
  induction 1 as [|a l Hl IH Ha]; intros Hnd; [constructor|].
  apply NoDup_cons in Hnd as [Hnotin Hnd]. constructor; [by apply IH|].
  apply Forall_forall. intros b Hb. rewrite Forall_forall in Ha.
  specialize (Ha b Hb). apply Nat.ltb_ge in Ha.
  destruct (decide (nat_of_ascii a = nat_of_ascii b)) as [Heq|Hne]; [|lia].
  exfalso. apply Hnotin.
  assert (a = b) as ->; [|done].
  by rewrite <- (ascii_nat_embedding a), Heq, ascii_nat_embedding.
Qed.

(** X20: the prototype's [collect_variable_letters] returns the letters of
    the deployed handler's [variable_letters] set, each once, in strictly
    increasing order of character code. *)
Theorem proto_collect_variable_letters
    (variable_positions : list (nat * gset ascii)) :
  StronglySorted (λ a b, nat_of_ascii a < nat_of_ascii b)
    (Proto.collect_variable_letters variable_positions)
  ∧ ∀ c, c ∈ Proto.collect_variable_letters variable_positions
         ↔ c ∈ collect_variable_letters variable_positions.
Proof.
  unfold Proto.collect_variable_letters, collect_variable_letters. cbv zeta.
  set (letters := ⋃ variable_positions.*2).
  set (lt := λ x y : ascii, nat_of_ascii y <? nat_of_ascii x).
  pose proof (sort_desc_Permutation lt (elements letters)) as Hperm.
  split.
  - apply StronglySorted_NoDup_strict.
    + apply (sort_desc_sorted lt).
      * intros a b. unfold lt. rewrite Nat.ltb_lt, Nat.ltb_ge. lia.
      * intros a b c. unfold lt. rewrite !Nat.ltb_ge. lia.
    + rewrite Hperm. apply NoDup_elements.
  - intros c. rewrite Hperm. apply elem_of_elements.
Qed.

Example proto_collect_variable_letters_gaming_vaping :
  (find_variable_letter_positions [py "gaming"; py "vaping"]
   ≫= λ vp, Ok (Proto.collect_variable_letters vp))
  = Ok (py "gmpv").
Proof. vm_compute. reflexivity. Qed.

(** ** Variable positions on word lists of any shape *)

Lemma letters_at_snoc_None pos word_list word :
  word !! pos = None →
  letters_at pos (word_list ++ [word]) = letters_at pos word_list.
Proof.
  intros Hc. unfold letters_at. rewrite omap_app. simpl. rewrite Hc.
  by rewrite app_nil_r.
Qed.

Lemma letters_at_elem_of pos word_list c :
  c ∈ letters_at pos word_list ↔ ∃ word, word ∈ word_list ∧ word !! pos = Some c.
Proof. unfold letters_at. by rewrite elem_of_list_to_set, list_elem_of_omap. Qed.

Lemma foldlM_app {A S : Type} (step : S → A → result S) (st : S) (l1 l2 : list A) :
  foldlM step st (l1 ++ l2) = (foldlM step st l1 ≫= λ st', foldlM step st' l2).
Proof.
  revert st. induction l1 as [|x l1 IH]; intros st; [done|].
  cbn [app foldlM]. destruct (step st x); [|done]. rewrite !bind_Ok. apply IH.
Qed.

Lemma add_letter_KeyError (vp : gmap nat (gset ascii)) (k : nat) (c : ascii) :
  vp !! k = None → add_letter vp (k, c) = Raise KeyError.
Proof. intros Hk. unfold add_letter, getitem. cbn [fst snd]. by rewrite Hk. Qed.

(** A word longer than the dict has positions makes the inner loop raise. *)
Lemma add_word_KeyError (vp : gmap nat (gset ascii)) (word : list ascii)
    (word_length : nat) :
  (∀ i, is_Some (vp !! i) ↔ i < word_length) →
  word_length < length word →
  add_word vp word = Raise KeyError.
Proof.
  intros Hdom Hlong. unfold add_word.
  rewrite <- (take_drop word_length word) at 1.
  rewrite imap_app, foldlM_app.
  assert (Htake : length (take word_length word) = word_length)
    by (rewrite length_take; lia).
  destruct (add_letters_from (take word_length word) 0 vp)
    as (vp' & Hfold & Hvp').
  { intros i Hi. apply Hdom. lia. }
  cbn [Nat.add] in Hfold. rewrite Hfold, bind_Ok, Htake.
  destruct (drop word_length word) as [|c rest] eqn:Hdrop.
  { apply (f_equal length) in Hdrop. rewrite length_drop in Hdrop.
    simpl in Hdrop. lia. }
  cbn [imap foldlM]. rewrite Nat.add_0_r.
  rewrite add_letter_KeyError; [done|].
  rewrite Hvp', decide_True by lia.
  rewrite lookup_ge_None_2 by (rewrite Htake; lia).
  apply eq_None_not_Some. rewrite Hdom. lia.
Qed.

(** The outer loop, on any word list: it goes through when no word is longer
    than the dict has positions, and raises [KeyError] otherwise. *)
Lemma foldlM_add_word_cases (word_length : nat)
    (word_list seen : list (list ascii)) (vp : gmap nat (gset ascii)) :
  (∀ i, vp !! i = if decide (i < word_length)
                  then Some (letters_at i seen) else None) →
  (Forall (λ word, length word ≤ word_length) word_list
   ∧ ∃ vp',
       foldlM add_word vp word_list = Ok vp'
       ∧ ∀ i, vp' !! i = if decide (i < word_length)
                         then Some (letters_at i (seen ++ word_list)) else None)
  ∨ (Exists (λ word, word_length < length word) word_list
     ∧ foldlM add_word vp word_list = Raise KeyError).
Proof.
  revert seen vp. induction word_list as [|word word_list IH]; intros seen vp Hvp.
  - left. split; [constructor|]. exists vp. split; [done|]. by rewrite app_nil_r.
  - cbn [foldlM]. destruct (decide (length word ≤ word_length)) as [Hle|Hgt].
    + destruct (add_word_lookup vp word) as (vp1 & -> & Hvp1).
      { intros i Hi. rewrite Hvp, decide_True by lia. done. }
      rewrite bind_Ok.
      destruct (IH (seen ++ [word]) vp1) as [(Hall & vp2 & Hfold & Hvp2)|[Hex Hraise]].
      * intros i. rewrite Hvp1, Hvp. destruct (word !! i) as [c|] eqn:Hc.
        -- assert (i < word_length) by (apply lookup_lt_Some in Hc; lia).
           rewrite !decide_True by done. simpl.
           by rewrite (letters_at_snoc _ _ _ c).
        -- case_decide; [|done]. by rewrite letters_at_snoc_None.
      * left. split; [by constructor|]. exists vp2. split; [done|].
        intros i. rewrite Hvp2. by rewrite <- (assoc_L _ seen [_] word_list).
      * right. split; [by apply Exists_cons_tl|done].
    + right. split; [apply Exists_cons_hd; lia|].
      rewrite (add_word_KeyError vp word word_length); [done| |lia].
      intros i. rewrite Hvp. case_decide; [|split; [by intros []|lia]].
      split; [done|]. by eexists.
Qed.

(** What the analysis returns or raises, on any word list. *)
Lemma find_variable_letter_positions_outcome (word_list : list (list ascii)) :
  let word_length := length (default [] (head word_list)) in
  match find_variable_letter_positions word_list with
  | Ok variable_positions =>
      Forall (λ word, length word ≤ word_length) word_list
      ∧ variable_positions
        = omap (λ pos,
                  if decide (1 < size (letters_at pos word_list))
                  then Some (pos, letters_at pos word_list) else None)
            (seq 0 word_length)
  | Raise e =>
      e = KeyError ∧ Exists (λ word, word_length < length word) word_list
  end.
Proof.
  destruct word_list as [|first rest]; [by split|].
  cbn [head default from_option]. unfold id, find_variable_letter_positions.
  destruct (foldlM_add_word_cases (length first) (first :: rest) []
              (list_to_map ((λ i, (i, ∅)) <$> seq 0 (length first))))
    as [(Hall & vp & -> & Hvp)|[Hex ->]].
  - intros i. rewrite init_positions_lookup. by case_decide.
  - rewrite bind_Ok. split; [done|]. apply omap_ext_elem_of.
    intros pos Hpos%elem_of_seq. rewrite Hvp, decide_True by lia. done.
  - done.
Qed.

(** X21: the position analysis raises, and then a [KeyError], exactly when
    some word is longer than the first word of the list; words shorter than
    the first are accepted. *)
Theorem find_variable_letter_positions_KeyError (word_list : list (list ascii)) :
  (find_variable_letter_positions word_list = Raise KeyError
   ↔ Exists (λ word, length (default [] (head word_list)) < length word)
       word_list)
  ∧ ∀ e, find_variable_letter_positions word_list = Raise e → e = KeyError.
Proof.
  pose proof (find_variable_letter_positions_outcome word_list) as H.
  cbv zeta in H.
  destruct (find_variable_letter_positions word_list) as [vp|e].
  - destruct H as [Hall _]. split; [|done]. split; [done|].
    intros Hex. exfalso. rewrite Exists_exists in Hex.
    destruct Hex as (word & Hword & Hlong).
    rewrite Forall_forall in Hall. specialize (Hall word Hword). lia.
  - destruct H as [-> Hex]. split; [|by intros ? [= <-]]. by split.
Qed.

Example find_variable_letter_positions_longer_word :
  find_variable_letter_positions [py "to"; py "tea"] = Raise KeyError
  ∧ ∃ vp, find_variable_letter_positions [py "tea"; py "to"] = Ok vp.
Proof. split; [by vm_compute|]. eexists. by vm_compute. Qed.

Lemma size_gt_1 (X : gset ascii) :
  1 < size X ↔ ∃ x y, x ∈ X ∧ y ∈ X ∧ x ≠ y.
Proof.
  split.
  - intros Hsize. destruct (size_pos_elem_of X) as [x Hx]; [lia|].
    destruct (size_pos_elem_of (X ∖ {[x]})) as [y Hy].
    { rewrite size_difference by set_solver. rewrite size_singleton. lia. }
    exists x, y. set_solver.
  - intros (x & y & Hx & Hy & Hne).
    assert (Hsub : ({[x]} ∪ {[y]} : gset ascii) ⊆ X) by set_solver.
    apply subseteq_size in Hsub.
    rewrite size_union, !size_singleton in Hsub by set_solver. lia.
Qed.

Lemma StronglySorted_lt_seq (a n : nat) : StronglySorted lt (seq a n).
Proof.
  revert a. induction n as [|n IH]; intros a; [constructor|].
  cbn [seq]. constructor; [apply IH|].
  apply Forall_forall. intros b Hb%elem_of_seq. lia.
Qed.

Lemma StronglySorted_sublist {A : Type} (R : A → A → Prop) (l1 l2 : list A) :
  l1 `sublist_of` l2 → StronglySorted R l2 → StronglySorted R l1.
Proof.
  induction 1 as [|x l1 l2 Hsub IH|x l1 l2 Hsub IH]; intros Hs; [done|..].
  - apply StronglySorted_inv in Hs as [Hs Hx]. constructor; [by apply IH|].
    by eapply Forall_sublist.
  - apply StronglySorted_inv in Hs as [Hs _]. by apply IH.
Qed.

Lemma omap_positions_sublist {B : Type} (f : nat → option (nat * B))
    (l : list nat) :
  (∀ p x, f p = Some x → x.1 = p) → (omap f l).*1 `sublist_of` l.
Proof.
  intros Hf. induction l as [|p l IH]; [done|]. cbn [omap list_omap].
  destruct (f p) as [x|] eqn:Hp.
  - rewrite fmap_cons, (Hf p x Hp). by apply sublist_skip.
  - by apply sublist_cons.
Qed.

(** X22: when the position analysis returns, it lists, by increasing
    position, exactly the positions at which two words of the list have
    different letters, each with the set of all letters seen there. *)
Theorem find_variable_letter_positions_meaning (word_list : list (list ascii))
    (variable_positions : list (nat * gset ascii)) :
  find_variable_letter_positions word_list = Ok variable_positions →
  StronglySorted lt variable_positions.*1
  ∧ ∀ pos letters,
      (pos, letters) ∈ variable_positions
      ↔ letters = letters_at pos word_list
        ∧ ∃ word1 word2 c1 c2,
            word1 ∈ word_list ∧ word2 ∈ word_list
            ∧ word1 !! pos = Some c1 ∧ word2 !! pos = Some c2 ∧ c1 ≠ c2.
Proof.
  intros Hok. pose proof (find_variable_letter_positions_outcome word_list) as H.
  cbv zeta in H. rewrite Hok in H. destruct H as [Hall ->].
  set (word_length := length (default [] (head word_list))) in *.
  assert (Hvaries : ∀ pos,
    1 < size (letters_at pos word_list)
    ↔ ∃ word1 word2 c1 c2,
        word1 ∈ word_list ∧ word2 ∈ word_list
        ∧ word1 !! pos = Some c1 ∧ word2 !! pos = Some c2 ∧ c1 ≠ c2).
  { intros pos. rewrite size_gt_1. split.
    - intros (c1 & c2 & (w1 & Hw1 & Hc1)%letters_at_elem_of
                & (w2 & Hw2 & Hc2)%letters_at_elem_of & Hne).
      by exists w1, w2, c1, c2.
    - intros (w1 & w2 & c1 & c2 & Hw1 & Hw2 & Hc1 & Hc2 & Hne).
      exists c1, c2. rewrite !letters_at_elem_of. eauto 10. }
  split.
  - eapply StronglySorted_sublist; [|apply (StronglySorted_lt_seq 0 word_length)].
    apply omap_positions_sublist. intros p x. case_decide; [|done].
    by intros [= <-].
  - intros pos letters. rewrite list_elem_of_omap. split.
    + intros (p & _ & Hp). case_decide as Hsize; [|done].
      injection Hp as -> <-. split; [done|]. by apply Hvaries.
    + intros [-> Hdiff]. exists pos. split.
      * destruct Hdiff as (w1 & _ & c1 & _ & Hw1 & _ & Hc1 & _).
        apply elem_of_seq. apply lookup_lt_Some in Hc1.
        rewrite Forall_forall in Hall. specialize (Hall w1 Hw1). lia.
      * rewrite decide_True; [done|]. by apply Hvaries.
Qed.

Lemma find_variable_letter_positions_meaning_witness :
  ∃ vp, find_variable_letter_positions [py "gaming"; py "vaping"] = Ok vp
        ∧ StronglySorted lt vp.*1.
Proof.
  destruct (find_variable_letter_positions [py "gaming"; py "vaping"])
    as [vp|e] eqn:H.
  - exists vp. split; [reflexivity|].
    exact (proj1 (find_variable_letter_positions_meaning _ _ H)).
  - exfalso. vm_compute in H. discriminate.
Defined.

Example find_variable_letter_positions_gaming_vaping :
  (λ vp, vp.*1) <$> find_variable_letter_positions [py "gaming"; py "vaping"]
  = Ok [0; 2].
Proof. vm_compute. reflexivity. Qed.

(** ** The dictionary loader and its cache *)

(** X23: read-through.  Once a call has returned a dictionary, the cache it
    leaves holds that dictionary under the name, and every later call for
    the name returns it without changing the cache, whatever the bucket then
    holds. *)
Theorem load_dictionary_read_through (bucket bucket' : string → blob)
    (cache cache' : gmap string (list (list ascii))) (name : string)
    (words : list (list ascii)) :
  load_dictionary_from_storage bucket cache name = (Ok words, cache') →
  cache' !! name = Some words
  ∧ load_dictionary_from_storage bucket' cache' name = (Ok words, cache').
Proof.
  unfold load_dictionary_from_storage at 1.
  destruct (cache !! name) as [cached|] eqn:Hc.
  - intros [= <- <-]. split; [done|].
    unfold load_dictionary_from_storage. by rewrite Hc.
  - destruct (download_dictionary bucket name) as [msg|data]; [done|].
    intros [= <- <-]. split; [apply lookup_insert_eq|].
    unfold load_dictionary_from_storage. by rewrite lookup_insert_eq.
Qed.

Definition sample_bucket (path : string) : blob :=
  if decide (path = "dictionaries/english.json"%string)
  then BlobJson (JsonList [py "apple"; py "crane"; py "slate"])
  else if decide (path = "dictionaries/broken.json"%string)
  then BlobJson JsonOther
  else BlobMissing.

Lemma load_dictionary_read_through_witness :
  load_dictionary_from_storage sample_bucket ∅ "english.json"
  = (Ok [py "apple"; py "crane"; py "slate"],
     {["english.json"%string := [py "apple"; py "crane"; py "slate"]]})
  ∧ load_dictionary_from_storage (λ _, BlobMissing)
      {["english.json"%string := [py "apple"; py "crane"; py "slate"]]}
      "english.json"
    = (Ok [py "apple"; py "crane"; py "slate"],
       {["english.json"%string := [py "apple"; py "crane"; py "slate"]]}).
Proof.
  assert (H : load_dictionary_from_storage sample_bucket ∅ "english.json"
              = (Ok [py "apple"; py "crane"; py "slate"],
                 {["english.json"%string
                     := [py "apple"; py "crane"; py "slate"]]})).
  { reflexivity. }
  split; [exact H|].
  exact (proj2 (load_dictionary_read_through sample_bucket (λ _, BlobMissing)
                  _ _ _ _ H)).
Defined.

(** X24: a failed load is always a [ValueError] whose text is "Failed to
    load dictionary '<name>': " followed by the text of the failure inside
    the [try]: "Dictionary '<name>' not found" for a blob that does not
    exist, the text of the exception for a download or a parse that raises,
    "Invalid dictionary format for '<name>'" for JSON that is not a list.
    It happens only on a cache miss and leaves the cache as it was: the
    failure is not cached. *)
Theorem load_dictionary_failure (bucket : string → blob)
    (cache cache' : gmap string (list (list ascii))) (name : string) (e : exn) :
  load_dictionary_from_storage bucket cache name = (Raise e, cache') →
  cache' = cache
  ∧ cache !! name = None
  ∧ ∃ inner,
      e = ValueError ("Failed to load dictionary '" ++ name ++ "': " ++ inner)%string
      ∧ ((bucket ("dictionaries/" ++ name)%string = BlobMissing
          ∧ inner = ("Dictionary '" ++ name ++ "' not found")%string)
         ∨ bucket ("dictionaries/" ++ name)%string = BlobFails inner
         ∨ (bucket ("dictionaries/" ++ name)%string = BlobJson JsonOther
            ∧ inner = ("Invalid dictionary format for '" ++ name ++ "'")%string)).
Proof.
  unfold load_dictionary_from_storage, download_dictionary.
  destruct (cache !! name) as [cached|]; [done|].
  destruct (bucket ("dictionaries/" ++ name)%string) as [|m|[ws|]] eqn:Hblob;
    try done; intros [= <- <-]; (split; [done|]); (split; [done|]);
    eexists; (split; [reflexivity|]).
  - by left.
  - by right; left.
  - by right; right.
Qed.

Lemma load_dictionary_failure_witness :
  load_dictionary_from_storage sample_bucket ∅ "broken.json"
  = (Raise (ValueError
              "Failed to load dictionary 'broken.json': Invalid dictionary format for 'broken.json'"),
     ∅)
  ∧ (∅ : gmap string (list (list ascii))) !! "broken.json"%string = None.
Proof.
  assert (H : load_dictionary_from_storage sample_bucket ∅ "broken.json"
              = (Raise (ValueError
                   "Failed to load dictionary 'broken.json': Invalid dictionary format for 'broken.json'"),
                 ∅)).
  { reflexivity. }
  split; [exact H|].
  exact (proj1 (proj2 (load_dictionary_failure _ _ _ _ _ H))).
Defined.

(** X25: a load only ever adds the requested dictionary to the cache: what
    was cached stays cached with the same words, and no other name is
    touched. *)
Theorem load_dictionary_cache_grows (bucket : string → blob)
    (cache : gmap string (list (list ascii))) (name : string) :
  let cache' := (load_dictionary_from_storage bucket cache name).2 in
  cache ⊆ cache'
  ∧ ∀ other, other ≠ name → cache' !! other = cache !! other.
Proof.
  unfold load_dictionary_from_storage.
  destruct (cache !! name) as [cached|] eqn:Hc; cbn [snd]; [done|].
  destruct (download_dictionary bucket name) as [msg|data]; cbn [snd]; [done|].
  split; [by apply insert_subseteq|].
  intros other Hne. by rewrite lookup_insert_ne.
Qed.

(** X26: when the dictionary error is reported.  With the loader above,
    the handler answers [DICTIONARY_NOT_FOUND] exactly when the request has
    a config whose word length is an integer of at least 1, the requested
    dictionary (english.json by default) is not in the cache and its
    download fails; the message is then the loader's, "Failed to load
    dictionary '<name>': " followed by the text of the failure.  The
    history plays no part: it is examined only after the dictionary has
    loaded, so a malformed history does not change this answer. *)
Theorem serve_dictionary_error (bucket : string → blob)
    (cache : gmap string (list (list ascii))) (data : Request) (msg : string) :
  serve bucket cache data = Error DICTIONARY_NOT_FOUND msg
  ↔ ∃ cfg word_length inner,
      config data = Some cfg
      ∧ default (JInt 5) (wordLength cfg) = JInt word_length
      ∧ (1 ≤ word_length)%Z
      ∧ cache !! default "english.json"%string (dictionary cfg) = None
      ∧ download_dictionary bucket
          (default "english.json"%string (dictionary cfg)) = inl inner
      ∧ msg = ("Failed to load dictionary '"
               ++ default "english.json"%string (dictionary cfg)
               ++ "': " ++ inner)%string.
Proof.
  unfold serve. split.
  - intros Hresp.
    pose proof (calculate_next_move_outcome
                  (λ name, (load_dictionary_from_storage bucket cache name).1)
                  data) as H.
    rewrite Hresp in H. destruct H as (cfg & wl & Hcfg & Hwl & Hpos & Hl).
    cbv beta in Hl. unfold load_dictionary_from_storage in Hl.
    destruct (cache !! _) eqn:Hc; [done|].
    destruct (download_dictionary _ _) as [m|] eqn:Hd; [|done].
    cbn [fst] in Hl. injection Hl as <-.
    by exists cfg, wl, m.
  - intros (cfg & wl & m & Hcfg & Hwl & Hpos & Hc & Hd & ->).
    unfold calculate_next_move. rewrite Hcfg, Hwl, decide_False by lia.
    unfold load_dictionary_from_storage. rewrite Hc, Hd. by cbn [fst].
Qed.

Example serve_dictionary_not_found :
  serve sample_bucket ∅
    {| config := Some {| wordLength := None; prefix := None;
                         dictionary := Some "klingon.json"%string |};
       history := None |}
  = Error DICTIONARY_NOT_FOUND
      "Failed to load dictionary 'klingon.json': Dictionary 'klingon.json' not found".
Proof. reflexivity. Qed.
